(** * increment_version.py: the firmware version bumper, embedded and verified

    The script reads a C header, extracts four integers with regular
    expressions, increments one of them, rewrites the integers and two
    derived strings with [re.sub], and writes the header back.

    Layout of this development:
    - text: Python [str] as a list of code points, and the two character
      tables of the interpreter that the regular expressions consult;
    - the fragment of Python's [re] that the script uses (literals and
      greedy [+] over a character class, with capture groups and
      backtracking), [re.search] and [re.sub];
    - [int(...)] and [str(...)] on non-negative integers, dictionaries in
      insertion order, the files with the line-ending translation of text
      mode, and the two output streams;
    - the script itself ([increment_version], [main]);
    - the notions that the statements use and a few sample headers;
    - the theory of the script, and the properties of its specification,
      each one proved in general and then run on a sample header. *)

From Stdlib Require Import String Ascii.
From Stdlib Require Import List NArith Lia Bool Arith.
Import ListNotations.

(** ** Text *)

(** A Python [str] is a sequence of Unicode code points. *)
Definition char := N.
Definition text := list char.

(** String literals of the source, as code points. *)
Definition lit (s : string) : text := map N_of_ascii (list_ascii_of_string s).

Fixpoint text_eqb (a b : text) : bool :=
  match a, b with
  | [], [] => true
  | x :: a', y :: b' => N.eqb x y && text_eqb a' b'
  | _, _ => false
  end.

Definition quote : char := 34%N.
Definition hash : char := 35%N.
Definition newline : char := 10%N.
Definition cr : char := 13%N.

(** The ASCII parts of the interpreter's tables: [str.isspace] on code points
    below 128 is [\t\n\v\f\r], the separators 0x1C-0x1F and the space;
    [str.isdecimal] is [0-9]. *)
Definition ascii_isspace (c : char) : bool :=
  ((9 <=? c) && (c <=? 13) || (28 <=? c) && (c <=? 32))%N.

Definition ascii_isdecimal (c : char) : bool := ((48 <=? c) && (c <=? 57))%N.

(** [re] without the ASCII flag classifies characters with the interpreter's
    Unicode database: [\s] is [str.isspace], [\d] is [str.isdecimal], and
    [int] reads every decimal digit by its digit value.  The database is
    not part of the repository and changes with the Unicode version, so the
    development is parametric in it and assumes only what every version
    guarantees. *)
Class UnicodeTables : Type := {
  isspace : char -> bool;
  isdecimal : char -> bool;
  decimal_value : char -> N;
  isspace_ascii : forall c, (c < 128)%N -> isspace c = ascii_isspace c;
  isdecimal_ascii : forall c, (c < 128)%N -> isdecimal c = ascii_isdecimal c;
  space_not_decimal : forall c, isspace c = true -> isdecimal c = false;
  decimal_value_ascii :
    forall c, ascii_isdecimal c = true -> decimal_value c = (c - 48)%N
}.

(** *** Two instances *)

(** Membership in a list of inclusive code point ranges. *)
Definition in_ranges (rs : list (N * N)) (c : char) : bool :=
  existsb (fun r => (fst r <=? c) && (c <=? snd r))%N rs.

(** No range of [r1] meets a range of [r2]. *)
Definition ranges_apart (r1 r2 : list (N * N)) : bool :=
  forallb (fun a => forallb (fun b => (snd a <? fst b) || (snd b <? fst a))%N r2) r1.

(** The database restricted to ASCII (what [re.ASCII] would use). *)
Definition ascii_decimal_value (c : char) : N := (c - 48)%N.

(** [str.isspace] of CPython: bidirectional classes WS, B, S and category
    Zs. *)
Definition py_space_ranges : list (N * N) :=
  [ (9, 13); (28, 32); (133, 133); (160, 160); (5760, 5760); (8192, 8202);
    (8232, 8233); (8239, 8239); (8287, 8287); (12288, 12288) ]%N.

(** The zero digits of the decimal digit blocks (category Nd) of Unicode 15;
    every block is ten consecutive code points, in digit order. *)
Definition py_decimal_zeros : list N :=
  [ 0x30; 0x660; 0x6F0; 0x7C0; 0x966; 0x9E6; 0xA66; 0xAE6; 0xB66; 0xBE6;
    0xC66; 0xCE6; 0xD66; 0xDE6; 0xE50; 0xED0; 0xF20; 0x1040; 0x1090; 0x17E0;
    0x1810; 0x1946; 0x19D0; 0x1A80; 0x1A90; 0x1B50; 0x1BB0; 0x1C40; 0x1C50;
    0xA620; 0xA8D0; 0xA900; 0xA9D0; 0xA9F0; 0xAA50; 0xABF0; 0xFF10; 0x104A0;
    0x10D30; 0x11066; 0x110F0; 0x11136; 0x111D0; 0x112F0; 0x11450; 0x114D0;
    0x11650; 0x116C0; 0x11730; 0x118E0; 0x11950; 0x11C50; 0x11D50; 0x11DA0;
    0x11F50; 0x16A60; 0x16AC0; 0x16B50; 0x1D7CE; 0x1D7D8; 0x1D7E2; 0x1D7EC;
    0x1D7F6; 0x1E140; 0x1E2F0; 0x1E4F0; 0x1E950; 0x1FBF0 ]%N.

Definition py_isspace (c : char) : bool := in_ranges py_space_ranges c.

Definition py_decimal_ranges : list (N * N) :=
  map (fun z => (z, z + 9)%N) py_decimal_zeros.

Definition py_isdecimal (c : char) : bool := in_ranges py_decimal_ranges c.

Definition py_decimal_value (c : char) : N :=
  match find (fun r => (fst r <=? c) && (c <=? snd r))%N py_decimal_ranges with
  | Some r => (c - fst r)%N
  | None => 0%N
  end.

(** ** The regular expressions of the script *)

Section Re.

Context {U : UnicodeTables}.

(** Character classes: [\s], [\d] and the complement of the double quote. *)
Inductive cclass : Type := ClsSpace | ClsDigit | ClsNotQuote.

Definition in_class (k : cclass) (c : char) : bool :=
  match k with
  | ClsSpace => isspace c
  | ClsDigit => isdecimal c
  | ClsNotQuote => negb (N.eqb c quote)
  end.

(** The patterns are sequences of literals and of [class+]; every element
    sits in a capture group, and a pattern is the list of its groups. *)
Inductive atom : Type :=
| Lit (l : text)
| Plus (k : cclass).

Definition pattern := list (list atom).

Fixpoint strip_prefix (l s : text) : option text :=
  match l, s with
  | [], _ => Some s
  | x :: l', y :: s' => if N.eqb x y then strip_prefix l' s' else None
  | _ :: _, [] => None
  end.

(** Length of the longest prefix of [s] inside the class. *)
Fixpoint run (k : cclass) (s : text) : nat :=
  match s with
  | c :: s' => if in_class k c then S (run k s') else 0
  | [] => 0
  end.

(** Greedy [+] with backtracking: try to continue after [n] characters of
    the class, then after [n - 1], ..., down to one. *)
Fixpoint backtrack {R} (k : text -> option R) (n : nat) (s : text)
  : option (nat * R) :=
  match n with
  | O => None
  | S n' =>
      match k (skipn n s) with
      | Some r => Some (n, r)
      | None => backtrack k n' s
      end
  end.

(** Match a sequence of atoms at the head of [s], then the continuation
    [k]; the result is the number of characters the atoms took and what
    [k] returned. *)
Fixpoint match_seq {R} (p : list atom) (k : text -> option R) (s : text)
  : option (nat * R) :=
  match p with
  | [] => option_map (pair O) (k s)
  | Lit l :: p' =>
      match strip_prefix l s with
      | Some s' =>
          option_map (fun nr => (List.length l + fst nr, snd nr))%nat
                     (match_seq p' k s')
      | None => None
      end
  | Plus c :: p' =>
      option_map (fun nmr => (fst nmr + fst (snd nmr), snd (snd nmr)))%nat
                 (backtrack (match_seq p' k) (run c s) s)
  end.

(** [pattern.match(s)] at the head of [s]: the texts of the groups, in
    order, and the text after the match. *)
Fixpoint match_groups (p : pattern) (s : text) : option (list text * text) :=
  match p with
  | [] => Some ([], s)
  | g :: p' =>
      option_map (fun ngr => (firstn (fst ngr) s :: fst (snd ngr), snd (snd ngr)))
                 (match_seq g (match_groups p') s)
  end.

(** [re.search(pattern, s)]: the match at the leftmost position that has
    one; the result is that position and the groups. *)
Fixpoint search_from (p : pattern) (i : nat) (s : text)
  : option (nat * list text) :=
  match match_groups p s with
  | Some (gs, _) => Some (i, gs)
  | None =>
      match s with
      | [] => None
      | _ :: s' => search_from p (S i) s'
      end
  end.

Definition re_search (p : pattern) (s : text) : option (nat * list text) :=
  search_from p 0 s.

(** [match.group(n)], for [n >= 1]. *)
Definition group (n : nat) (gs : list text) : text := nth (n - 1) gs [].

(** A replacement template: [\g<n>] references and literal text. *)
Inductive titem : Type :=
| TGroup (n : nat)
| TText (t : text).

Definition expand (tpl : list titem) (gs : list text) : text :=
  concat (map (fun i => match i with TGroup n => group n gs | TText t => t end) tpl).

(** [re.sub(pattern, template, s)]: scan left to right; where the pattern
    matches, emit the expanded template and resume after the match,
    otherwise copy one character.  [skip] counts the characters of the
    current match that the scan still has to pass over.  An empty match
    emits the template and copies the character it stands before. *)
Fixpoint sub_scan (p : pattern) (tpl : list titem) (skip : nat) (s : text)
  : text :=
  match s with
  | [] =>
      match skip, match_groups p [] with
      | O, Some (gs, _) => expand tpl gs
      | _, _ => []
      end
  | c :: s' =>
      match skip with
      | S k => sub_scan p tpl k s'
      | O =>
          match match_groups p s with
          | Some (gs, r) =>
              expand tpl gs ++
              match (List.length s - List.length r)%nat with
              | O => c :: sub_scan p tpl 0 s'
              | S k => sub_scan p tpl k s'
              end
          | None => c :: sub_scan p tpl 0 s'
          end
      end
  end.

Definition re_sub (p : pattern) (tpl : list titem) (s : text) : text :=
  sub_scan p tpl 0 s.

End Re.

(** ** Python values the script computes with *)

(** *** The world of the script: files and the two output streams *)

(** What a path names, as far as the calls of the script can tell.  The
    script reads and writes its file as UTF-8, so a regular file is the
    text that its bytes decode to, or it is not decodable.  For
    [Unreachable] paths the lookup itself fails with an error that
    [Path.exists()] does not take for absence (a name that is too long, a
    directory that may not be searched); up to Python 3.13 it raises that
    error.  Devices that fail while they are read or written are not
    modelled.  A path is the text that the script hands to the calls: two
    texts that the file system resolves to one file (a leading [./], a
    link) are two paths here. *)
Inductive node : Type :=
| Absent                 (* nothing is there *)
| Regular (c : text)     (* a regular file, the UTF-8 encoding of [c] *)
| Undecodable            (* a regular file whose bytes are not UTF-8 *)
| Directory              (* a directory *)
| Unreachable.           (* the lookup fails *)

Record world : Type := {
  nodes : text -> node;          (* what each path names *)
  stdout : list text;            (* lines printed so far *)
  stderr : list text
}.

(** The text of the regular, decodable file at a path. *)
Definition files (w : world) (p : text) : option text :=
  match nodes w p with
  | Regular c => Some c
  | _ => None
  end.

(** [os.linesep]: a line feed on POSIX, a carriage return and a line feed
    on Windows. *)
Class Platform : Type := {
  linesep : text;
  linesep_known : linesep = [newline] \/ linesep = [cr; newline]
}.

Definition posix : Platform :=
  {| linesep := [newline]; linesep_known := or_introl eq_refl |}.

Definition windows : Platform :=
  {| linesep := [cr; newline]; linesep_known := or_intror eq_refl |}.

(** The exceptions that the calls of the script raise on the worlds
    modelled here.  The [ValueError] of the interpreter's limit on decimal
    conversions is not among them (see [int]). *)
Inductive exn : Type :=
| KeyError (k : text)
| FileNotFoundError (path : text)
| IsADirectoryError (path : text)
| UnicodeDecodeError (path : text)
| OSError (path : text).

Inductive outcome (A : Type) : Type :=
| Ok (a : A)
| Raise (e : exn).
Arguments Ok {A} a.
Arguments Raise {A} e.

Section Py.

Context {U : UnicodeTables} {P : Platform}.

(** [int(s)] on a string of decimal digits: base ten, most significant
    digit first, each digit read by its digit value.  Python integers are
    unbounded; the limit that the interpreter may put on the length of a
    decimal conversion ([sys.set_int_max_str_digits], 4300 digits unless
    configured otherwise) is a resource limit and is not modelled. *)
Definition int (s : text) : N :=
  fold_left (fun a c => 10 * a + decimal_value c)%N s 0%N.

(** [str(n)] for [n >= 0]: the decimal digits, no leading zero. *)
Fixpoint digits_of (fuel : nat) (n : N) (acc : text) : text :=
  match fuel with
  | O => acc
  | S f =>
      let acc' := (48 + n mod 10)%N :: acc in
      if (n / 10 =? 0)%N then acc' else digits_of f (n / 10)%N acc'
  end.

Definition str (n : N) : text := digits_of (S (N.to_nat (N.log2 n))) n [].

(** A [dict] from strings to integers, in insertion order. *)
Definition dict := list (text * N).

Fixpoint dict_get (d : dict) (k : text) : option N :=
  match d with
  | [] => None
  | (k', v) :: d' => if text_eqb k' k then Some v else dict_get d' k
  end.

(** [d[k] = v]: an existing key keeps its place. *)
Fixpoint dict_set (d : dict) (k : text) (v : N) : dict :=
  match d with
  | [] => [(k, v)]
  | (k', v') :: d' =>
      if text_eqb k' k then (k', v) :: d' else (k', v') :: dict_set d' k v
  end.

(** [k in d] *)
Definition dict_mem (d : dict) (k : text) : bool :=
  match dict_get d k with Some _ => true | None => false end.

(** Statements: a state monad over the world, with exceptions. *)
Definition M (A : Type) : Type := world -> outcome A * world.

Definition ret {A} (a : A) : M A := fun w => (Ok a, w).

Definition bind {A B} (c : M A) (k : A -> M B) : M B :=
  fun w =>
    match c w with
    | (Ok a, w') => k a w'
    | (Raise e, w') => (Raise e, w')
    end.

(** [Path.exists()]: true for whatever is there, a directory too; false
    when nothing is there; the error of a lookup that fails otherwise. *)
Definition path_exists (p : text) : M bool :=
  fun w =>
    match nodes w p with
    | Absent => (Ok false, w)
    | Unreachable => (Raise (OSError p), w)
    | Regular _ | Undecodable | Directory => (Ok true, w)
    end.

(** Reading in text mode with the default [newline=None]: universal
    newlines, every [\r\n] and every other [\r] of the file is read as
    [\n]. *)
Fixpoint universal_newlines (s : text) : text :=
  match s with
  | [] => []
  | c :: s' =>
      if (c =? cr)%N then
        newline :: match s' with
                   | [] => []
                   | c' :: s'' =>
                       if (c' =? newline)%N then universal_newlines s''
                       else universal_newlines s'
                   end
      else c :: universal_newlines s'
  end.

(** Writing in text mode with the default [newline=None]: every [\n] is
    written as [os.linesep]. *)
Definition to_linesep (s : text) : text :=
  flat_map (fun c => if (c =? newline)%N then linesep else [c]) s.

(** [Path.read_text(encoding='utf-8')] *)
Definition read_text (p : text) : M text :=
  fun w =>
    match nodes w p with
    | Regular c => (Ok (universal_newlines c), w)
    | Undecodable => (Raise (UnicodeDecodeError p), w)
    | Directory => (Raise (IsADirectoryError p), w)
    | Absent => (Raise (FileNotFoundError p), w)
    | Unreachable => (Raise (OSError p), w)
    end.

(** The file at [p] becomes the regular file with the text [c]. *)
Definition store (w : world) (p c : text) : world :=
  {| nodes := fun q => if text_eqb q p then Regular c else nodes w q;
     stdout := stdout w;
     stderr := stderr w |}.

Definition to_stdout (w : world) (line : text) : world :=
  {| nodes := nodes w; stdout := stdout w ++ [line]; stderr := stderr w |}.

Definition to_stderr (w : world) (line : text) : world :=
  {| nodes := nodes w; stdout := stdout w; stderr := stderr w ++ [line] |}.

(** [Path.write_text(c, encoding='utf-8')] creates the file or replaces
    its contents; a directory cannot be opened for writing. *)
Definition write_text (p c : text) : M unit :=
  fun w =>
    match nodes w p with
    | Directory => (Raise (IsADirectoryError p), w)
    | Unreachable => (Raise (OSError p), w)
    | Absent | Regular _ | Undecodable => (Ok tt, store w p (to_linesep c))
    end.

(** [print(line)] and [print(line, file=sys.stderr)] *)
Definition print (line : text) : M unit := fun w => (Ok tt, to_stdout w line).

Definition eprint (line : text) : M unit := fun w => (Ok tt, to_stderr w line).

(** [d[k]] as an expression. *)
Definition getitem (d : dict) (k : text) : M N :=
  fun w =>
    match dict_get d k with
    | Some v => (Ok v, w)
    | None => (Raise (KeyError k), w)
    end.

(** A [for] loop that threads the variables its body assigns. *)
Fixpoint for_each {A S} (l : list A) (body : S -> A -> M S) (s : S) : M S :=
  match l with
  | [] => ret s
  | a :: l' => bind (body s a) (for_each l' body)
  end.

End Py.

Declare Scope py_scope.
Delimit Scope py_scope with py.
Notation "x <- c ;; k" := (bind c (fun x => k))
  (at level 61, c at next level, right associativity) : py_scope.
Notation "c ;;; k" := (bind c (fun _ => k))
  (at level 61, right associativity) : py_scope.

(** ** The script *)

Section Script.

Context {U : UnicodeTables} {P : Platform}.

Open Scope py_scope.

(** [r'(#define NAME\s+)(\d+)'] *)
Definition field_pattern (name : string) : pattern :=
  [ [Lit (lit "#define " ++ lit name); Plus ClsSpace]; [Plus ClsDigit] ].

(** [(#define NAME\s+Q)([^Q]+)(Q)], where Q stands for the double quote *)
Definition string_pattern (name : string) : pattern :=
  [ [Lit (lit "#define " ++ lit name); Plus ClsSpace; Lit [quote]];
    [Plus ClsNotQuote];
    [Lit [quote]] ].

Definition patterns : list (text * (pattern * text)) :=
  [ (lit "major", (field_pattern "FIRMWARE_VERSION_MAJOR", lit "FIRMWARE_VERSION_MAJOR"));
    (lit "minor", (field_pattern "FIRMWARE_VERSION_MINOR", lit "FIRMWARE_VERSION_MINOR"));
    (lit "patch", (field_pattern "FIRMWARE_VERSION_PATCH", lit "FIRMWARE_VERSION_PATCH"));
    (lit "build", (field_pattern "FIRMWARE_BUILD_NUMBER", lit "FIRMWARE_BUILD_NUMBER")) ].

(** Lines 36-44: one pass of the extraction loop. *)
Definition extract_step (content : text) (versions : dict)
  (entry : text * (pattern * text)) : M dict :=
  let key := fst entry in
  let pattern := fst (snd entry) in
  match re_search pattern content with
  | Some (_, gs) => ret (dict_set versions key (int (group 2 gs)))
  | None =>
      eprint (lit "Warning: Could not find " ++ key ++ lit " version") ;;;
      ret (dict_set versions key 0%N)
  end.

(** Lines 47-56: the increment and the cascading resets, behind the
    membership test of line 47. *)
Definition increment (versions : dict) (increment_type : text) : M dict :=
  v <- getitem versions increment_type ;;
  let versions := dict_set versions increment_type (v + 1)%N in
  if text_eqb increment_type (lit "major") then
    ret (dict_set (dict_set versions (lit "minor") 0%N) (lit "patch") 0%N)
  else if text_eqb increment_type (lit "minor") then
    ret (dict_set versions (lit "patch") 0%N)
  else ret versions.

(** Lines 61-63: one pass of the rewriting loop; the template is
    [\g<1>] followed by the digits of the new value. *)
Definition update_step (versions : dict) (content : text)
  (entry : text * (pattern * text)) : M text :=
  let key := fst entry in
  let pattern := fst (snd entry) in
  v <- getitem versions key ;;
  ret (re_sub pattern [TGroup 1; TText (str v)] content).

(** Line 66 *)
Definition version_string_of (versions : dict) : M text :=
  major <- getitem versions (lit "major") ;;
  minor <- getitem versions (lit "minor") ;;
  patch <- getitem versions (lit "patch") ;;
  build <- getitem versions (lit "build") ;;
  ret (str major ++ lit "." ++ str minor ++ lit "." ++ str patch ++ lit "-" ++ str build).

Definition increment_version (version_file increment_type : text) : M bool :=
  found <- path_exists version_file ;;
  if negb found then
    eprint (lit "Error: " ++ version_file ++ lit " not found") ;;;
    ret false
  else
    content <- read_text version_file ;;
    versions <- for_each patterns (extract_step content) [] ;;
    if dict_mem versions increment_type then
      versions <- increment versions increment_type ;;
      content <- for_each patterns (update_step versions) content ;;
      version_string <- version_string_of versions ;;
      let content :=
        re_sub (string_pattern "FIRMWARE_VERSION_STRING")
               [TGroup 1; TText version_string; TGroup 3] content in
      let full_version := lit "ESP32 RTP Transciever v" ++ version_string in
      let content :=
        re_sub (string_pattern "FIRMWARE_VERSION_FULL")
               [TGroup 1; TText full_version; TGroup 3] content in
      write_text version_file content ;;;
      print (lit "Version incremented: " ++ increment_type ++ lit " -> "
             ++ version_string) ;;;
      ret true
    else
      eprint (lit "Error: Unknown increment type '" ++ increment_type ++ lit "'") ;;;
      ret false.

(** Lines 86-97: the command line.  The result is the exit status of the
    process; an exception that nobody catches ends it with status 1 and a
    traceback on the error stream. *)
Definition main (argv : list text) (w : world) : N * world :=
  let increment_type :=
    if (2 <? List.length argv)%nat then nth 2 argv [] else lit "build" in
  let version_file :=
    if (1 <? List.length argv)%nat then nth 1 argv [] else lit "version.h" in
  match increment_version version_file increment_type w with
  | (Ok success, w') => ((if success then 0 else 1)%N, w')
  | (Raise e, w') =>
      (1%N, to_stderr w' (lit "Traceback (most recent call last):"))
  end.

End Script.

(** ** Notions the statements use *)

(** To follow single characters through the substitutions, every character
    carries a mark: set on the characters of the input that a payload span
    covers and on every character a substitution writes. *)
Definition mtext := list (char * bool).

Definition erase (t : mtext) : text := map fst t.

Definition marked (t : mtext) : Prop := Forall (fun x => snd x = true) t.

Definition fresh (v : text) : mtext := map (fun c => (c, true)) v.

(** An occurrence of a pattern at the head of a text: group 1, the payload
    (group 2), group 3 (empty for the integer patterns) and the rest. *)
Definition occurrence := (text * text * text * text)%type.
Definition matcher := text -> option occurrence.

(** The frame property: the output is the input where runs of marked
    characters may have been replaced, and nothing else has changed. *)
Inductive frame : mtext -> text -> Prop :=
| frame_nil : frame [] []
| frame_keep c b t s : frame t s -> frame ((c, b) :: t) (c :: s)
| frame_span o n t s :
    o <> [] -> marked o -> frame t s -> frame (o ++ t) (n ++ s).

(** A character of a label after its first: ASCII, and neither [#], nor a
    double quote, nor a digit. *)
Definition plain_char (c : char) : bool :=
  (c <? 128)%N && negb (c =? hash)%N && negb (c =? quote)%N
  && negb (ascii_isdecimal c).

Definition is_label (L : text) : bool :=
  match L with
  | c :: L' => (c =? hash)%N && forallb plain_char L'
  | [] => false
  end.

(** Two labels that differ at some position of both. *)
Fixpoint clash (a b : text) : bool :=
  match a, b with
  | x :: a', y :: b' => negb (x =? y)%N || clash a' b'
  | _, _ => false
  end.

(** [c] does not occur in [t]; [t] is empty or begins with [c]. *)
Definition free (c : char) (t : mtext) : Prop := ~ In c (erase t).

Definition stop (c : char) (t : mtext) : Prop :=
  match t with [] => True | x :: _ => fst x = c end.

(** [#] and the double quote: no pattern has them inside its first group
    (after the leading [#]) or among white space and digits. *)
Definition separator (c : char) : Prop := c = hash \/ c = quote.

(** Whether [d] occurs in [s] as a block of consecutive characters. *)
Fixpoint is_infix (d s : text) : bool :=
  match strip_prefix d s with
  | Some _ => true
  | None => match s with [] => false | _ :: s' => is_infix d s' end
  end.

Section Notions.

Context {U : UnicodeTables}.

(** The head of [r], if any, is outside the class. *)
Definition stops (k : cclass) (r : text) : Prop :=
  match r with [] => True | c :: _ => in_class k c = false end.

Definition all_in (k : cclass) (x : text) : Prop :=
  Forall (fun c => in_class k c = true) x.

(** The deterministic reading of the two shapes of pattern: the literal,
    the longest run of white space, then the longest run of digits (or of
    characters up to the closing quote).  [match_field_eq] and
    [match_string_eq] show that backtracking adds nothing. *)
Definition match_field (L s : text) : option (list text * text) :=
  match strip_prefix L s with
  | None => None
  | Some s1 =>
      let n := run ClsSpace s1 in
      let s2 := skipn n s1 in
      let m := run ClsDigit s2 in
      match n, m with
      | S _, S _ => Some ([L ++ firstn n s1; firstn m s2], skipn m s2)
      | _, _ => None
      end
  end.

Definition match_string (L s : text) : option (list text * text) :=
  match strip_prefix L s with
  | None => None
  | Some s1 =>
      let n := run ClsSpace s1 in
      match strip_prefix [quote] (skipn n s1) with
      | None => None
      | Some s2 =>
          let m := run ClsNotQuote s2 in
          match strip_prefix [quote] (skipn m s2) with
          | None => None
          | Some s3 =>
              match n, m with
              | S _, S _ =>
                  Some ([L ++ firstn n s1 ++ [quote]; firstn m s2; [quote]], s3)
              | _, _ => None
              end
          end
      end
  end.

(** [s] begins with a declaration of an integer: the label [L], white
    space [ws], the digits [d], and then [r], which does not go on with a
    digit. *)
Definition field_at (L s ws d r : text) : Prop :=
  s = L ++ ws ++ d ++ r /\
  ws <> [] /\ all_in ClsSpace ws /\
  d <> [] /\ all_in ClsDigit d /\ stops ClsDigit r.

(** [s] begins with a declaration of a string: the label, white space, and
    the non-empty payload [P] between two double quotes. *)
Definition string_at (L s ws P r : text) : Prop :=
  s = L ++ ws ++ quote :: P ++ quote :: r /\
  ws <> [] /\ all_in ClsSpace ws /\
  P <> [] /\ all_in ClsNotQuote P.

(** The two substitutions of the script. *)
Definition field_sub (L v : text) : text -> text :=
  re_sub [[Lit L; Plus ClsSpace]; [Plus ClsDigit]] [TGroup 1; TText v].

Definition string_sub (L v : text) : text -> text :=
  re_sub [[Lit L; Plus ClsSpace; Lit [quote]]; [Plus ClsNotQuote]; [Lit [quote]]]
         [TGroup 1; TText v; TGroup 3].

(** The versions dictionary with its four keys, in the order of [patterns]. *)
Definition record (major minor patch build : N) : dict :=
  [ (lit "major", major); (lit "minor", minor);
    (lit "patch", patch); (lit "build", build) ].

(** What lines 39-44 assign for one pattern. *)
Definition field_value (content : text) (name : string) : N :=
  match re_search (field_pattern name) content with
  | Some (_, gs) => int (group 2 gs)
  | None => 0%N
  end.

Definition parse (content : text) : dict :=
  record (field_value content "FIRMWARE_VERSION_MAJOR")
         (field_value content "FIRMWARE_VERSION_MINOR")
         (field_value content "FIRMWARE_VERSION_PATCH")
         (field_value content "FIRMWARE_BUILD_NUMBER").

(** The warning lines of the extraction loop, in order. *)
Definition warnings (content : text) : list text :=
  flat_map (fun entry : text * (pattern * text) =>
              match re_search (fst (snd entry)) content with
              | Some _ => []
              | None => [lit "Warning: Could not find " ++ fst entry ++ lit " version"]
              end) patterns.

Definition kinds : list text := [lit "major"; lit "minor"; lit "patch"; lit "build"].

Definition lookup (versions : dict) (key : string) : N :=
  match dict_get versions (lit key) with Some v => v | None => 0%N end.

(** Lines 47-56 as a function on dictionaries. *)
Definition bump (increment_type : text) (versions : dict) : dict :=
  match dict_get versions increment_type with
  | None => versions
  | Some v =>
      let versions := dict_set versions increment_type (v + 1)%N in
      if text_eqb increment_type (lit "major") then
        dict_set (dict_set versions (lit "minor") 0%N) (lit "patch") 0%N
      else if text_eqb increment_type (lit "minor") then
        dict_set versions (lit "patch") 0%N
      else versions
  end.

(** Line 66 and line 73 *)
Definition version_text (versions : dict) : text :=
  str (lookup versions "major") ++ lit "." ++ str (lookup versions "minor") ++
  lit "." ++ str (lookup versions "patch") ++ lit "-" ++ str (lookup versions "build").

Definition full_text (versions : dict) : text :=
  lit "ESP32 RTP Transciever v" ++ version_text versions.

Definition label (name : string) : text := lit "#define " ++ lit name.

(** Lines 61-63: the four integers, in the order of [patterns]. *)
Definition update_fields (versions : dict) (content : text) : text :=
  field_sub (label "FIRMWARE_BUILD_NUMBER") (str (lookup versions "build"))
   (field_sub (label "FIRMWARE_VERSION_PATCH") (str (lookup versions "patch"))
    (field_sub (label "FIRMWARE_VERSION_MINOR") (str (lookup versions "minor"))
     (field_sub (label "FIRMWARE_VERSION_MAJOR") (str (lookup versions "major"))
        content))).

(** Lines 61-78: the text that is written back. *)
Definition new_content (versions : dict) (content : text) : text :=
  string_sub (label "FIRMWARE_VERSION_FULL") (full_text versions)
   (string_sub (label "FIRMWARE_VERSION_STRING") (version_text versions)
     (update_fields versions content)).

Definition field_occ (L : text) : matcher := fun s =>
  match match_field L s with
  | Some (gs, r) => Some (group 1 gs, group 2 gs, [], r)
  | None => None
  end.

Definition string_occ (L : text) : matcher := fun s =>
  match match_string L s with
  | Some (gs, r) => Some (group 1 gs, group 2 gs, group 3 gs, r)
  | None => None
  end.

(** The scan of [re.sub] on marked text: the characters it copies keep
    their marks, the replacement [v] of a payload is marked. *)
Inductive msub (m : matcher) (v : text) : mtext -> mtext -> Prop :=
| msub_nil : msub m v [] []
| msub_copy x t t' :
    m (erase (x :: t)) = None -> msub m v t t' -> msub m v (x :: t) (x :: t')
| msub_match G1 P G3 r r' :
    m (erase (G1 ++ P ++ G3 ++ r)) = Some (erase G1, erase P, erase G3, erase r) ->
    msub m v r r' ->
    msub m v (G1 ++ P ++ G3 ++ r) (G1 ++ fresh v ++ G3 ++ r').

(** The pattern occurs somewhere in [t], with these marked groups. *)
Definition occurs (m : matcher) (t G1 P G3 : mtext) : Prop :=
  exists pre r,
    t = pre ++ G1 ++ P ++ G3 ++ r /\
    m (erase (G1 ++ P ++ G3 ++ r)) = Some (erase G1, erase P, erase G3, erase r).

(** Every payload of the pattern in [t] is marked. *)
Definition covered (m : matcher) (t : mtext) : Prop :=
  forall G1 P G3, occurs m t G1 P G3 -> marked P.

(** What is left of a marked text when every maximal run of marked
    characters shrinks to one hole. *)
Fixpoint collapse (t : mtext) : list (option char) :=
  match t with
  | [] => []
  | (c, false) :: t' => Some c :: collapse t'
  | (_, true) :: t' =>
      match collapse t' with
      | None :: k => None :: k
      | k => None :: k
      end
  end.

(** A matcher consumes what it reports, and at least one character. *)
Definition sound (m : matcher) : Prop :=
  forall s g1 P g3 r,
    m s = Some (g1, P, g3, r) -> s = g1 ++ P ++ g3 ++ r /\ g1 <> [] /\ P <> [].

Definition hole (k : list (option char)) : list (option char) :=
  match k with
  | None :: k' => None :: k'
  | _ => None :: k
  end.

Definition hash_headed (m : matcher) : Prop :=
  forall s o, m s = Some o -> exists s', s = hash :: s'.

(** [q] never matches where group 1 of [m] stands. *)
Definition apart (m q : matcher) : Prop :=
  forall s g1 P g3 r z, m s = Some (g1, P, g3, r) -> q (g1 ++ z) = None.

(** What a scan for [m] writes in place of an occurrence has its only [#]
    in front. *)
Definition tidy (m : matcher) (v : text) : Prop :=
  forall G1 P G3 r,
    m (erase (G1 ++ P ++ G3 ++ r)) = Some (erase G1, erase P, erase G3, erase r) ->
    free hash (tl (G1 ++ fresh v ++ G3)).

(** The six patterns whose payload the script rewrites. *)
Definition rewritten_patterns : list pattern :=
  map (fun entry : text * (pattern * text) => fst (snd entry)) patterns ++
  [ string_pattern "FIRMWARE_VERSION_STRING";
    string_pattern "FIRMWARE_VERSION_FULL" ].

(** Position [j] of [s] lies in group 2 of a match of [p] that begins at
    position [i]. *)
Definition in_span (p : pattern) (s : text) (i j : nat) : bool :=
  match match_groups p (skipn i s) with
  | Some (gs, _) =>
      (i + List.length (group 1 gs) <=? j)%nat &&
      (j <? i + List.length (group 1 gs) + List.length (group 2 gs))%nat
  | None => false
  end.

(** Position [j] of [s] lies in the payload of some match of one of the
    six patterns, wherever the match begins. *)
Definition in_payload (s : text) (j : nat) : bool :=
  existsb (fun p => existsb (fun i => in_span p s i j) (seq 0 (S j)))
          rewritten_patterns.

Definition payload_mask (s : text) : list bool :=
  map (in_payload s) (seq 0 (List.length s)).

(** The input with the characters of its payload spans marked. *)
Definition mark (s : text) : mtext := combine s (payload_mask s).

(** The payloads of [m] in [t] hold no [#]. *)
Definition clean (m : matcher) (t : mtext) : Prop :=
  forall G1 P G3, occurs m t G1 P G3 -> free hash P.

(** The pattern [p] matches somewhere in [s], with groups [gs]. *)
Definition occurs_in (p : pattern) (s : text) (gs : list text) : Prop :=
  exists pre suf r, s = pre ++ suf /\ match_groups p suf = Some (gs, r).

(** The keys of [versions] and the names of their macros. *)
Definition fields : list (string * string) :=
  [ ("major", "FIRMWARE_VERSION_MAJOR"); ("minor", "FIRMWARE_VERSION_MINOR");
    ("patch", "FIRMWARE_VERSION_PATCH"); ("build", "FIRMWARE_BUILD_NUMBER") ]%string.

(** The six scans of lines 61-78 on marked text. *)
Definition trace (versions : dict) (t0 t1 t2 t3 t4 t5 t6 : mtext) : Prop :=
  msub (field_occ (label "FIRMWARE_VERSION_MAJOR")) (str (lookup versions "major")) t0 t1 /\
  msub (field_occ (label "FIRMWARE_VERSION_MINOR")) (str (lookup versions "minor")) t1 t2 /\
  msub (field_occ (label "FIRMWARE_VERSION_PATCH")) (str (lookup versions "patch")) t2 t3 /\
  msub (field_occ (label "FIRMWARE_BUILD_NUMBER")) (str (lookup versions "build")) t3 t4 /\
  msub (string_occ (label "FIRMWARE_VERSION_STRING")) (version_text versions) t4 t5 /\
  msub (string_occ (label "FIRMWARE_VERSION_FULL")) (full_text versions) t5 t6.

(** The payloads of all matches of [p] in [s], wherever they begin. *)
Definition payloads (p : pattern) (s : text) : list text :=
  flat_map (fun i => match match_groups p (skipn i s) with
                     | Some (gs, _) => [group 2 gs]
                     | None => []
                     end)
           (seq 0 (S (List.length s))).

(** A header is well formed when each of the four integers is declared
    somewhere and no quoted payload of the two string declarations holds a
    [#]: no declaration hides inside a version string. *)
Definition well_formed (content : text) : bool :=
  forallb (fun entry : text * (pattern * text) =>
             match re_search (fst (snd entry)) content with
             | Some _ => true
             | None => false
             end) patterns
  && forallb (fun P => negb (existsb (N.eqb hash) P))
       (payloads (string_pattern "FIRMWARE_VERSION_STRING") content ++
        payloads (string_pattern "FIRMWARE_VERSION_FULL") content).

(** A declaration of a string whose payload is empty: the label, white
    space and two double quotes. *)
Definition empty_decl (name : string) (ws : text) : text :=
  label name ++ ws ++ [quote; quote].

(** No position of the block of [n] characters that begins at [i] lies in a
    payload span of [s]. *)
Definition outside_payloads (s : text) (i n : nat) : bool :=
  forallb (fun j => negb (in_payload s j)) (seq i n).

End Notions.

(** ** Lines of output and sample headers *)

(** The lines the script prints. *)
Definition unknown_type_line (k : text) : text :=
  lit "Error: Unknown increment type '" ++ k ++ lit "'".

Definition not_found_line (path : text) : text :=
  lit "Error: " ++ path ++ lit " not found".

Definition warning_line (key : text) : text :=
  lit "Warning: Could not find " ++ key ++ lit " version".

Definition success_line (k version_string : text) : text :=
  lit "Version incremented: " ++ k ++ lit " -> " ++ version_string.

(** A header of the usual shape, at version 1.2.3-9, and a file system
    that holds it as [version.h]. *)
Definition example_header : text :=
  lit "#pragma once" ++ [newline] ++
  lit "#define FIRMWARE_VERSION_MAJOR 1" ++ [newline] ++
  lit "#define FIRMWARE_VERSION_MINOR 2" ++ [newline] ++
  lit "#define FIRMWARE_VERSION_PATCH 3" ++ [newline] ++
  lit "#define FIRMWARE_BUILD_NUMBER 9" ++ [newline] ++
  lit "#define FIRMWARE_VERSION_STRING " ++ [quote] ++ lit "1.2.3-9" ++ [quote; newline] ++
  lit "#define FIRMWARE_VERSION_FULL " ++ [quote] ++
  lit "ESP32 RTP Transciever v1.2.3-9" ++ [quote; newline].

Definition holding (path content : text) : world :=
  {| nodes := fun q => if text_eqb q path then Regular content else Absent;
     stdout := [];
     stderr := [] |}.

Definition example_world : world := holding (lit "version.h") example_header.

(** A header without a declaration of the patch level. *)
Definition partial_header : text :=
  lit "#define FIRMWARE_VERSION_MAJOR 4" ++ [newline] ++
  lit "#define FIRMWARE_VERSION_MINOR 0" ++ [newline] ++
  lit "#define FIRMWARE_BUILD_NUMBER 17" ++ [newline].

(** A header that declares the major version twice. *)
Definition double_header : text :=
  lit "#define FIRMWARE_VERSION_MAJOR 1" ++ [newline] ++
  lit "#define FIRMWARE_VERSION_MAJOR 7" ++ [newline].

(** A header whose version string is empty. *)
Definition empty_string_header : text :=
  lit "#define FIRMWARE_BUILD_NUMBER 9" ++ [newline] ++
  lit "#define FIRMWARE_VERSION_STRING " ++ [quote; quote; newline].

(** A header with the line endings of Windows. *)
Definition crlf_header : text :=
  lit "#define FIRMWARE_BUILD_NUMBER 9" ++ [cr; newline].

(** A declaration with an empty payload and a carriage return between the
    label and the quotes. *)
Definition cr_header : text :=
  lit "#define FIRMWARE_VERSION_STRING" ++ [cr; quote; quote].

(** A declaration of the version string with an empty payload that stands
    inside the quoted payload of the declaration of the full version. *)
Definition nested_header : text :=
  lit "#define FIRMWARE_VERSION_FULL " ++ [quote] ++ lit "a " ++
  lit "#define FIRMWARE_VERSION_STRING " ++ [quote; quote].

(** A header whose only declaration of the major version stands inside
    the version string. *)
Definition hidden_header : text :=
  lit "#define FIRMWARE_VERSION_STRING " ++ [quote] ++
  lit "#define FIRMWARE_VERSION_MAJOR 5" ++ [quote; newline] ++
  lit "#define FIRMWARE_VERSION_MINOR 0" ++ [newline] ++
  lit "#define FIRMWARE_VERSION_PATCH 0" ++ [newline] ++
  lit "#define FIRMWARE_BUILD_NUMBER 0" ++ [newline].

(** ** Further notions and samples *)

(** A file without any of the declarations. *)
Definition plain_header : text :=
  lit "/* nothing to see */" ++ [newline].

(** A header whose build number is padded with zeros. *)
Definition padded_header : text :=
  lit "#define FIRMWARE_BUILD_NUMBER 0041" ++ [newline].

Section MoreNotions.

Context {U : UnicodeTables}.

(** [re.search] finds every one of the four integer patterns. *)
Definition all_found (content : text) : bool :=
  forallb (fun entry : text * (pattern * text) =>
             match re_search (fst (snd entry)) content with
             | Some _ => true
             | None => false
             end) patterns.

(** None of the six patterns matches anywhere. *)
Definition none_found (content : text) : bool :=
  forallb (fun p => match re_search p content with
                    | Some _ => false
                    | None => true
                    end) rewritten_patterns.

End MoreNotions.

Section Runs.

Context {U : UnicodeTables} {P : Platform}.

(** The script run once for each increment type of a list, in order, on
    the same file. *)
Fixpoint run_all (path : text) (ks : list text) (w : world) : world :=
  match ks with
  | [] => w
  | k :: ks' => run_all path ks' (snd (increment_version path k w))
  end.

End Runs.

(** The order of versions: by major, then minor, then patch, then build. *)
Definition version_before (x y : N * N * N * N) : Prop :=
  let '(a, b, c, d) := x in
  let '(a', b', c', d') := y in
  (a < a' \/ a = a' /\ (b < b' \/ b = b' /\ (c < c' \/ c = c' /\ d < d')))%N.

Section Outcomes.

Context {U : UnicodeTables} {P : Platform}.

(** The world that a successful run leaves: the warnings of the
    extraction on the error stream, the file replaced by the rewriting
    of [content] with the values [versions], and the report on the
    standard output. *)
Definition written (w : world) (path content k : text) (versions : dict) : world :=
  to_stdout
    (store (fold_left to_stderr (warnings content) w) path
           (to_linesep (new_content versions content)))
    (success_line k (version_text versions)).

(** Every declaration of an integer in [content] holds the digits of the
    value given for it. *)
Definition declares (content : text) (major minor patch build : N) : Prop :=
  (forall gs, occurs_in (field_pattern "FIRMWARE_VERSION_MAJOR") content gs ->
              group 2 gs = str major) /\
  (forall gs, occurs_in (field_pattern "FIRMWARE_VERSION_MINOR") content gs ->
              group 2 gs = str minor) /\
  (forall gs, occurs_in (field_pattern "FIRMWARE_VERSION_PATCH") content gs ->
              group 2 gs = str patch) /\
  (forall gs, occurs_in (field_pattern "FIRMWARE_BUILD_NUMBER") content gs ->
              group 2 gs = str build).

End Outcomes.

(** A file system with the sample header, a directory [include] and a
    path under a directory that may not be searched. *)
Definition cluttered_world : world :=
  {| nodes := fun q =>
       if text_eqb q (lit "version.h") then Regular example_header
       else if text_eqb q (lit "include") then Directory
       else if text_eqb q (lit "locked/version.h") then Unreachable
       else if text_eqb q (lit "logo.png") then Undecodable
       else Absent;
     stdout := [];
     stderr := [] |}.

(** The first line of the traceback that an uncaught exception prints. *)
Definition traceback_line : text := lit "Traceback (most recent call last):".

(** * Theory *)

(** ** The two character tables *)

Lemma ascii_space_not_decimal c :
  ascii_isspace c = true -> ascii_isdecimal c = false.
Proof.
  unfold ascii_isspace, ascii_isdecimal.
  repeat match goal with
         | |- context [N.leb ?a ?b] => destruct (N.leb_spec a b)
         end; simpl; try reflexivity; try discriminate; lia.
Qed.

Definition ascii_tables : UnicodeTables := {|
  isspace := ascii_isspace;
  isdecimal := ascii_isdecimal;
  decimal_value := ascii_decimal_value;
  isspace_ascii := fun c _ => eq_refl;
  isdecimal_ascii := fun c _ => eq_refl;
  space_not_decimal := ascii_space_not_decimal;
  decimal_value_ascii := fun c _ => eq_refl
|}.

Lemma in_ranges_above rs c b :
  forallb (fun r => b <=? fst r)%N rs = true -> (c < b)%N ->
  in_ranges rs c = false.
Proof.
  intros H Hc. induction rs as [|r rs IH]; simpl in *; [reflexivity|].
  apply andb_prop in H as [H1 H2]. rewrite IH by assumption.
  apply N.leb_le in H1.
  destruct (N.leb_spec (fst r) c); [lia|reflexivity].
Qed.

Lemma in_ranges_apart r1 r2 c :
  ranges_apart r1 r2 = true -> in_ranges r1 c = true -> in_ranges r2 c = false.
Proof.
  unfold ranges_apart, in_ranges. intros H H1.
  apply existsb_exists in H1 as (a & Ha & Hc).
  rewrite forallb_forall in H. specialize (H a Ha).
  rewrite forallb_forall in H.
  destruct (existsb _ r2) eqn:E; [|reflexivity].
  apply existsb_exists in E as (b & Hb & Hc').
  specialize (H b Hb).
  apply andb_prop in Hc as [? ?]. apply andb_prop in Hc' as [? ?].
  apply orb_prop in H as [H|H]; apply N.ltb_lt in H;
    repeat match goal with X : (_ <=? _)%N = true |- _ => apply N.leb_le in X end;
    lia.
Qed.

Lemma py_isspace_ascii c : (c < 128)%N -> py_isspace c = ascii_isspace c.
Proof.
  intros Hc. unfold py_isspace, ascii_isspace.
  change py_space_ranges
    with ([(9, 13); (28, 32)]%N ++ skipn 2 py_space_ranges).
  unfold in_ranges. rewrite existsb_app.
  fold (in_ranges (skipn 2 py_space_ranges) c).
  rewrite (in_ranges_above _ c 128) by (reflexivity || assumption).
  simpl. now rewrite !orb_false_r.
Qed.

Lemma py_isdecimal_ascii c : (c < 128)%N -> py_isdecimal c = ascii_isdecimal c.
Proof.
  intros Hc. unfold py_isdecimal, ascii_isdecimal.
  change py_decimal_ranges with ([(48, 57)]%N ++ skipn 1 py_decimal_ranges).
  unfold in_ranges. rewrite existsb_app.
  fold (in_ranges (skipn 1 py_decimal_ranges) c).
  rewrite (in_ranges_above _ c 128) by (reflexivity || assumption).
  simpl. now rewrite !orb_false_r.
Qed.

Lemma py_decimal_value_ascii c :
  ascii_isdecimal c = true -> py_decimal_value c = (c - 48)%N.
Proof.
  intros H. unfold py_decimal_value.
  change py_decimal_ranges with ((48, 57)%N :: skipn 1 py_decimal_ranges).
  cbn [find fst snd]. unfold ascii_isdecimal in H. now rewrite H.
Qed.

(** The tables of CPython with Unicode 15. *)
Definition python_tables : UnicodeTables := {|
  isspace := py_isspace;
  isdecimal := py_isdecimal;
  decimal_value := py_decimal_value;
  isspace_ascii := py_isspace_ascii;
  isdecimal_ascii := py_isdecimal_ascii;
  space_not_decimal :=
    fun c => in_ranges_apart py_space_ranges py_decimal_ranges c eq_refl;
  decimal_value_ascii := py_decimal_value_ascii
|}.

(** ** Matching: the patterns of the script are deterministic *)

Section Matching.
Context {U : UnicodeTables}.

Lemma text_eqb_refl a : text_eqb a a = true.
Proof. induction a as [|x a IH]; simpl; [reflexivity|]. now rewrite N.eqb_refl. Qed.

Lemma text_eqb_eq a b : text_eqb a b = true <-> a = b.
Proof.
  split; [|intros ->; apply text_eqb_refl].
  revert b; induction a as [|x a IH]; intros [|y b]; simpl; try discriminate; auto.
  intros H; apply andb_prop in H as [H1 H2].
  apply N.eqb_eq in H1; subst; f_equal; auto.
Qed.

Lemma strip_prefix_app l s : strip_prefix l (l ++ s) = Some s.
Proof. induction l as [|x l IH]; simpl; [reflexivity|]. now rewrite N.eqb_refl. Qed.

Lemma strip_prefix_Some l s r : strip_prefix l s = Some r -> s = l ++ r.
Proof.
  revert s; induction l as [|x l IH]; intros s; simpl.
  - now intros [= ->].
  - destruct s as [|y s]; [discriminate|].
    destruct (N.eqb_spec x y); [|discriminate].
    intros H; apply IH in H; subst; reflexivity.
Qed.

Lemma run_app k x r : all_in k x -> stops k r -> run k (x ++ r) = List.length x.
Proof.
  induction 1 as [|c x Hc _ IH]; intros Hr; simpl.
  - destruct r; simpl in *; [reflexivity|]. now rewrite Hr.
  - rewrite Hc; f_equal; auto.
Qed.

Lemma run_firstn k s : all_in k (firstn (run k s) s).
Proof.
  induction s as [|c s IH]; simpl; [constructor|].
  destruct (in_class k c) eqn:E; simpl; constructor; auto.
Qed.

Lemma run_skipn k s : stops k (skipn (run k s) s).
Proof.
  induction s as [|c s IH]; simpl; [exact I|].
  destruct (in_class k c) eqn:E; simpl; auto.
Qed.

Lemma run_stops k s : stops k s -> run k s = 0%nat.
Proof. destruct s; simpl; [reflexivity|]. now intros ->. Qed.

Lemma skipn_in_run k s j : (j < run k s)%nat -> exists c r, skipn j s = c :: r /\ in_class k c = true.
Proof.
  revert j; induction s as [|c s IH]; simpl; intros j Hj; [lia|].
  destruct (in_class k c) eqn:E; [|lia].
  destruct j; simpl; eauto. apply IH; lia.
Qed.

Lemma backtrack_greedy R (k : text -> option R) n s :
  (forall j, (0 < j < n)%nat -> k (skipn j s) = None) ->
  backtrack k n s =
  match n with O => None | S _ => option_map (pair n) (k (skipn n s)) end.
Proof.
  induction n as [|n IH]; intros H; [reflexivity|].
  cbn [backtrack]. destruct (k (skipn (S n) s)) eqn:E; [reflexivity|].
  rewrite IH by (intros; apply H; lia).
  destruct n; [reflexivity|]. rewrite H by lia. reflexivity.
Qed.


Lemma firstn_app_exact (l : text) s n : firstn (List.length l + n) (l ++ s) = l ++ firstn n s.
Proof. induction l; simpl; [reflexivity|]. now f_equal. Qed.


Lemma match_groups_cons g p s :
  match_groups (g :: p) s =
  option_map (fun ngr => (firstn (fst ngr) s :: fst (snd ngr), snd (snd ngr)))
             (match_seq g (match_groups p) s).
Proof. reflexivity. Qed.

Lemma match_seq_nil R (k : text -> option R) s :
  match_seq [] k s = option_map (pair O) (k s).
Proof. reflexivity. Qed.

Lemma match_seq_lit R (k : text -> option R) l p s :
  match_seq (Lit l :: p) k (l ++ s) =
  option_map (fun nr => (List.length l + fst nr, snd nr))%nat (match_seq p k s).
Proof. cbn [match_seq]. now rewrite strip_prefix_app. Qed.

Lemma match_seq_lit_None R (k : text -> option R) l p s :
  strip_prefix l s = None -> match_seq (Lit l :: p) k s = None.
Proof. cbn [match_seq]. now intros ->. Qed.

(** A greedy [+] whose continuation fails wherever the class goes on takes
    the whole run: backtracking cannot help. *)
Lemma match_seq_plus R (k : text -> option R) c p s :
  (forall x r, in_class c x = true -> match_seq p k (x :: r) = None) ->
  match_seq (Plus c :: p) k s =
  match run c s with
  | O => None
  | S _ => option_map (fun nr => (run c s + fst nr, snd nr))%nat
                      (match_seq p k (skipn (run c s) s))
  end.
Proof.
  intros H. cbn [match_seq]. rewrite backtrack_greedy.
  - destruct (run c s); [reflexivity|].
    now destruct (match_seq p k _) as [[]|].
  - intros j Hj. destruct (skipn_in_run c s j) as (x & r & E & Hx); [lia|].
    rewrite E. auto.
Qed.

(** The same at the end of a group, where the continuation decides. *)
Lemma match_seq_plus_last R (k : text -> option R) c s :
  (forall x r, in_class c x = true -> k (x :: r) = None) ->
  match_seq [Plus c] k s =
  match run c s with
  | O => None
  | S _ => option_map (pair (run c s)) (k (skipn (run c s) s))
  end.
Proof.
  intros H. rewrite match_seq_plus.
  - destruct (run c s); [reflexivity|]. rewrite match_seq_nil.
    destruct (k _); [|reflexivity]. cbn. now rewrite Nat.add_0_r.
  - intros x r Hx. rewrite match_seq_nil, H; auto.
Qed.

Lemma match_digits s :
  match_groups [[Plus ClsDigit]] s =
  match run ClsDigit s with
  | O => None
  | S _ => Some ([firstn (run ClsDigit s) s], skipn (run ClsDigit s) s)
  end.
Proof.
  rewrite match_groups_cons. cbn [match_seq backtrack match_groups].
  destruct (run ClsDigit s) as [|n]; [reflexivity|].
  cbn. now rewrite Nat.add_0_r.
Qed.

Lemma match_field_eq L s :
  match_groups [[Lit L; Plus ClsSpace]; [Plus ClsDigit]] s = match_field L s.
Proof.
  unfold match_field. rewrite match_groups_cons.
  destruct (strip_prefix L s) as [s1|] eqn:EL;
    [|now rewrite match_seq_lit_None].
  apply strip_prefix_Some in EL; subst s.
  rewrite match_seq_lit, match_seq_plus_last.
  - destruct (run ClsSpace s1) as [|n] eqn:En; [reflexivity|].
    rewrite match_digits.
    destruct (run ClsDigit (skipn (S n) s1)) as [|m] eqn:Em; [reflexivity|].
    cbn. rewrite firstn_app_exact. reflexivity.
  - intros x r Hx. rewrite match_digits. cbn [run in_class].
    simpl in Hx. now rewrite (space_not_decimal _ Hx).
Qed.

Lemma firstn_snoc (s : text) n c r :
  skipn n s = c :: r -> firstn (n + 1) s = firstn n s ++ [c].
Proof.
  revert s; induction n as [|n IH]; intros [|x s]; simpl; try discriminate.
  - now intros [= -> _].
  - intros H. f_equal. auto.
Qed.

Lemma quote_not_space : isspace quote = false.
Proof. now rewrite isspace_ascii. Qed.

Lemma strip_quote s :
  strip_prefix [quote] s =
  match s with
  | c :: r => if N.eqb c quote then Some r else None
  | [] => None
  end.
Proof. destruct s as [|c r]; [reflexivity|]. cbn. now rewrite N.eqb_sym. Qed.

Lemma match_string_eq L s :
  match_groups [[Lit L; Plus ClsSpace; Lit [quote]]; [Plus ClsNotQuote]; [Lit [quote]]] s
  = match_string L s.
Proof.
  unfold match_string. rewrite match_groups_cons.
  destruct (strip_prefix L s) as [s1|] eqn:EL;
    [|now rewrite match_seq_lit_None].
  apply strip_prefix_Some in EL; subst s.
  rewrite match_seq_lit, match_seq_plus.
  2:{ intros x r Hx. cbn [match_seq strip_prefix].
      destruct (N.eqb_spec quote x); [|reflexivity].
      subst x. simpl in Hx. now rewrite quote_not_space in Hx. }
  rewrite strip_quote.
  destruct (run ClsSpace s1) as [|n] eqn:En.
  { destruct (skipn 0 s1) as [|c s2]; [reflexivity|].
    destruct (N.eqb c quote); [|reflexivity].
    destruct (strip_prefix _ _); reflexivity. }
  destruct (skipn (S n) s1) as [|c s2] eqn:E2; [reflexivity|].
  destruct (N.eqb_spec c quote) as [->|Hc].
  2:{ cbn [match_seq strip_prefix].
      destruct (N.eqb_spec quote c); [congruence|reflexivity]. }
  change (quote :: s2) with ([quote] ++ s2).
  rewrite match_seq_lit, match_seq_nil, match_groups_cons, match_seq_plus_last.
  2:{ intros x r Hx. cbn [match_groups match_seq strip_prefix].
      simpl in Hx. rewrite N.eqb_sym. now destruct (N.eqb x quote). }
  rewrite strip_quote.
  destruct (run ClsNotQuote s2) as [|m] eqn:Em.
  { destruct (skipn 0 s2) as [|c' s3]; [reflexivity|].
    now destruct (N.eqb c' quote). }
  destruct (skipn (S m) s2) as [|c' s3] eqn:E3; [reflexivity|].
  cbn [match_groups match_seq strip_prefix]. rewrite N.eqb_sym.
  destruct (N.eqb_spec c' quote) as [->|]; [|reflexivity].
  cbn [option_map fst snd List.length]. rewrite !Nat.add_0_r.
  rewrite firstn_app_exact, (firstn_snoc _ _ _ _ E2). reflexivity.
Qed.

End Matching.

(** ** Occurrences of the declarations *)

Section Occurrences.
Context {U : UnicodeTables}.

Lemma all_in_nonempty_run k x r :
  all_in k x -> x <> [] -> exists n, run k (x ++ r) = S n.
Proof.
  intros H Hx. destruct H as [|c x Hc _]; [congruence|].
  simpl. rewrite Hc. eauto.
Qed.

Lemma digit_stops_space x r : all_in ClsDigit x -> x <> [] -> stops ClsSpace (x ++ r).
Proof.
  intros H Hx. destruct H as [|c x Hc _]; [congruence|]. simpl in *.
  destruct (isspace c) eqn:E; [|reflexivity].
  apply space_not_decimal in E. congruence.
Qed.

Lemma skipn_app_exact (x r : text) : skipn (List.length x) (x ++ r) = r.
Proof. induction x; simpl; auto. Qed.

Lemma firstn_app_exact0 (x r : text) : firstn (List.length x) (x ++ r) = x.
Proof. induction x; simpl; [now destruct r|]. now f_equal. Qed.

Lemma field_at_match L s ws d r :
  field_at L s ws d r -> match_field L s = Some ([L ++ ws; d], r).
Proof.
  intros (-> & Hws & Hs & Hd & Hdd & Hr). unfold match_field.
  rewrite strip_prefix_app.
  rewrite (run_app ClsSpace ws (d ++ r) Hs (digit_stops_space d r Hdd Hd)).
  rewrite skipn_app_exact, firstn_app_exact0.
  rewrite (run_app ClsDigit d r Hdd Hr).
  rewrite skipn_app_exact, firstn_app_exact0.
  destruct ws; [congruence|]. destruct d; [congruence|]. reflexivity.
Qed.

Lemma match_field_at L s gs r :
  match_field L s = Some (gs, r) ->
  exists ws d, gs = [L ++ ws; d] /\ field_at L s ws d r.
Proof.
  unfold match_field. destruct (strip_prefix L s) as [s1|] eqn:EL; [|discriminate].
  apply strip_prefix_Some in EL. subst s.
  pose proof (run_firstn ClsSpace s1) as Hws.
  pose proof (firstn_skipn (run ClsSpace s1) s1) as E1.
  remember (run ClsSpace s1) as n eqn:En.
  remember (skipn n s1) as s2 eqn:E2.
  pose proof (run_firstn ClsDigit s2) as Hd.
  pose proof (run_skipn ClsDigit s2) as Hr.
  pose proof (firstn_skipn (run ClsDigit s2) s2) as E3.
  remember (run ClsDigit s2) as m eqn:Em.
  remember (firstn n s1) as ws eqn:Ews.
  remember (firstn m s2) as d eqn:Ed.
  remember (skipn m s2) as r' eqn:Er.
  destruct n as [|n]; [discriminate|]. destruct m as [|m]; [discriminate|].
  intros [= <- <-]. exists ws, d. split; [reflexivity|].
  unfold field_at. rewrite E3, E1. repeat split; auto.
  - subst ws. destruct s1; [discriminate|]. discriminate.
  - subst d. destruct s2; [discriminate|]. discriminate.
Qed.

Lemma quote_stops_space r : stops ClsSpace (quote :: r).
Proof. simpl. apply quote_not_space. Qed.

Lemma string_at_match L s ws P r :
  string_at L s ws P r ->
  match_string L s = Some ([L ++ ws ++ [quote]; P; [quote]], r).
Proof.
  intros (-> & Hws & Hs & HP & HPP). unfold match_string.
  rewrite strip_prefix_app.
  rewrite (run_app ClsSpace ws _ Hs (quote_stops_space _)).
  rewrite skipn_app_exact, firstn_app_exact0.
  change (quote :: P ++ quote :: r) with ([quote] ++ P ++ [quote] ++ r).
  rewrite strip_prefix_app.
  assert (Hq : stops ClsNotQuote ([quote] ++ r)) by reflexivity.
  rewrite (run_app ClsNotQuote P _ HPP Hq).
  rewrite skipn_app_exact, firstn_app_exact0, strip_prefix_app.
  destruct ws; [congruence|]. destruct P; [congruence|]. reflexivity.
Qed.

Lemma match_string_at L s gs r :
  match_string L s = Some (gs, r) ->
  exists ws P, gs = [L ++ ws ++ [quote]; P; [quote]] /\ string_at L s ws P r.
Proof.
  unfold match_string. destruct (strip_prefix L s) as [s1|] eqn:EL; [|discriminate].
  apply strip_prefix_Some in EL. subst s.
  pose proof (run_firstn ClsSpace s1) as Hws.
  pose proof (firstn_skipn (run ClsSpace s1) s1) as E1.
  remember (run ClsSpace s1) as n eqn:En.
  remember (firstn n s1) as ws eqn:Ews.
  destruct (strip_prefix [quote] (skipn n s1)) as [s2|] eqn:E2; [|discriminate].
  apply strip_prefix_Some in E2. rewrite E2 in E1.
  pose proof (run_firstn ClsNotQuote s2) as HP.
  pose proof (firstn_skipn (run ClsNotQuote s2) s2) as E3.
  remember (run ClsNotQuote s2) as m eqn:Em.
  remember (firstn m s2) as P eqn:EP.
  destruct (strip_prefix [quote] (skipn m s2)) as [s3|] eqn:E4; [|discriminate].
  apply strip_prefix_Some in E4. rewrite E4 in E3.
  destruct n as [|n]; [discriminate|]. destruct m as [|m]; [discriminate|].
  intros [= <- <-]. exists ws, P. split; [reflexivity|].
  unfold string_at. change (quote :: P ++ quote :: s3) with ([quote] ++ P ++ [quote] ++ s3).
  rewrite E3, E1. repeat split; auto.
  - subst ws. destruct s1; [discriminate|]. discriminate.
  - subst P. destruct s2; [discriminate|]. discriminate.
Qed.


(** *** [re.sub], one step at a time *)

Lemma sub_scan_skip p tpl k s :
  (k <= List.length s)%nat ->
  sub_scan p tpl k s = sub_scan p tpl 0 (skipn k s).
Proof.
  revert k; induction s as [|c s IH]; intros [|k] Hk; simpl in *; try lia; auto.
  apply IH. lia.
Qed.

Lemma re_sub_nil p tpl : match_groups p [] = None -> re_sub p tpl [] = [].
Proof. unfold re_sub. simpl. now intros ->. Qed.

Lemma re_sub_copy p tpl c s :
  match_groups p (c :: s) = None -> re_sub p tpl (c :: s) = c :: re_sub p tpl s.
Proof. unfold re_sub. cbn [sub_scan]. now intros ->. Qed.

Lemma re_sub_match p tpl s gs r x :
  match_groups p s = Some (gs, r) -> s = x ++ r -> x <> [] ->
  re_sub p tpl s = expand tpl gs ++ re_sub p tpl r.
Proof.
  intros Hm -> Hx. destruct x as [|c x]; [congruence|].
  unfold re_sub. cbn [sub_scan app]. change (c :: x ++ r) with ((c :: x) ++ r).
  rewrite Hm. f_equal. cbn [app List.length].
  rewrite length_app.
  replace (S (List.length x + List.length r) - List.length r)%nat
    with (S (List.length x)) by lia.
  rewrite sub_scan_skip by (rewrite length_app; lia).
  now rewrite skipn_app_exact.
Qed.

Lemma field_sub_nil L v : L <> [] -> field_sub L v [] = [].
Proof.
  intros HL. apply re_sub_nil. rewrite match_field_eq.
  unfold match_field. destruct L; [congruence|reflexivity].
Qed.

Lemma field_sub_copy L v c s :
  match_field L (c :: s) = None -> field_sub L v (c :: s) = c :: field_sub L v s.
Proof. intros H. apply re_sub_copy. now rewrite match_field_eq. Qed.

Lemma field_sub_match L v s ws d r :
  field_at L s ws d r -> field_sub L v s = L ++ ws ++ v ++ field_sub L v r.
Proof.
  intros H. pose proof (field_at_match _ _ _ _ _ H) as Hm.
  destruct H as (-> & _ & _ & Hd & _).
  unfold field_sub.
  rewrite (re_sub_match _ _ _ [L ++ ws; d] r (L ++ ws ++ d)).
  - cbn. now rewrite ?app_nil_r, <- !app_assoc.
  - now rewrite match_field_eq.
  - now rewrite <- !app_assoc.
  - destruct L, ws, d; simpl; congruence.
Qed.

Lemma string_sub_nil L v : L <> [] -> string_sub L v [] = [].
Proof.
  intros HL. apply re_sub_nil. rewrite match_string_eq.
  unfold match_string. destruct L; [congruence|reflexivity].
Qed.

Lemma string_sub_copy L v c s :
  match_string L (c :: s) = None -> string_sub L v (c :: s) = c :: string_sub L v s.
Proof. intros H. apply re_sub_copy. now rewrite match_string_eq. Qed.

Lemma string_sub_match L v s ws P r :
  string_at L s ws P r ->
  string_sub L v s = L ++ ws ++ quote :: v ++ quote :: string_sub L v r.
Proof.
  intros H. pose proof (string_at_match _ _ _ _ _ H) as Hm.
  destruct H as (-> & _ & _ & HP & _).
  unfold string_sub.
  rewrite (re_sub_match _ _ _ [L ++ ws ++ [quote]; P; [quote]] r
             (L ++ ws ++ quote :: P ++ [quote])).
  - cbn. now rewrite <- !app_assoc.
  - now rewrite match_string_eq.
  - rewrite <- !app_assoc. cbn. now rewrite <- !app_assoc.
  - destruct L, ws; simpl; congruence.
Qed.

End Occurrences.

(** ** [int] and [str] *)

Section Numbers.
Context {U : UnicodeTables}.

Lemma last_digit n : ascii_isdecimal (48 + n mod 10)%N = true.
Proof.
  unfold ascii_isdecimal.
  assert (H : (n mod 10 < 10)%N) by (apply N.mod_lt; discriminate).
  revert H. generalize (n mod 10)%N. intros m H.
  apply andb_true_intro; split; apply N.leb_le; lia.
Qed.

Lemma digits_of_shape fuel n acc :
  exists ds, digits_of fuel n acc = ds ++ acc /\
             Forall (fun c => ascii_isdecimal c = true) ds /\
             (fuel <> O -> ds <> []).
Proof.
  revert n acc; induction fuel as [|f IH]; intros n acc.
  - exists []. repeat split; [constructor|congruence].
  - cbn [digits_of].
    pose proof (last_digit n) as Hd.
    destruct (n / 10 =? 0)%N.
    + exists [(48 + n mod 10)%N]. repeat split; [now repeat constructor|discriminate].
    + destruct (IH (n / 10)%N ((48 + n mod 10)%N :: acc)) as (ds & E & Hds & _).
      exists (ds ++ [(48 + n mod 10)%N]). rewrite E, <- app_assoc.
      repeat split.
      * apply Forall_app; split; [assumption|now repeat constructor].
      * destruct ds; discriminate.
Qed.

Lemma digits_of_value fuel n acc :
  (N.log2 n < N.of_nat fuel)%N ->
  fold_left (fun a c => 10 * a + decimal_value c)%N (digits_of fuel n acc) 0%N
  = fold_left (fun a c => 10 * a + decimal_value c)%N acc n.
Proof.
  revert n acc; induction fuel as [|f IH]; intros n acc Hf; [lia|].
  cbn [digits_of].
  assert (Hd : decimal_value (48 + n mod 10)%N = (n mod 10)%N).
  { rewrite decimal_value_ascii by apply last_digit.
    generalize (n mod 10)%N. intros; lia. }
  pose proof (N.div_mod n 10%N) as Hn.
  pose proof (last_digit n) as Hm. unfold ascii_isdecimal in Hm.
  apply andb_prop in Hm as [_ Hm]. apply N.leb_le in Hm.
  remember (n / 10)%N as q eqn:Eq. remember (n mod 10)%N as m eqn:Em.
  destruct (N.eqb_spec q 0%N) as [E|E].
  - cbn [fold_left]. rewrite Hd. f_equal. lia.
  - rewrite IH.
    + cbn [fold_left]. rewrite Hd. f_equal. lia.
    + assert (H : (N.log2 (2 * q) <= N.log2 n)%N)
        by (apply N.log2_le_mono; lia).
      rewrite N.log2_double in H by lia. lia.
Qed.

Lemma int_str n : int (str n) = n.
Proof.
  unfold int, str. rewrite digits_of_value; [reflexivity|]. lia.
Qed.

Lemma str_digits n : Forall (fun c => ascii_isdecimal c = true) (str n).
Proof.
  unfold str. destruct (digits_of_shape (S (N.to_nat (N.log2 n))) n []) as (ds & E & H & _).
  now rewrite E, app_nil_r.
Qed.

Lemma str_nonempty n : str n <> [].
Proof.
  unfold str. destruct (digits_of_shape (S (N.to_nat (N.log2 n))) n []) as (ds & E & _ & H).
  rewrite E, app_nil_r. now apply H.
Qed.

End Numbers.

Lemma text_eqb_sym a b : text_eqb a b = text_eqb b a.
Proof.
  revert b; induction a as [|x a IH]; intros [|y b]; simpl; auto.
  now rewrite N.eqb_sym, IH.
Qed.

(** ** The script, run *)

Section Program.

Context {U : UnicodeTables} {P : Platform}.

Lemma extract_run content w :
  for_each patterns (extract_step content) [] w
  = (Ok (parse content), fold_left to_stderr (warnings content) w).
Proof.
  unfold parse, warnings, field_value, patterns, for_each, extract_step, bind, ret, eprint.
  cbn [fst snd flat_map].
  destruct (re_search (field_pattern "FIRMWARE_VERSION_MAJOR") content) as [[]|];
  destruct (re_search (field_pattern "FIRMWARE_VERSION_MINOR") content) as [[]|];
  destruct (re_search (field_pattern "FIRMWARE_VERSION_PATCH") content) as [[]|];
  destruct (re_search (field_pattern "FIRMWARE_BUILD_NUMBER") content) as [[]|];
  reflexivity.
Qed.

Lemma nodes_log w ls : nodes (fold_left to_stderr ls w) = nodes w.
Proof. revert w; induction ls as [|l ls IH]; intros w; simpl; [reflexivity|]. now rewrite IH. Qed.

Lemma files_log w ls : files (fold_left to_stderr ls w) = files w.
Proof. unfold files. now rewrite nodes_log. Qed.

Lemma files_Some w p c : files w p = Some c <-> nodes w p = Regular c.
Proof.
  unfold files. destruct (nodes w p); split; intros H; try discriminate; congruence.
Qed.

Lemma stdout_log w ls : stdout (fold_left to_stderr ls w) = stdout w.
Proof. revert w; induction ls as [|l ls IH]; intros w; simpl; [reflexivity|]. now rewrite IH. Qed.

Lemma stderr_log w ls : stderr (fold_left to_stderr ls w) = stderr w ++ ls.
Proof.
  revert w; induction ls as [|l ls IH]; intros w; simpl; [now rewrite app_nil_r|].
  rewrite IH. simpl. now rewrite <- app_assoc.
Qed.

Lemma increment_major a b c d w :
  increment (record a b c d) (lit "major") w = (Ok (record (a + 1) 0 0 d), w).
Proof. reflexivity. Qed.
Lemma increment_minor a b c d w :
  increment (record a b c d) (lit "minor") w = (Ok (record a (b + 1) 0 d), w).
Proof. reflexivity. Qed.
Lemma increment_patch a b c d w :
  increment (record a b c d) (lit "patch") w = (Ok (record a b (c + 1) d), w).
Proof. reflexivity. Qed.
Lemma increment_build a b c d w :
  increment (record a b c d) (lit "build") w = (Ok (record a b c (d + 1)), w).
Proof. reflexivity. Qed.

Lemma dict_mem_record a b c d k :
  dict_mem (record a b c d) k = existsb (text_eqb k) kinds.
Proof.
  unfold dict_mem, record, kinds. cbn [dict_get existsb].
  rewrite !(text_eqb_sym k).
  repeat match goal with |- context [text_eqb ?x k] => destruct (text_eqb x k) end;
  reflexivity.
Qed.

Lemma increment_run versions k w :
  dict_mem versions k = true -> increment versions k w = (Ok (bump k versions), w).
Proof.
  unfold dict_mem, increment, bump, bind, getitem, ret.
  destruct (dict_get versions k); [|discriminate]. intros _.
  destruct (text_eqb k (lit "major")); [reflexivity|].
  destruct (text_eqb k (lit "minor")); reflexivity.
Qed.

Lemma bump_record a b c d k :
  In k kinds -> exists a' b' c' d', bump k (record a b c d) = record a' b' c' d'.
Proof.
  intros [<-|[<-|[<-|[<-|[]]]]]; do 4 eexists; reflexivity.
Qed.

Lemma update_run a b c d content w :
  for_each patterns (update_step (record a b c d)) content w
  = (Ok (update_fields (record a b c d) content), w).
Proof. reflexivity. Qed.

Lemma version_string_run a b c d w :
  version_string_of (record a b c d) w = (Ok (version_text (record a b c d)), w).
Proof. reflexivity. Qed.

Lemma kinds_mem k : In k kinds <-> existsb (text_eqb k) kinds = true.
Proof.
  rewrite existsb_exists. split.
  - intros H. exists k. split; [assumption|apply text_eqb_refl].
  - intros (x & Hx & E). apply text_eqb_eq in E. now subst.
Qed.

Lemma bind_ok {A B} (c : M A) (k : A -> M B) w a w' :
  c w = (Ok a, w') -> bind c k w = k a w'.
Proof. unfold bind. now intros ->. Qed.

(** The run of the script on an existing file with a known increment
    type; [content] is the text of the file as the script reads it. *)
Lemma increment_version_run path k w raw :
  files w path = Some raw -> In k kinds ->
  let content := universal_newlines raw in
  increment_version path k w =
  (Ok true,
   to_stdout
     (store (fold_left to_stderr (warnings content) w) path
            (to_linesep (new_content (bump k (parse content)) content)))
     (lit "Version incremented: " ++ k ++ lit " -> "
      ++ version_text (bump k (parse content)))).
Proof.
  intros Hf Hk content. apply files_Some in Hf. unfold increment_version.
  rewrite (bind_ok (path_exists path) _ w true w)
    by (unfold path_exists; now rewrite Hf).
  cbn [negb].
  rewrite (bind_ok (read_text path) _ w content w)
    by (unfold read_text; now rewrite Hf).
  rewrite (bind_ok _ _ _ _ _ (extract_run content w)).
  assert (Hm : dict_mem (parse content) k = true)
    by (unfold parse; rewrite dict_mem_record; now apply kinds_mem).
  rewrite Hm.
  rewrite (bind_ok _ _ _ _ _ (increment_run _ _ _ Hm)).
  destruct (bump_record (field_value content "FIRMWARE_VERSION_MAJOR")
                        (field_value content "FIRMWARE_VERSION_MINOR")
                        (field_value content "FIRMWARE_VERSION_PATCH")
                        (field_value content "FIRMWARE_BUILD_NUMBER") k Hk)
    as (a & b & c & d & E).
  fold (parse content) in E. rewrite E.
  rewrite (bind_ok _ _ _ _ _ (update_run a b c d content _)).
  rewrite (bind_ok _ _ _ _ _ (version_string_run a b c d _)).
  unfold bind at 1, write_text. rewrite nodes_log, Hf. reflexivity.
Qed.

End Program.

(** ** Marked text: following characters through the substitutions *)

Section Marked.

Context {U : UnicodeTables}.

(** *** Marked text *)

Lemma erase_app a b : erase (a ++ b) = erase a ++ erase b.
Proof. apply map_app. Qed.

Lemma erase_fresh v : erase (fresh v) = v.
Proof. unfold erase, fresh. rewrite map_map. apply map_id. Qed.

Lemma marked_fresh v : marked (fresh v).
Proof. unfold marked, fresh. apply Forall_map. now apply Forall_forall. Qed.

Lemma erase_split t a b :
  erase t = a ++ b -> exists A B, t = A ++ B /\ erase A = a /\ erase B = b.
Proof. intros H. apply map_eq_app in H as (A & B & -> & <- & <-). eauto. Qed.

Lemma erase_length t : List.length (erase t) = List.length t.
Proof. apply length_map. Qed.

Lemma msub_total m v : sound m -> forall t, exists t', msub m v t t'.
Proof.
  intros Hm t. remember (List.length t) as n eqn:En.
  revert t En. induction n as [n IH] using lt_wf_ind. intros t ->.
  destruct t as [|x t]; [exists []; constructor|].
  destruct (m (erase (x :: t))) as [[[[g1 P] g3] r]|] eqn:E.
  - destruct (Hm _ _ _ _ _ E) as (Hs & Hg & _).
    apply erase_split in Hs as (G1 & T1 & Ht & E1 & Hs).
    apply erase_split in Hs as (P' & T2 & -> & E2 & Hs).
    apply erase_split in Hs as (G3 & R & -> & E3 & E4).
    destruct (IH (List.length R)) with (t := R) as (R' & HR); [|reflexivity|].
    { apply (f_equal (@List.length _)) in Ht. rewrite !length_app in Ht.
      destruct G1; [simpl in E1; congruence|]. simpl in *. lia. }
    exists (G1 ++ fresh v ++ G3 ++ R'). rewrite Ht. constructor; [|assumption].
    rewrite <- Ht, E. subst. reflexivity.
  - destruct (IH (List.length t)) with (t := t) as (t' & Ht); [simpl; lia|reflexivity|].
    exists (x :: t'). now constructor.
Qed.

Lemma msub_erase m v f :
  f [] = [] ->
  (forall c s, m (c :: s) = None -> f (c :: s) = c :: f s) ->
  (forall s g1 P g3 r, m s = Some (g1, P, g3, r) -> f s = g1 ++ v ++ g3 ++ f r) ->
  forall t t', msub m v t t' -> erase t' = f (erase t).
Proof.
  intros Hnil Hcopy Hmatch t t' H. induction H as [|x t t' E _ IH|G1 P G3 r r' E _ IH].
  - simpl. now rewrite Hnil.
  - simpl in *. rewrite Hcopy by assumption. now rewrite IH.
  - rewrite (Hmatch _ _ _ _ _ E), !erase_app, erase_fresh, IH. reflexivity.
Qed.

(** *** Holes *)

Lemma hole_hole k : hole (hole k) = hole k.
Proof. destruct k as [|[c|] k]; reflexivity. Qed.

Lemma collapse_marked_cons c t : collapse ((c, true) :: t) = hole (collapse t).
Proof. simpl. destruct (collapse t) as [|[x|] k]; reflexivity. Qed.

Lemma collapse_marked_app P t :
  marked P -> P <> [] -> collapse (P ++ t) = hole (collapse t).
Proof.
  induction 1 as [|[c b] P Hb _ IH]; intros HP; [congruence|].
  simpl in Hb. subst b. cbn [app]. rewrite collapse_marked_cons.
  destruct P as [|y P]; [reflexivity|].
  rewrite IH by discriminate. apply hole_hole.
Qed.

Lemma collapse_app_cong A t t' :
  collapse t = collapse t' -> collapse (A ++ t) = collapse (A ++ t').
Proof.
  intros H. induction A as [|[c b] A IH]; [assumption|].
  cbn [app collapse]. now rewrite IH.
Qed.

Lemma occurs_suffix m a t G1 P G3 : occurs m t G1 P G3 -> occurs m (a ++ t) G1 P G3.
Proof.
  intros (pre & r & -> & E). exists (a ++ pre), r. now rewrite <- app_assoc.
Qed.

Lemma covered_suffix m a t : covered m (a ++ t) -> covered m t.
Proof. intros H G1 P G3 Ho. eapply H, occurs_suffix, Ho. Qed.

Lemma occurs_head m G1 P G3 r :
  m (erase (G1 ++ P ++ G3 ++ r)) = Some (erase G1, erase P, erase G3, erase r) ->
  occurs m (G1 ++ P ++ G3 ++ r) G1 P G3.
Proof. intros E. now exists [], r. Qed.

(** A substitution whose pattern only ever matches marked payloads leaves
    the collapsed text as it was. *)
Lemma msub_collapse m v t t' :
  sound m -> v <> [] -> msub m v t t' -> covered m t -> collapse t' = collapse t.
Proof.
  intros Hm Hv H. induction H as [|x t t' E _ IH|G1 P G3 r r' E _ IH]; intros Hc.
  - reflexivity.
  - apply (collapse_app_cong [x]). apply IH.
    now apply (covered_suffix m [x]).
  - apply collapse_app_cong.
    rewrite (collapse_marked_app (fresh v)), (collapse_marked_app P).
    + f_equal. apply collapse_app_cong. apply IH.
      apply (covered_suffix m (G1 ++ P ++ G3)). now rewrite <- !app_assoc.
    + eapply Hc, occurs_head, E.
    + destruct (Hm _ _ _ _ _ E) as (_ & _ & HP).
      intros ->. now apply HP.
    + apply marked_fresh.
    + destruct v; [congruence|discriminate].
Qed.

(** *** Cutting texts at a separator *)

Lemma free_app c a b : free c (a ++ b) <-> free c a /\ free c b.
Proof. unfold free. rewrite erase_app, in_app_iff. tauto. Qed.

Lemma free_cons c x t : free c (x :: t) <-> fst x <> c /\ free c t.
Proof. unfold free. simpl. intuition congruence. Qed.

Lemma free_nil c : free c [].
Proof. intros []. Qed.

Lemma cut_at c t : exists a X, t = a ++ X /\ free c a /\ stop c X.
Proof.
  induction t as [|x t (a & X & -> & Ha & HX)].
  - exists [], []. repeat split. apply free_nil.
  - destruct (N.eq_dec (fst x) c) as [E|E].
    + exists [], (x :: a ++ X). repeat split; [apply free_nil|assumption].
    + exists (x :: a), X. repeat split; [|assumption].
      apply free_cons. auto.
Qed.

(** A prefix without [c] ends before a [c]. *)
Lemma free_prefix c (u r a X : mtext) :
  u ++ r = a ++ X -> free c u -> stop c X ->
  exists b, a = u ++ b /\ r = b ++ X.
Proof.
  revert a. induction u as [|y u IH]; intros a E Hu HX.
  - exists a. auto.
  - apply free_cons in Hu as [Hy Hu]. destruct a as [|x a].
    + simpl in E. subst X. simpl in HX. congruence.
    + injection E as -> E. destruct (IH a E Hu HX) as (b & -> & ->).
      exists b. auto.
Qed.

Lemma free_prefix_tail c (u r a X : mtext) :
  u ++ r = a ++ X -> a <> [] -> free c (tl u) -> stop c X ->
  exists b, a = u ++ b /\ r = b ++ X.
Proof.
  intros E Ha Hu HX. destruct u as [|y u]; [exists a; auto|].
  destruct a as [|x a]; [congruence|]. injection E as -> E.
  destruct (free_prefix c u r a X E Hu HX) as (b & -> & ->). exists b. auto.
Qed.

(** The cut before the first [c] is unique. *)
Lemma cut_unique c (a X b Y : mtext) :
  a ++ X = b ++ Y -> free c a -> free c b -> stop c X -> stop c Y ->
  a = b /\ X = Y.
Proof.
  intros E Ha Hb HX HY.
  destruct (free_prefix c a X b Y E Ha HY) as (k & -> & ->).
  destruct k as [|z k]; [now rewrite app_nil_r|].
  apply free_app in Hb as [_ Hb]. apply free_cons in Hb as [Hz _].
  simpl in HX. congruence.
Qed.

Lemma app_cases (pre S A B : mtext) :
  pre ++ S = A ++ B ->
  (exists k, pre = A ++ k /\ B = k ++ S) \/
  (exists k, k <> [] /\ A = pre ++ k /\ S = k ++ B).
Proof.
  revert A. induction pre as [|x pre IH]; intros A E.
  - destruct A as [|y A].
    + left. exists []. auto.
    + right. exists (y :: A). repeat split; [discriminate|assumption].
  - destruct A as [|y A].
    + left. exists (x :: pre). auto.
    + injection E as -> E. destruct (IH A E) as [(k & -> & ->)|(k & Hk & -> & ->)].
      * left. exists k. auto.
      * right. exists k. auto.
Qed.

(** *** What the characters of an occurrence are *)

Lemma separator_not_space c : separator c -> isspace c = false.
Proof. intros [->| ->]; now rewrite isspace_ascii. Qed.

Lemma separator_not_decimal c : separator c -> isdecimal c = false.
Proof. intros [->| ->]; now rewrite isdecimal_ascii. Qed.

Lemma all_in_space_free c ws : separator c -> all_in ClsSpace ws -> ~ In c ws.
Proof.
  intros Hc H Hin. unfold all_in in H. rewrite Forall_forall in H.
  apply H in Hin. simpl in Hin. rewrite separator_not_space in Hin by assumption.
  discriminate.
Qed.

Lemma all_in_digit_free c d : separator c -> all_in ClsDigit d -> ~ In c d.
Proof.
  intros Hc H Hin. unfold all_in in H. rewrite Forall_forall in H.
  apply H in Hin. simpl in Hin. rewrite separator_not_decimal in Hin by assumption.
  discriminate.
Qed.

Lemma plain_char_spec c :
  plain_char c = true ->
  (c < 128)%N /\ c <> hash /\ c <> quote /\ ascii_isdecimal c = false.
Proof.
  unfold plain_char. intros H.
  apply andb_prop in H as [H H4]. apply andb_prop in H as [H H3].
  apply andb_prop in H as [H1 H2].
  apply N.ltb_lt in H1. apply negb_true_iff in H2, H3, H4.
  apply N.eqb_neq in H2, H3. auto.
Qed.

Lemma is_label_spec L :
  is_label L = true ->
  exists L', L = hash :: L' /\
             (forall c, separator c -> ~ In c L') /\
             Forall (fun c => isdecimal c = false) L'.
Proof.
  destruct L as [|x L']; [discriminate|]. simpl. intros H.
  apply andb_prop in H as [Hx HL]. apply N.eqb_eq in Hx. subst x.
  exists L'. split; [reflexivity|]. rewrite forallb_forall in HL. split.
  - intros c Hc Hin. apply HL, plain_char_spec in Hin as (_ & H1 & H2 & _).
    destruct Hc; congruence.
  - apply Forall_forall. intros c Hin.
    apply HL, plain_char_spec in Hin as (H0 & _ & _ & H3).
    now rewrite isdecimal_ascii.
Qed.

Lemma clash_strip a b s : clash a b = true -> strip_prefix a (b ++ s) = None.
Proof.
  revert b. induction a as [|x a IH]; intros [|y b]; simpl; try discriminate.
  intros H. destruct (N.eqb_spec x y); [|reflexivity].
  simpl in H. now apply IH.
Qed.

Lemma clash_sym a b : clash a b = clash b a.
Proof.
  revert b. induction a as [|x a IH]; intros [|y b]; simpl; auto.
  now rewrite N.eqb_sym, IH.
Qed.

(** *** Anatomy of an occurrence *)

Lemma field_occ_Some L s g1 d g3 r :
  field_occ L s = Some (g1, d, g3, r) <->
  g3 = [] /\ exists ws, g1 = L ++ ws /\ field_at L s ws d r.
Proof.
  unfold field_occ. split.
  - destruct (match_field L s) as [[gs r']|] eqn:E; [|discriminate].
    apply match_field_at in E as (ws & d' & -> & H).
    cbn. intros [= <- <- <- <-]. eauto.
  - intros (-> & ws & -> & H). now rewrite (field_at_match _ _ _ _ _ H).
Qed.

Lemma string_occ_Some L s g1 P g3 r :
  string_occ L s = Some (g1, P, g3, r) <->
  g3 = [quote] /\ exists ws, g1 = L ++ ws ++ [quote] /\ string_at L s ws P r.
Proof.
  unfold string_occ. split.
  - destruct (match_string L s) as [[gs r']|] eqn:E; [|discriminate].
    apply match_string_at in E as (ws & P' & -> & H).
    cbn. intros [= <- <- <- <-]. eauto.
  - intros (-> & ws & -> & H). now rewrite (string_at_match _ _ _ _ _ H).
Qed.

Lemma field_occ_sound L : L <> [] -> sound (field_occ L).
Proof.
  intros HL s g1 P g3 r E. apply field_occ_Some in E as (-> & ws & -> & H).
  destruct H as (-> & _ & _ & Hd & _).
  repeat split; [cbn; now rewrite <- app_assoc|destruct L; [congruence|discriminate]|assumption].
Qed.

Lemma string_occ_sound L : sound (string_occ L).
Proof.
  intros s g1 P g3 r E. apply string_occ_Some in E as (-> & ws & -> & H).
  destruct H as (-> & _ & _ & HP & _).
  repeat split; [rewrite <- !app_assoc; reflexivity| |assumption].
  destruct L, ws; discriminate.
Qed.

Lemma erase_nil t : erase t = [] -> t = [].
Proof. destruct t; [reflexivity|discriminate]. Qed.

(** An integer declaration at the head of a marked text. *)
Lemma field_anatomy L G1 P G3 r :
  is_label L = true ->
  field_occ L (erase (G1 ++ P ++ G3 ++ r)) = Some (erase G1, erase P, erase G3, erase r) ->
  G3 = [] /\ G1 <> [] /\ P <> [] /\ stop hash G1 /\
  (forall c, separator c -> free c (tl G1) /\ free c P) /\
  Forall (fun c => isdecimal c = false) (erase G1) /\
  all_in ClsDigit (erase P) /\ stops ClsDigit (erase r).
Proof.
  intros HL E. apply field_occ_Some in E as (E3 & ws & E1 & H).
  apply is_label_spec in HL as (L' & -> & HL1 & HL2).
  destruct H as (_ & _ & Hws & Hd & Hdd & Hr).
  split; [now apply erase_nil|].
  split; [intros ->; discriminate|].
  split; [intros ->; now apply Hd|].
  split; [destruct G1 as [|x G1]; [exact I|now injection E1]|].
  split; [|split; [|split; assumption]].
  - intros c Hc. unfold free. split.
    + destruct G1 as [|x G1]; [intros []|]. cbn [tl].
      injection E1 as _ ->. rewrite in_app_iff.
      intros [Hin|Hin]; [now apply (HL1 c Hc)|now apply (all_in_space_free c ws Hc)].
    + now apply all_in_digit_free.
  - rewrite E1. constructor; [now rewrite isdecimal_ascii|].
    apply Forall_app. split; [assumption|].
    unfold all_in in Hws. eapply Forall_impl; [|exact Hws].
    intros c Hc. simpl in Hc. now apply space_not_decimal.
Qed.

(** A string declaration at the head of a marked text. *)
Lemma string_anatomy L G1 P G3 r :
  is_label L = true ->
  string_occ L (erase (G1 ++ P ++ G3 ++ r)) = Some (erase G1, erase P, erase G3, erase r) ->
  exists G Q1 Q3,
    G1 = G ++ [Q1] /\ G3 = [Q3] /\ fst Q1 = quote /\ fst Q3 = quote /\
    G <> [] /\ P <> [] /\ stop hash G /\
    (forall c, separator c -> free c (tl G)) /\
    Forall (fun c => isdecimal c = false) (erase G) /\
    free quote P.
Proof.
  intros HL E. apply string_occ_Some in E as (E3 & ws & E1 & H).
  apply is_label_spec in HL as (L' & -> & HL1 & HL2).
  destruct H as (_ & _ & Hws & HP & HPP).
  rewrite app_assoc in E1. apply erase_split in E1 as (G & Q & -> & EG & EQ).
  destruct Q as [|Q1 [|? ?]]; try discriminate. injection EQ as EQ.
  destruct G3 as [|Q3 [|? ?]]; try discriminate. injection E3 as E3.
  exists G, Q1, Q3. repeat split; auto.
  - intros ->; discriminate.
  - intros ->; now apply HP.
  - destruct G as [|x G]; [exact I|now injection EG].
  - intros c Hc. unfold free. destruct G as [|x G]; [intros []|]. cbn [tl].
    injection EG as _ ->. rewrite in_app_iff.
    intros [Hin|Hin]; [now apply (HL1 c Hc)|now apply (all_in_space_free c ws Hc)].
  - rewrite EG. constructor; [now rewrite isdecimal_ascii|].
    apply Forall_app. split; [assumption|].
    unfold all_in in Hws. eapply Forall_impl; [|exact Hws].
    intros c Hc. simpl in Hc. now apply space_not_decimal.
  - unfold free. intros Hin. unfold all_in in HPP. rewrite Forall_forall in HPP.
    apply HPP in Hin. discriminate Hin.
Qed.

(** *** Locality: an integer declaration ends before the next separator *)

Lemma stop_not_digit c Y : separator c -> stop c Y -> stops ClsDigit (erase Y).
Proof.
  intros Hc HY. destruct Y as [|y Y]; [exact I|]. simpl in *.
  subst c. now apply separator_not_decimal.
Qed.

Lemma tl_app_nonempty (a b : mtext) : a <> [] -> tl (a ++ b) = tl a ++ b.
Proof. destruct a; [congruence|reflexivity]. Qed.

Lemma field_local L c (a X Y G1 P G3 r : mtext) :
  is_label L = true -> separator c -> a <> [] -> stop c X -> stop c Y ->
  a ++ X = G1 ++ P ++ G3 ++ r ->
  field_occ L (erase (G1 ++ P ++ G3 ++ r)) = Some (erase G1, erase P, erase G3, erase r) ->
  exists b,
    a = G1 ++ P ++ G3 ++ b /\ r = b ++ X /\
    field_occ L (erase (G1 ++ P ++ G3 ++ b ++ Y))
    = Some (erase G1, erase P, erase G3, erase (b ++ Y)).
Proof.
  intros HL Hc Ha HX HY E Hm.
  destruct (field_anatomy _ _ _ _ _ HL Hm) as (-> & HG & HP & _ & Hfree & _ & _ & Hr).
  destruct (Hfree c Hc) as [F1 F2].
  cbn [app] in *. rewrite app_assoc in E.
  destruct (free_prefix_tail c (G1 ++ P) r a X (eq_sym E) Ha) as (b & -> & ->); auto.
  { rewrite tl_app_nonempty by assumption. apply free_app. auto. }
  exists b. rewrite <- app_assoc. repeat split.
  apply field_occ_Some in Hm as (_ & ws & E1 & H).
  apply field_occ_Some. split; [reflexivity|]. exists ws. split; [assumption|].
  destruct H as (Hs & Hws & Hws' & Hd & Hd' & _).
  repeat split; auto.
  - rewrite !erase_app, E1, <- !app_assoc. reflexivity.
  - destruct b as [|x b]; [now apply (stop_not_digit c)|].
    rewrite !erase_app in Hr. exact Hr.
Qed.

(** *** What a scan does to heads and to prefixes *)

Lemma field_occ_hash L : is_label L = true -> hash_headed (field_occ L).
Proof.
  intros HL s [[[g1 P] g3] r] E. apply field_occ_Some in E as (_ & ws & _ & H).
  apply is_label_spec in HL as (L' & -> & _). destruct H as (-> & _). eexists. reflexivity.
Qed.

Lemma string_occ_hash L : is_label L = true -> hash_headed (string_occ L).
Proof.
  intros HL s [[[g1 P] g3] r] E. apply string_occ_Some in E as (_ & ws & _ & H).
  apply is_label_spec in HL as (L' & -> & _). destruct H as (-> & _). eexists. reflexivity.
Qed.

Lemma msub_head m v t t' :
  sound m -> msub m v t t' -> hd_error t' = hd_error t.
Proof.
  intros Hm H. destruct H as [|x t t' E _|G1 P G3 r r' E _]; try reflexivity.
  destruct (Hm _ _ _ _ _ E) as (_ & HG & _).
  destruct G1; [simpl in HG; congruence|reflexivity].
Qed.

Lemma msub_stop m v c t t' : sound m -> msub m v t t' -> stop c t' -> stop c t.
Proof.
  intros Hm H. apply (msub_head _ _ _ _ Hm) in H.
  destruct t, t'; simpl in *; try discriminate; auto.
  now injection H as ->.
Qed.

Lemma msub_stop' m v c t t' : sound m -> msub m v t t' -> stop c t -> stop c t'.
Proof.
  intros Hm H. apply (msub_head _ _ _ _ Hm) in H.
  destruct t, t'; simpl in *; try discriminate; auto.
  now injection H as ->.
Qed.

(** A scan copies what stands before the first [#]. *)
Lemma msub_hash_prefix m v t t' a X' :
  sound m -> hash_headed m ->
  msub m v t t' -> t' = a ++ X' -> free hash a ->
  exists X, t = a ++ X /\ msub m v X X'.
Proof.
  intros Hm Hh H. revert a. induction H as [|x t t' E H IH|G1 P G3 r r' E H IH];
    intros a Et Ha.
  - destruct a; [|discriminate]. simpl in Et. subst X'. exists []. split; [reflexivity|constructor].
  - destruct a as [|y a].
    + simpl in Et. subst X'. exists (x :: t). split; [reflexivity|]. now constructor.
    + injection Et as <- Et. apply free_cons in Ha as [_ Ha].
      destruct (IH a Et Ha) as (X & -> & HX). exists X. auto.
  - destruct a as [|y a].
    + simpl in Et. subst X'. exists (G1 ++ P ++ G3 ++ r). split; [reflexivity|].
      now constructor.
    + exfalso. destruct (Hh _ _ E) as (s' & Es).
      destruct (Hm _ _ _ _ _ E) as (_ & HG & _).
      destruct G1 as [|g G1]; [simpl in HG; congruence|].
      injection Et as <- _. apply free_cons in Ha as [Hy _].
      simpl in Es. injection Es as Es _. congruence.
Qed.

(** The same in the other direction. *)
Lemma msub_hash_prefix_fwd m v t t' a X :
  sound m -> hash_headed m ->
  msub m v t t' -> t = a ++ X -> free hash a ->
  exists X', t' = a ++ X' /\ msub m v X X'.
Proof.
  intros Hm Hh H. revert a. induction H as [|x t t' E H IH|G1 P G3 r r' E H IH];
    intros a Et Ha.
  - destruct a; [|discriminate]. simpl in Et. subst X. exists []. split; [reflexivity|constructor].
  - destruct a as [|y a].
    + simpl in Et. subst X. exists (x :: t'). split; [reflexivity|]. now constructor.
    + injection Et as <- Et. apply free_cons in Ha as [_ Ha].
      destruct (IH a Et Ha) as (X' & -> & HX). exists X'. auto.
  - destruct a as [|y a].
    + simpl in Et. subst X. exists (G1 ++ fresh v ++ G3 ++ r'). split; [reflexivity|].
      now constructor.
    + exfalso. destruct (Hh _ _ E) as (s' & Es).
      destruct (Hm _ _ _ _ _ E) as (_ & HG & _).
      destruct G1 as [|g G1]; [simpl in HG; congruence|].
      injection Et as <- _. apply free_cons in Ha as [Hy _].
      simpl in Es. injection Es as Es _. congruence.
Qed.

(** *** Following occurrences back through a scan *)

Lemma hash_suffix (A pre k : mtext) :
  A = pre ++ k -> k <> [] -> stop hash k -> free hash (tl A) -> pre = [].
Proof.
  intros -> Hk Hs Hf. destruct pre as [|y pre]; [reflexivity|].
  cbn [app tl] in Hf. apply free_app in Hf as [_ Hf].
  destruct k as [|z k]; [congruence|]. apply free_cons in Hf as [Hz _].
  simpl in Hs. congruence.
Qed.

Lemma occ_stop q (S : mtext) o :
  hash_headed q -> q (erase S) = Some o -> stop hash S /\ S <> [].
Proof.
  intros Hq E. destruct (Hq _ _ E) as (s' & Es).
  destruct S as [|x S]; [discriminate|]. injection Es as Ex _. split; [assumption|discriminate].
Qed.

(** An occurrence of [q] in the result of a scan for [m] sits either at a
    place the scan copied or at a place where it matched. *)
Lemma back_scheme (m q : matcher) v (Phi : mtext -> mtext -> mtext -> mtext -> Prop) :
  sound m -> hash_headed q ->
  (forall a t G1 P G3, Phi t G1 P G3 -> Phi (a ++ t) G1 P G3) ->
  (forall G1 P G3 r,
      m (erase (G1 ++ P ++ G3 ++ r)) = Some (erase G1, erase P, erase G3, erase r) ->
      free hash (tl (G1 ++ fresh v ++ G3))) ->
  (forall x t t' G1 P G3 r,
      m (erase (x :: t)) = None -> msub m v t t' ->
      x :: t' = G1 ++ P ++ G3 ++ r ->
      q (erase (G1 ++ P ++ G3 ++ r)) = Some (erase G1, erase P, erase G3, erase r) ->
      Phi (x :: t) G1 P G3) ->
  (forall A1 B A3 r r' G1 P G3 rq,
      m (erase (A1 ++ B ++ A3 ++ r)) = Some (erase A1, erase B, erase A3, erase r) ->
      msub m v r r' ->
      A1 ++ fresh v ++ A3 ++ r' = G1 ++ P ++ G3 ++ rq ->
      q (erase (G1 ++ P ++ G3 ++ rq)) = Some (erase G1, erase P, erase G3, erase rq) ->
      Phi (A1 ++ B ++ A3 ++ r) G1 P G3) ->
  forall t t', msub m v t t' ->
  forall G1 P G3, occurs q t' G1 P G3 -> Phi t G1 P G3.
Proof.
  intros Hm Hq Hmono Hreg Hcopy Hmatch t t' H.
  induction H as [|x t t' E H IH|A1 B A3 r r' E H IH]; intros G1 P G3 (pre & rq & Et & Eq).
  - destruct (occ_stop q _ _ Hq Eq) as [_ Hne].
    destruct pre; [|discriminate]. simpl in Et. congruence.
  - destruct pre as [|y pre].
    + simpl in Et. eapply Hcopy; eauto.
    + injection Et as <- Et. apply (Hmono [x]). apply IH. now exists pre, rq.
  - destruct (occ_stop q _ _ Hq Eq) as [Hs Hne].
    assert (Et' : pre ++ (G1 ++ P ++ G3 ++ rq) = (A1 ++ fresh v ++ A3) ++ r')
      by (rewrite <- Et, <- !app_assoc; reflexivity).
    destruct (app_cases _ _ _ _ Et') as [(k & -> & Er)|(k & Hk & EA & ES)].
    + replace (A1 ++ B ++ A3 ++ r) with ((A1 ++ B ++ A3) ++ r)
        by (now rewrite <- !app_assoc).
      apply Hmono, IH. now exists k, rq.
    + assert (pre = []).
      { eapply hash_suffix; eauto.
        rewrite ES in Hs. destruct k; [congruence|exact Hs]. }
      subst pre. simpl in Et. eapply Hmatch; eauto.
Qed.

Lemma occ_split m t g1 P g3 r :
  sound m -> m (erase t) = Some (g1, P, g3, r) ->
  exists G1 P' G3 R,
    t = G1 ++ P' ++ G3 ++ R /\ erase G1 = g1 /\ erase P' = P /\
    erase G3 = g3 /\ erase R = r.
Proof.
  intros Hm E. destruct (Hm _ _ _ _ _ E) as (Hs & _).
  apply erase_split in Hs as (G1 & T1 & -> & E1 & Hs).
  apply erase_split in Hs as (P' & T2 & -> & E2 & Hs).
  apply erase_split in Hs as (G3 & R & -> & E3 & E4).
  exists G1, P', G3, R. auto.
Qed.

Lemma clash_field_occ Lq Lp z : clash Lq Lp = true -> field_occ Lq (Lp ++ z) = None.
Proof. intros H. unfold field_occ, match_field. now rewrite clash_strip. Qed.

Lemma clash_string_occ Lq Lp z : clash Lq Lp = true -> string_occ Lq (Lp ++ z) = None.
Proof. intros H. unfold string_occ, match_string. now rewrite clash_strip. Qed.

(** An integer declaration at a place the scan copied was there before. *)
Lemma field_copy_head m v Lq x t t' G1 P G3 r :
  sound m -> hash_headed m -> is_label Lq = true ->
  msub m v t t' ->
  x :: t' = G1 ++ P ++ G3 ++ r ->
  field_occ Lq (erase (G1 ++ P ++ G3 ++ r)) = Some (erase G1, erase P, erase G3, erase r) ->
  exists b, x :: t = G1 ++ P ++ G3 ++ b /\
            field_occ Lq (erase (G1 ++ P ++ G3 ++ b))
            = Some (erase G1, erase P, erase G3, erase b).
Proof.
  intros Hm Hh HL H Et Eq.
  destruct (cut_at hash t') as (a & X' & Ea & Ha & HX').
  destruct (msub_hash_prefix m v t t' a X' Hm Hh H Ea Ha) as (X & -> & HX).
  pose proof (msub_stop m v hash X X' Hm HX HX') as HXs.
  subst t'.
  destruct (field_local Lq hash (x :: a) X' X G1 P G3 r HL) as (b & Eb & _ & Hb);
    auto; [now left|discriminate|].
  exists (b ++ X). split; [|assumption].
  change (x :: a ++ X) with ((x :: a) ++ X). rewrite Eb, <- !app_assoc. reflexivity.
Qed.

Lemma free_fresh c v : ~ In c v -> free c (fresh v).
Proof. unfold free. now rewrite erase_fresh. Qed.

Lemma field_tidy L v : is_label L = true -> ~ In hash v -> tidy (field_occ L) v.
Proof.
  intros HL Hv G1 P G3 r E.
  destruct (field_anatomy _ _ _ _ _ HL E) as (-> & HG & _ & _ & Hfree & _).
  rewrite tl_app_nonempty by assumption. rewrite app_nil_r.
  apply free_app. split; [apply Hfree; now left|now apply free_fresh].
Qed.

Lemma string_tidy L v : is_label L = true -> ~ In hash v -> tidy (string_occ L) v.
Proof.
  intros HL Hv G1 P G3 r E.
  destruct (string_anatomy _ _ _ _ _ HL E)
    as (G & Q1 & Q3 & -> & -> & HQ1 & HQ3 & HG & _ & _ & Hfree & _).
  rewrite <- app_assoc, tl_app_nonempty by assumption.
  repeat (apply free_app; split).
  - apply Hfree. now left.
  - apply free_cons. split; [rewrite HQ1; discriminate|apply free_nil].
  - now apply free_fresh.
  - apply free_cons. split; [rewrite HQ3; discriminate|apply free_nil].
Qed.

Lemma field_apart_field Lp Lq :
  clash Lq Lp = true -> apart (field_occ Lp) (field_occ Lq).
Proof.
  intros H s g1 P g3 r z E. apply field_occ_Some in E as (_ & ws & -> & _).
  rewrite <- app_assoc. now apply clash_field_occ.
Qed.

Lemma string_apart_field Lp Lq :
  clash Lq Lp = true -> apart (string_occ Lp) (field_occ Lq).
Proof.
  intros H s g1 P g3 r z E. apply string_occ_Some in E as (_ & ws & -> & _).
  rewrite <- app_assoc. now apply clash_field_occ.
Qed.

Lemma field_apart_string Lp Lq :
  clash Lq Lp = true -> apart (field_occ Lp) (string_occ Lq).
Proof.
  intros H s g1 P g3 r z E. apply field_occ_Some in E as (_ & ws & -> & _).
  rewrite <- app_assoc. now apply clash_string_occ.
Qed.

Lemma string_apart_string Lp Lq :
  clash Lq Lp = true -> apart (string_occ Lp) (string_occ Lq).
Proof.
  intros H s g1 P g3 r z E. apply string_occ_Some in E as (_ & ws & -> & _).
  rewrite <- app_assoc. now apply clash_string_occ.
Qed.

Lemma apart_head m q v A1 B A3 r r' G1 P G3 rq :
  apart m q ->
  m (erase (A1 ++ B ++ A3 ++ r)) = Some (erase A1, erase B, erase A3, erase r) ->
  A1 ++ fresh v ++ A3 ++ r' = G1 ++ P ++ G3 ++ rq ->
  q (erase (G1 ++ P ++ G3 ++ rq)) = Some (erase G1, erase P, erase G3, erase rq) ->
  False.
Proof.
  intros Ha Em Et Eq. rewrite <- Et, erase_app in Eq.
  rewrite (Ha _ _ _ _ _ _ Em) in Eq. discriminate.
Qed.

(** An integer declaration found after a scan for another pattern was in
    the text before the scan, character for character. *)
Lemma back_field m v Lq :
  sound m -> hash_headed m -> tidy m v -> is_label Lq = true ->
  apart m (field_occ Lq) ->
  forall t t', msub m v t t' ->
  forall G1 P G3, occurs (field_occ Lq) t' G1 P G3 -> occurs (field_occ Lq) t G1 P G3.
Proof.
  intros Hm Hh Ht HL Ha.
  apply (back_scheme m (field_occ Lq) v (occurs (field_occ Lq))); auto.
  - now apply field_occ_hash.
  - intros. now apply occurs_suffix.
  - intros x t t' G1 P G3 r _ H Et Eq.
    destruct (field_copy_head m v Lq x t t' G1 P G3 r) as (b & -> & Hb); auto.
    now apply occurs_head.
  - intros. exfalso. eapply apart_head; eauto.
Qed.

(** After the scan for an integer pattern, every declaration of that
    integer carries the new digits. *)
Lemma back_same L v :
  is_label L = true -> v <> [] -> all_in ClsDigit v ->
  forall t t', msub (field_occ L) v t t' ->
  forall G1 P G3, occurs (field_occ L) t' G1 P G3 -> erase P = v.
Proof.
  intros HL Hv Hd.
  assert (HLn : L <> []) by (intros ->; discriminate).
  assert (Hvh : ~ In hash v) by (apply all_in_digit_free; [now left|assumption]).
  apply (back_scheme (field_occ L) (field_occ L) v (fun _ _ P _ => erase P = v)); auto.
  - now apply field_occ_sound.
  - now apply field_occ_hash.
  - now apply field_tidy.
  - intros x t t' G1 P G3 r En H Et Eq. exfalso.
    destruct (field_copy_head (field_occ L) v L x t t' G1 P G3 r) as (b & Eb & Hb); auto.
    + now apply field_occ_sound.
    + now apply field_occ_hash.
    + rewrite <- Eb in Hb. congruence.
  - intros A1 B A3 r r' G1 P G3 rq Em H Et Eq.
    destruct (field_anatomy _ _ _ _ _ HL Em) as (-> & _ & _ & _ & _ & _ & _ & Hr).
    apply field_occ_Some in Em as (_ & ws & E1 & Hat).
    assert (Hnew : field_occ L (erase (A1 ++ fresh v ++ [] ++ r'))
                   = Some (L ++ ws, v, [], erase r')).
    { apply field_occ_Some. split; [reflexivity|]. exists ws. split; [reflexivity|].
      destruct Hat as (_ & Hws & Hws' & _).
      repeat split; auto.
      - rewrite !erase_app, E1, erase_fresh, <- !app_assoc. reflexivity.
      - pose proof (msub_head _ _ _ _ (field_occ_sound L HLn) H) as Hh.
        destruct r as [|y r], r' as [|y' r'']; simpl in *; try discriminate; auto.
        now injection Hh as ->. }
    rewrite Et, Eq in Hnew. now injection Hnew.
Qed.

(** *** Scans for an integer and the double quotes *)

Lemma msub_nil_inv m v t' : sound m -> msub m v [] t' -> t' = [].
Proof.
  intros Hm H. inversion H as [| |G1 P G3 r r' E _ E1 E2]; [reflexivity|].
  destruct (Hm _ _ _ _ _ E) as (_ & HG & _).
  destruct G1; [simpl in HG; congruence|discriminate].
Qed.

Lemma msub_to_nil m v t : sound m -> msub m v t [] -> t = [].
Proof.
  intros Hm H. inversion H as [| |G1 P G3 r r' E _ E1 E2]; [reflexivity|].
  destruct (Hm _ _ _ _ _ E) as (_ & HG & _).
  destruct G1; [simpl in HG; congruence|discriminate].
Qed.

(** A scan for an integer works on the two sides of a double quote
    separately. *)
Lemma field_scan_quote L v t t' :
  is_label L = true -> ~ In quote v ->
  msub (field_occ L) v t t' ->
  forall A' Q X', t' = A' ++ Q :: X' -> free quote A' -> fst Q = quote ->
  exists A X,
    t = A ++ Q :: X /\ free quote A /\
    msub (field_occ L) v A A' /\ msub (field_occ L) v X X'.
Proof.
  intros HL Hv H.
  assert (HLn : L <> []) by (intros ->; discriminate).
  pose proof (field_occ_sound L HLn) as Hm.
  induction H as [|x t t' E H IH|G1 P G3 r r' E H IH]; intros A' Q X' Et HA HQ.
  - destruct A'; discriminate.
  - destruct A' as [|y A'].
    + injection Et as -> ->. exists [], t. repeat split; [apply free_nil|constructor|assumption].
    + injection Et as <- Et. apply free_cons in HA as [Hx HA].
      destruct (IH A' Q X' Et HA HQ) as (A & X & -> & HfA & HAA & HXX).
      exists (x :: A), X. repeat split; auto.
      * apply free_cons. auto.
      * constructor; [|assumption].
        destruct (field_occ L (erase (x :: A))) as [[[[g1 d] g3] r0]|] eqn:E0;
          [exfalso|reflexivity].
        destruct (occ_split _ _ _ _ _ _ Hm E0) as (G1 & P & G3 & R & Es & <- & <- & <- & <-).
        rewrite Es in E0.
        destruct (field_local L quote (x :: A) [] (Q :: X) G1 P G3 R HL)
          as (b & Eb & _ & Hb); auto; [now right|discriminate|exact I|now rewrite app_nil_r|].
        change (x :: A ++ Q :: X) with ((x :: A) ++ Q :: X) in E.
        rewrite Eb, <- !app_assoc in E. congruence.
  - destruct (field_anatomy _ _ _ _ _ HL E) as (-> & HG & HP & HG1 & Hfree & _).
    destruct (Hfree quote (or_intror eq_refl)) as [F1 F2].
    cbn [app] in *.
    assert (HfA : free quote (G1 ++ fresh v)).
    { apply free_app. split; [|now apply free_fresh].
      destruct G1 as [|g G1]; [congruence|]. apply free_cons. split; [|exact F1].
      simpl in HG1. rewrite HG1. discriminate. }
    rewrite app_assoc in Et.
    destruct (free_prefix quote (G1 ++ fresh v) r' A' (Q :: X') Et HfA HQ) as (b & -> & Er).
    apply free_app in HA as [_ Hb].
    destruct (IH b Q X' Er Hb HQ) as (A & X & -> & HfA2 & HAb & HXX).
    exists (G1 ++ P ++ A), X. repeat split; auto.
    + now rewrite <- !app_assoc.
    + repeat (apply free_app; split); auto.
      destruct G1 as [|g G1]; [congruence|]. apply free_cons. split; [|exact F1].
      simpl in HG1. rewrite HG1. discriminate.
    + rewrite <- app_assoc.
      change (G1 ++ P ++ A) with (G1 ++ P ++ [] ++ A).
      change (G1 ++ fresh v ++ b) with (G1 ++ fresh v ++ [] ++ b).
      constructor; [|assumption].
      destruct (field_local L quote (G1 ++ P ++ A) (Q :: X) [] G1 P [] (A ++ Q :: X) HL)
        as (b' & Eb & _ & Hb'); auto; [now right|..].
      * destruct G1; [congruence|discriminate].
      * exact I.
      * now rewrite <- !app_assoc.
      * cbn [app] in Eb. apply app_inv_head in Eb. apply app_inv_head in Eb.
        subst b'. now rewrite app_nil_r in Hb'.
Qed.

(** Where a scan for an integer leaves no digit it has changed nothing. *)
Lemma field_scan_no_digit L v t t' :
  v <> [] -> all_in ClsDigit v ->
  msub (field_occ L) v t t' ->
  Forall (fun c => isdecimal c = false) (erase t') -> t' = t.
Proof.
  intros Hv Hd H. induction H as [|x t t' E H IH|G1 P G3 r r' E H IH]; intros Hn.
  - reflexivity.
  - simpl in Hn. inversion Hn; subst. f_equal. auto.
  - exfalso. rewrite !erase_app, erase_fresh in Hn.
    apply Forall_app in Hn as [_ Hn]. apply Forall_app in Hn as [Hn _].
    destruct v as [|c v]; [congruence|].
    inversion Hn; subst. inversion Hd; subst. simpl in *. congruence.
Qed.

Lemma msub_marked m v t t' : msub m v t t' -> marked t -> marked t'.
Proof.
  intros H. induction H as [|x t t' E H IH|G1 P G3 r r' E H IH]; intros Hm.
  - constructor.
  - inversion Hm; subst. constructor; [assumption|]. now apply IH.
  - unfold marked in Hm. rewrite !Forall_app in Hm.
    destruct Hm as (H1 & _ & H3 & H4).
    unfold marked. rewrite !Forall_app.
    split; [assumption|]. split; [apply marked_fresh|]. split; [assumption|].
    now apply IH.
Qed.

Lemma msub_free m v c t t' : ~ In c v -> msub m v t t' -> free c t -> free c t'.
Proof.
  intros Hv H. induction H as [|x t t' E H IH|G1 P G3 r r' E H IH]; intros Hf.
  - assumption.
  - apply free_cons in Hf as [? ?]. apply free_cons. auto.
  - rewrite !free_app in Hf. destruct Hf as (H1 & _ & H3 & H4).
    rewrite !free_app.
    split; [assumption|]. split; [now apply free_fresh|]. split; [assumption|].
    now apply IH.
Qed.

Lemma free_quote_all_in P : free quote P -> all_in ClsNotQuote (erase P).
Proof.
  unfold free, all_in. intros H. apply Forall_forall. intros c Hc. simpl.
  destruct (N.eqb_spec c quote); [subst; contradiction|reflexivity].
Qed.

(** Rebuilding a string declaration from its marked pieces. *)
Lemma string_occ_pieces L ws (G P : mtext) Q1 Q3 r :
  erase G = L ++ ws -> ws <> [] -> all_in ClsSpace ws ->
  fst Q1 = quote -> fst Q3 = quote -> P <> [] -> free quote P ->
  string_occ L (erase ((G ++ [Q1]) ++ P ++ [Q3] ++ r))
  = Some (erase (G ++ [Q1]), erase P, erase [Q3], erase r).
Proof.
  intros EG Hws Hws' H1 H3 HP HfP. apply string_occ_Some.
  split; [simpl; now rewrite H3|]. exists ws. split.
  - rewrite erase_app, EG, <- app_assoc. simpl. now rewrite H1.
  - repeat split; auto.
    + rewrite !erase_app, EG, <- !app_assoc. simpl. now rewrite H1, H3.
    + intros E. apply erase_nil in E. contradiction.
    + now apply free_quote_all_in.
Qed.

(** A string declaration found after a scan for an integer was there
    before the scan, and the scan has worked on its payload only. *)
Lemma back_string_field Lp Lq v :
  is_label Lp = true -> is_label Lq = true -> clash Lq Lp = true ->
  v <> [] -> all_in ClsDigit v ->
  forall t t', msub (field_occ Lp) v t t' ->
  forall G1 P G3, occurs (string_occ Lq) t' G1 P G3 ->
  exists P0, occurs (string_occ Lq) t G1 P0 G3 /\ msub (field_occ Lp) v P0 P.
Proof.
  intros HLp HLq Hc Hv Hd.
  assert (HLn : Lp <> []) by (intros ->; discriminate).
  pose proof (field_occ_sound Lp HLn) as Hm.
  assert (Hvh : ~ In hash v) by (apply all_in_digit_free; [now left|assumption]).
  assert (Hvq : ~ In quote v) by (apply all_in_digit_free; [now right|assumption]).
  apply (back_scheme (field_occ Lp) (string_occ Lq) v
           (fun t G1 P G3 => exists P0, occurs (string_occ Lq) t G1 P0 G3 /\
                                        msub (field_occ Lp) v P0 P)); auto.
  - now apply string_occ_hash.
  - intros a t G1 P G3 (P0 & Ho & HP). exists P0. split; [now apply occurs_suffix|assumption].
  - now apply field_tidy.
  - intros x t t' G1 P G3 r En H Et Eq.
    destruct (string_anatomy _ _ _ _ _ HLq Eq)
      as (G & Q1 & Q3 & -> & -> & HQ1 & HQ3 & HG & HP & HGh & Hfree & Hnd & HfP).
    pose proof (msub_copy _ v x t t' En H) as Hx.
    rewrite <- !app_assoc in Et. cbn [app] in Et.
    destruct (field_scan_quote Lp v _ _ HLp Hvq Hx G Q1 (P ++ Q3 :: r) Et)
      as (A & X & Ex & HfA & HAG & HXP); auto.
    { destruct G as [|g G]; [congruence|]. apply free_cons. split.
      - simpl in HGh. rewrite HGh. discriminate.
      - apply Hfree. now right. }
    pose proof (field_scan_no_digit Lp v A G Hv Hd HAG Hnd) as EA. subst A.
    destruct (field_scan_quote Lp v _ _ HLp Hvq HXP P Q3 r eq_refl HfP HQ3)
      as (P0 & X2 & -> & HfP0 & HP0 & _).
    exists P0. split; [|assumption].
    apply string_occ_Some in Eq as (_ & ws & E1 & Hat).
    destruct Hat as (_ & Hws & Hws' & _).
    assert (EG : erase G = Lq ++ ws).
    { rewrite erase_app, app_assoc in E1. cbn [erase map] in E1.
      now apply app_inj_tail in E1 as [E1 _]. }
    exists [], X2. split.
    + rewrite Ex, <- !app_assoc. reflexivity.
    + apply string_occ_pieces with (ws := ws); auto.
      intros ->. apply (msub_nil_inv _ _ _ Hm) in HP0. contradiction.
  - intros. exfalso.
    eapply (apart_head (field_occ Lp) (string_occ Lq));
      [now apply field_apart_string|eassumption..].
Qed.

(** A scan for a string copies what stands before the first double
    quote. *)
Lemma string_scan_first_quote L v Y T :
  is_label L = true ->
  msub (string_occ L) v Y T ->
  forall P Q r', T = P ++ Q :: r' -> free quote P -> fst Q = quote ->
  exists Y2, Y = P ++ Q :: Y2.
Proof.
  intros HL H. induction H as [|x t t' E H IH|G1 B G3 r r' E H IH]; intros P Q r0 Et HfP HQ.
  - destruct P; discriminate.
  - destruct P as [|y P].
    + injection Et as -> _. exists t. reflexivity.
    + injection Et as <- Et. apply free_cons in HfP as [_ HfP].
      destruct (IH P Q r0 Et HfP HQ) as (Y2 & ->). exists Y2. reflexivity.
  - destruct (string_anatomy _ _ _ _ _ HL E)
      as (G & Q1 & Q3 & -> & -> & HQ1 & HQ3 & HG & _ & HGh & Hfree & _).
    rewrite <- !app_assoc in Et. cbn [app] in Et.
    destruct (cut_unique quote G (Q1 :: fresh v ++ Q3 :: r') P (Q :: r0) Et)
      as [-> EQ]; auto.
    { destruct G as [|g G]; [congruence|]. apply free_cons. split.
      - simpl in HGh. rewrite HGh. discriminate.
      - apply Hfree. now right. }
    injection EQ as -> _.
    exists (B ++ [Q3] ++ r). now rewrite <- !app_assoc.
Qed.

(** A string declaration found after the scan for the other string
    pattern was there before the scan, character for character. *)
Lemma back_string_string Ls Lf v :
  is_label Ls = true -> is_label Lf = true -> clash Lf Ls = true ->
  ~ In hash v ->
  forall t t', msub (string_occ Ls) v t t' ->
  forall G1 P G3, occurs (string_occ Lf) t' G1 P G3 -> occurs (string_occ Lf) t G1 P G3.
Proof.
  intros HLs HLf Hc Hvh.
  pose proof (string_occ_sound Ls) as Hm.
  pose proof (string_occ_hash Ls HLs) as Hh.
  apply (back_scheme (string_occ Ls) (string_occ Lf) v (occurs (string_occ Lf))); auto.
  - now apply string_occ_hash.
  - intros. now apply occurs_suffix.
  - now apply string_tidy.
  - intros x t t' G1 P G3 r En H Et Eq.
    destruct (string_anatomy _ _ _ _ _ HLf Eq)
      as (G & Q1 & Q3 & -> & -> & HQ1 & HQ3 & HG & HP & HGh & Hfree & Hnd & HfP).
    destruct G as [|g G]; [congruence|].
    rewrite <- !app_assoc in Et. cbn [app] in Et. injection Et as <- Et.
    assert (Ha : free hash (G ++ [Q1])).
    { apply free_app. split; [apply Hfree; now left|].
      apply free_cons. split; [rewrite HQ1; discriminate|apply free_nil]. }
    destruct (msub_hash_prefix _ v t t' (G ++ [Q1]) (P ++ Q3 :: r) Hm Hh H) as (Y & -> & HY);
      auto; [now rewrite <- app_assoc|].
    destruct (string_scan_first_quote Ls v Y _ HLs HY P Q3 r eq_refl HfP HQ3) as (Y2 & ->).
    apply string_occ_Some in Eq as (_ & ws & E1 & Hat).
    destruct Hat as (_ & Hws & Hws' & _).
    assert (EG : erase (x :: G) = Lf ++ ws).
    { change ((x :: G) ++ [Q1]) with ((x :: G) ++ [Q1]) in E1.
      rewrite erase_app, app_assoc in E1.
      change (erase [Q1]) with [fst Q1] in E1.
      now apply app_inj_tail in E1 as [E1 _]. }
    exists [], Y2. split.
    + cbn [app]. rewrite <- !app_assoc. reflexivity.
    + apply string_occ_pieces with (ws := ws); auto.
  - intros. exfalso.
    eapply (apart_head (string_occ Ls) (string_occ Lf));
      [now apply string_apart_string|eassumption..].
Qed.

(** *** From equal collapses to the frame property *)

Lemma collapse_nil_inv t : collapse t = [] -> t = [].
Proof.
  destruct t as [|[c [|]] t]; simpl; try discriminate; auto.
  destruct (collapse t) as [|[x|] k]; discriminate.
Qed.

Lemma collapse_some_inv t c k :
  collapse t = Some c :: k -> exists t', t = (c, false) :: t' /\ collapse t' = k.
Proof.
  destruct t as [|[x [|]] t]; simpl; try discriminate.
  - destruct (collapse t) as [|[y|] k']; discriminate.
  - intros [= -> <-]. eauto.
Qed.

(** Cutting off the leading run of marked characters. *)
Lemma marked_run t :
  exists o r, t = o ++ r /\ marked o /\
              match r with (_, true) :: _ => False | _ => True end.
Proof.
  induction t as [|[c b] t (o & r & -> & Ho & Hr)].
  - exists [], []. repeat split. constructor.
  - destruct b.
    + exists ((c, true) :: o), r. repeat split; [|assumption]. now constructor.
    + exists [], ((c, false) :: o ++ r). repeat split. constructor.
Qed.

Lemma collapse_run o r :
  marked o -> o <> [] -> match r with (_, true) :: _ => False | _ => True end ->
  collapse (o ++ r) = None :: collapse r.
Proof.
  intros Ho Hne Hr. rewrite collapse_marked_app by assumption.
  destruct r as [|[c [|]] r]; [reflexivity|contradiction|reflexivity].
Qed.

Lemma collapse_frame t0 : forall t, collapse t0 = collapse t -> frame t0 (erase t).
Proof.
  remember (List.length t0) as n eqn:En. revert t0 En.
  induction n as [n IH] using lt_wf_ind. intros t0 -> t E.
  destruct t0 as [|[c b] t0].
  - symmetry in E. apply collapse_nil_inv in E. subst. constructor.
  - destruct b.
    + destruct (marked_run ((c, true) :: t0)) as (o & r & Eo & Ho & Hr).
      destruct (marked_run t) as (o' & r' & -> & Ho' & Hr').
      assert (Hne : o <> []).
      { intros ->. simpl in Eo. subst r. exact Hr. }
      rewrite Eo in E. rewrite (collapse_run o r Ho Hne Hr) in E.
      assert (Hne' : o' <> []).
      { intros ->. simpl in E. destruct r' as [|[x [|]] r']; [discriminate|contradiction|discriminate]. }
      rewrite (collapse_run o' r' Ho' Hne' Hr') in E. injection E as E.
      rewrite Eo, erase_app. apply frame_span; [assumption|assumption|].
      apply (IH (List.length r)); [|reflexivity|assumption].
      apply (f_equal (@List.length _)) in Eo. rewrite length_app in Eo.
      destruct o; [congruence|]. simpl in *. lia.
    + simpl in E. symmetry in E. apply collapse_some_inv in E as (t' & -> & E).
      simpl. apply frame_keep. apply (IH (List.length t0)); [simpl; lia|reflexivity|now symmetry].
Qed.

(** *** The payload spans of the input *)

Lemma erase_combine (s : text) (bs : list bool) :
  List.length s = List.length bs -> erase (combine s bs) = s.
Proof.
  revert bs. induction s as [|c s IH]; intros [|b bs] E; try discriminate; auto.
  simpl. f_equal. apply IH. now injection E.
Qed.

Lemma erase_mark s : erase (mark s) = s.
Proof.
  apply erase_combine. unfold payload_mask. now rewrite length_map, length_seq.
Qed.

Lemma nth_mark s j d :
  (j < List.length s)%nat -> snd (nth j (mark s) d) = in_payload s j.
Proof.
  intros Hj. unfold mark. destruct d as [d1 d2].
  rewrite (combine_nth s (payload_mask s) j d1 d2)
    by (unfold payload_mask; now rewrite length_map, length_seq).
  cbn [snd]. unfold payload_mask.
  rewrite (nth_indep _ _ (in_payload s 0)) by (now rewrite length_map, length_seq).
  rewrite (map_nth (in_payload s) (seq 0 (List.length s)) 0%nat j).
  now rewrite seq_nth.
Qed.

Lemma mark_covered (m : matcher) p s :
  In p rewritten_patterns ->
  (forall x, m x = match match_groups p x with
                   | Some (gs, r) => Some (group 1 gs, group 2 gs, group 3 gs, r)
                   | None => None
                   end) ->
  covered m (mark s).
Proof.
  intros Hp Hm G1 P G3 (pre & r & Et & E).
  apply Forall_forall. intros x Hx.
  apply (In_nth _ _ x) in Hx as (k & Hk & <-).
  pose proof (f_equal erase Et) as Es. rewrite erase_mark in Es.
  rewrite erase_app in Es.
  set (i := List.length pre). set (j := (i + List.length G1 + k)%nat).
  assert (Hnth : nth j (mark s) x = nth k P x).
  { rewrite Et. unfold j, i. rewrite app_nth2 by lia.
    replace (List.length pre + List.length G1 + k - List.length pre)%nat
      with (List.length G1 + k)%nat by lia.
    rewrite app_nth2 by lia.
    replace (List.length G1 + k - List.length G1)%nat with k by lia.
    now rewrite app_nth1 by assumption. }
  rewrite <- Hnth. rewrite nth_mark.
  2:{ rewrite Es, length_app, !erase_length, !length_app. unfold j, i. lia. }
  unfold in_payload. apply existsb_exists. exists p. split; [assumption|].
  apply existsb_exists. exists i. split; [apply in_seq; unfold j; lia|].
  unfold in_span.
  assert (Esk : skipn i s = erase (G1 ++ P ++ G3 ++ r)).
  { rewrite Es. unfold i. rewrite <- (erase_length pre). apply skipn_app_exact. }
  rewrite Esk. rewrite Hm in E.
  destruct (match_groups p _) as [[gs r0]|]; [|discriminate].
  injection E as E1 E2 _ _. rewrite E1, E2, !erase_length.
  apply andb_true_intro. split; [apply Nat.leb_le|apply Nat.ltb_lt]; unfold j; lia.
Qed.

End Marked.

(** ** The frame property of the rewriting *)

Section Frame.

Context {U : UnicodeTables}.

Lemma field_sub_msub L v t t' :
  L <> [] -> msub (field_occ L) v t t' -> erase t' = field_sub L v (erase t).
Proof.
  intros HL. apply msub_erase.
  - now apply field_sub_nil.
  - intros c s E. apply field_sub_copy. unfold field_occ in E.
    now destruct (match_field L (c :: s)) as [[]|].
  - intros s g1 P g3 r E. apply field_occ_Some in E as (-> & ws & -> & H).
    rewrite (field_sub_match _ _ _ _ _ _ H). now rewrite <- !app_assoc.
Qed.

Lemma string_sub_msub L v t t' :
  L <> [] -> msub (string_occ L) v t t' -> erase t' = string_sub L v (erase t).
Proof.
  intros HL. apply msub_erase.
  - now apply string_sub_nil.
  - intros c s E. apply string_sub_copy. unfold string_occ in E.
    now destruct (match_string L (c :: s)) as [[]|].
  - intros s g1 P g3 r E. apply string_occ_Some in E as (-> & ws & -> & H).
    rewrite (string_sub_match _ _ _ _ _ _ H). now rewrite <- !app_assoc.
Qed.

Lemma field_occ_groups name x :
  field_occ (label name) x =
  match match_groups (field_pattern name) x with
  | Some (gs, r) => Some (group 1 gs, group 2 gs, group 3 gs, r)
  | None => None
  end.
Proof.
  unfold field_pattern. fold (label name). rewrite match_field_eq. unfold field_occ.
  destruct (match_field (label name) x) as [[gs r]|] eqn:E; [|reflexivity].
  apply match_field_at in E as (ws & d & -> & _). reflexivity.
Qed.

Lemma string_occ_groups name x :
  string_occ (label name) x =
  match match_groups (string_pattern name) x with
  | Some (gs, r) => Some (group 1 gs, group 2 gs, group 3 gs, r)
  | None => None
  end.
Proof.
  unfold string_pattern. fold (label name). now rewrite match_string_eq.
Qed.

Lemma covered_field_step m v Lq t t' :
  sound m -> hash_headed m -> tidy m v -> is_label Lq = true ->
  apart m (field_occ Lq) -> msub m v t t' ->
  covered (field_occ Lq) t -> covered (field_occ Lq) t'.
Proof.
  intros Hm Hh Ht HL Ha H Hc G1 P G3 Ho.
  eapply Hc, (back_field m v Lq); eassumption.
Qed.

Lemma covered_string_field_step Lp Lq v t t' :
  is_label Lp = true -> is_label Lq = true -> clash Lq Lp = true ->
  v <> [] -> all_in ClsDigit v -> msub (field_occ Lp) v t t' ->
  covered (string_occ Lq) t -> covered (string_occ Lq) t'.
Proof.
  intros HLp HLq Hcl Hv Hd H Hc G1 P G3 Ho.
  destruct (back_string_field Lp Lq v HLp HLq Hcl Hv Hd t t' H G1 P G3 Ho) as (P0 & Ho0 & HP).
  eapply msub_marked; [exact HP|]. eapply Hc, Ho0.
Qed.

Lemma covered_string_string_step Ls Lf v t t' :
  is_label Ls = true -> is_label Lf = true -> clash Lf Ls = true ->
  ~ In hash v -> msub (string_occ Ls) v t t' ->
  covered (string_occ Lf) t -> covered (string_occ Lf) t'.
Proof.
  intros HLs HLf Hcl Hv H Hc G1 P G3 Ho.
  eapply Hc, (back_string_string Ls Lf v); eassumption.
Qed.

Lemma str_all_digits n : all_in ClsDigit (str n).
Proof.
  unfold all_in. eapply Forall_impl; [|apply str_digits].
  intros c Hc. simpl. rewrite isdecimal_ascii; [assumption|].
  unfold ascii_isdecimal in Hc. apply andb_prop in Hc as [_ Hc].
  apply N.leb_le in Hc. lia.
Qed.

Lemma str_no_separator c n : separator c -> ~ In c (str n).
Proof. intros Hc. apply all_in_digit_free; [assumption|apply str_all_digits]. Qed.

Lemma version_text_no_hash vs : ~ In hash (version_text vs).
Proof.
  unfold version_text. rewrite !in_app_iff.
  pose proof (fun n => str_no_separator hash n (or_introl eq_refl)) as H.
  intros [?|[?|[?|[?|[?|[?|?]]]]]];
    try (eapply H; eassumption);
    match goal with X : In hash (lit _) |- _ => simpl in X; unfold hash in X; intuition discriminate end.
Qed.

Lemma version_text_nonempty vs : version_text vs <> [].
Proof.
  unfold version_text. pose proof (str_nonempty (lookup vs "major")).
  destruct (str (lookup vs "major")); [congruence|discriminate].
Qed.

Lemma full_text_nonempty vs : full_text vs <> [].
Proof. discriminate. Qed.

Lemma label_nonempty name : label name <> [].
Proof. discriminate. Qed.

Lemma in_rewritten_field key name :
  In (key, (field_pattern name, lit name)) patterns ->
  In (field_pattern name) rewritten_patterns.
Proof.
  intros H. unfold rewritten_patterns. apply in_or_app. left.
  apply in_map_iff. exists (key, (field_pattern name, lit name)). auto.
Qed.

Ltac fstep F name H :=
  eapply (F name); [simpl; tauto|simpl; tauto|discriminate|..|exact H|];
  [assumption|assumption|].

Ltac gstep G name H :=
  eapply (G name); [simpl; tauto|simpl; tauto|..|exact H|];
  [assumption|assumption|].

(** The text written back is the input with payload spans rewritten. *)
Lemma new_content_frame versions content :
  frame (mark content) (new_content versions content).
Proof.
  set (v1 := str (lookup versions "major")).
  set (v2 := str (lookup versions "minor")).
  set (v3 := str (lookup versions "patch")).
  set (v4 := str (lookup versions "build")).
  set (m1 := field_occ (label "FIRMWARE_VERSION_MAJOR")).
  set (m2 := field_occ (label "FIRMWARE_VERSION_MINOR")).
  set (m3 := field_occ (label "FIRMWARE_VERSION_PATCH")).
  set (m4 := field_occ (label "FIRMWARE_BUILD_NUMBER")).
  set (m5 := string_occ (label "FIRMWARE_VERSION_STRING")).
  set (m6 := string_occ (label "FIRMWARE_VERSION_FULL")).
  assert (S1 : sound m1) by (apply field_occ_sound; discriminate).
  assert (S2 : sound m2) by (apply field_occ_sound; discriminate).
  assert (S3 : sound m3) by (apply field_occ_sound; discriminate).
  assert (S4 : sound m4) by (apply field_occ_sound; discriminate).
  assert (S5 : sound m5) by apply string_occ_sound.
  assert (S6 : sound m6) by apply string_occ_sound.
  destruct (msub_total m1 v1 S1 (mark content)) as (t1 & H1).
  destruct (msub_total m2 v2 S2 t1) as (t2 & H2).
  destruct (msub_total m3 v3 S3 t2) as (t3 & H3).
  destruct (msub_total m4 v4 S4 t3) as (t4 & H4).
  destruct (msub_total m5 (version_text versions) S5 t4) as (t5 & H5).
  destruct (msub_total m6 (full_text versions) S6 t5) as (t6 & H6).
  assert (E : erase t6 = new_content versions content).
  { unfold new_content, update_fields.
    rewrite (string_sub_msub _ _ _ _ (label_nonempty _) H6).
    rewrite (string_sub_msub _ _ _ _ (label_nonempty _) H5).
    rewrite (field_sub_msub _ _ _ _ (label_nonempty _) H4).
    rewrite (field_sub_msub _ _ _ _ (label_nonempty _) H3).
    rewrite (field_sub_msub _ _ _ _ (label_nonempty _) H2).
    rewrite (field_sub_msub _ _ _ _ (label_nonempty _) H1).
    now rewrite erase_mark. }
  rewrite <- E. apply collapse_frame.
  (* what the six patterns match in the input is marked *)
  assert (C1 : covered m1 (mark content)).
  { apply mark_covered with (p := field_pattern "FIRMWARE_VERSION_MAJOR");
      [apply (in_rewritten_field (lit "major")); simpl; tauto|apply field_occ_groups]. }
  assert (C2 : covered m2 (mark content)).
  { apply mark_covered with (p := field_pattern "FIRMWARE_VERSION_MINOR");
      [apply (in_rewritten_field (lit "minor")); simpl; tauto|apply field_occ_groups]. }
  assert (C3 : covered m3 (mark content)).
  { apply mark_covered with (p := field_pattern "FIRMWARE_VERSION_PATCH");
      [apply (in_rewritten_field (lit "patch")); simpl; tauto|apply field_occ_groups]. }
  assert (C4 : covered m4 (mark content)).
  { apply mark_covered with (p := field_pattern "FIRMWARE_BUILD_NUMBER");
      [apply (in_rewritten_field (lit "build")); simpl; tauto|apply field_occ_groups]. }
  assert (C5 : covered m5 (mark content)).
  { apply mark_covered with (p := string_pattern "FIRMWARE_VERSION_STRING");
      [unfold rewritten_patterns; apply in_or_app; right; simpl; tauto
      |apply string_occ_groups]. }
  assert (C6 : covered m6 (mark content)).
  { apply mark_covered with (p := string_pattern "FIRMWARE_VERSION_FULL");
      [unfold rewritten_patterns; apply in_or_app; right; simpl; tauto
      |apply string_occ_groups]. }
  (* a scan for an integer keeps the later patterns covered *)
  assert (F : forall name v t t' q,
             In name ["FIRMWARE_VERSION_MAJOR"; "FIRMWARE_VERSION_MINOR";
                      "FIRMWARE_VERSION_PATCH"; "FIRMWARE_BUILD_NUMBER"]%string ->
             In q ["FIRMWARE_VERSION_MAJOR"; "FIRMWARE_VERSION_MINOR";
                   "FIRMWARE_VERSION_PATCH"; "FIRMWARE_BUILD_NUMBER"]%string ->
             name <> q -> v <> [] -> all_in ClsDigit v ->
             msub (field_occ (label name)) v t t' ->
             covered (field_occ (label q)) t -> covered (field_occ (label q)) t').
  { intros name v t t' q Hn Hq Hd Hv Hvd H.
    apply (covered_field_step (field_occ (label name)) v (label q)); auto.
    - apply field_occ_sound. discriminate.
    - apply field_occ_hash.
      simpl in Hn; decompose [or] Hn; subst; try reflexivity; contradiction.
    - apply field_tidy.
      + simpl in Hn; decompose [or] Hn; subst; try reflexivity; contradiction.
      + apply all_in_digit_free; [now left|assumption].
    - simpl in Hq; decompose [or] Hq; subst; try reflexivity; contradiction.
    - apply field_apart_field.
      simpl in Hn, Hq; decompose [or] Hn; decompose [or] Hq; subst;
        try reflexivity; try contradiction; congruence. }
  assert (G : forall name v t t' q,
             In name ["FIRMWARE_VERSION_MAJOR"; "FIRMWARE_VERSION_MINOR";
                      "FIRMWARE_VERSION_PATCH"; "FIRMWARE_BUILD_NUMBER"]%string ->
             In q ["FIRMWARE_VERSION_STRING"; "FIRMWARE_VERSION_FULL"]%string ->
             v <> [] -> all_in ClsDigit v ->
             msub (field_occ (label name)) v t t' ->
             covered (string_occ (label q)) t -> covered (string_occ (label q)) t').
  { intros name v t t' q Hn Hq Hv Hvd H.
    apply (covered_string_field_step (label name) (label q) v); auto.
    - simpl in Hn; decompose [or] Hn; subst; try reflexivity; contradiction.
    - simpl in Hq; decompose [or] Hq; subst; try reflexivity; contradiction.
    - simpl in Hn, Hq; decompose [or] Hn; decompose [or] Hq; subst;
        try reflexivity; contradiction. }
  pose proof (str_nonempty (lookup versions "major")) as N1.
  pose proof (str_nonempty (lookup versions "minor")) as N2.
  pose proof (str_nonempty (lookup versions "patch")) as N3.
  pose proof (str_nonempty (lookup versions "build")) as N4.
  pose proof (str_all_digits (lookup versions "major")) as D1.
  pose proof (str_all_digits (lookup versions "minor")) as D2.
  pose proof (str_all_digits (lookup versions "patch")) as D3.
  pose proof (str_all_digits (lookup versions "build")) as D4.
  assert (K1 : collapse t1 = collapse (mark content))
    by (apply (msub_collapse m1 v1); assumption).
  assert (K2 : collapse t2 = collapse t1).
  { apply (msub_collapse m2 v2); try assumption.
    fstep F "FIRMWARE_VERSION_MAJOR"%string H1. exact C2. }
  assert (K3 : collapse t3 = collapse t2).
  { apply (msub_collapse m3 v3); try assumption.
    fstep F "FIRMWARE_VERSION_MINOR"%string H2.
    fstep F "FIRMWARE_VERSION_MAJOR"%string H1. exact C3. }
  assert (K4 : collapse t4 = collapse t3).
  { apply (msub_collapse m4 v4); try assumption.
    fstep F "FIRMWARE_VERSION_PATCH"%string H3.
    fstep F "FIRMWARE_VERSION_MINOR"%string H2.
    fstep F "FIRMWARE_VERSION_MAJOR"%string H1. exact C4. }
  assert (C5' : covered m5 t4).
  { gstep G "FIRMWARE_BUILD_NUMBER"%string H4.
    gstep G "FIRMWARE_VERSION_PATCH"%string H3.
    gstep G "FIRMWARE_VERSION_MINOR"%string H2.
    gstep G "FIRMWARE_VERSION_MAJOR"%string H1. exact C5. }
  assert (C6' : covered m6 t4).
  { gstep G "FIRMWARE_BUILD_NUMBER"%string H4.
    gstep G "FIRMWARE_VERSION_PATCH"%string H3.
    gstep G "FIRMWARE_VERSION_MINOR"%string H2.
    gstep G "FIRMWARE_VERSION_MAJOR"%string H1. exact C6. }
  assert (K5 : collapse t5 = collapse t4)
    by (apply (msub_collapse m5 (version_text versions));
        try assumption; apply version_text_nonempty).
  assert (K6 : collapse t6 = collapse t5).
  { apply (msub_collapse m6 (full_text versions)); try assumption.
    - apply full_text_nonempty.
    - apply (covered_string_string_step (label "FIRMWARE_VERSION_STRING")
               (label "FIRMWARE_VERSION_FULL") (version_text versions) t4 t5);
        try reflexivity; try assumption. apply version_text_no_hash. }
  congruence.
Qed.

End Frame.

(** ** Following occurrences forward *)

Section Forward.

Context {U : UnicodeTables}.

(** A string declaration at a place the scan for a string pattern copied
    was there before. *)
Lemma string_copy_head Ls Lq v x t t' G1 P G3 r :
  is_label Ls = true -> is_label Lq = true ->
  msub (string_occ Ls) v t t' ->
  x :: t' = G1 ++ P ++ G3 ++ r ->
  string_occ Lq (erase (G1 ++ P ++ G3 ++ r)) = Some (erase G1, erase P, erase G3, erase r) ->
  exists b, x :: t = G1 ++ P ++ G3 ++ b /\
            string_occ Lq (erase (G1 ++ P ++ G3 ++ b))
            = Some (erase G1, erase P, erase G3, erase b).
Proof.
  intros HLs HLq H Et Eq.
  pose proof (string_occ_sound Ls) as Hm.
  pose proof (string_occ_hash Ls HLs) as Hh.
  destruct (string_anatomy _ _ _ _ _ HLq Eq)
    as (G & Q1 & Q3 & -> & -> & HQ1 & HQ3 & HG & HP & HGh & Hfree & Hnd & HfP).
  destruct G as [|g G]; [congruence|].
  rewrite <- !app_assoc in Et. cbn [app] in Et. injection Et as <- Et.
  assert (Ha : free hash (G ++ [Q1])).
  { apply free_app. split; [apply Hfree; now left|].
    apply free_cons. split; [rewrite HQ1; discriminate|apply free_nil]. }
  destruct (msub_hash_prefix _ v t t' (G ++ [Q1]) (P ++ Q3 :: r) Hm Hh H) as (Y & -> & HY);
    auto; [now rewrite <- app_assoc|].
  destruct (string_scan_first_quote Ls v Y _ HLs HY P Q3 r eq_refl HfP HQ3) as (Y2 & ->).
  apply string_occ_Some in Eq as (_ & ws & E1 & Hat).
  destruct Hat as (_ & Hws & Hws' & _).
  assert (EG : erase (x :: G) = Lq ++ ws).
  { rewrite erase_app, app_assoc in E1.
    change (erase [Q1]) with [fst Q1] in E1.
    now apply app_inj_tail in E1 as [E1 _]. }
  exists Y2. split.
  - cbn [app]. rewrite <- !app_assoc. reflexivity.
  - apply string_occ_pieces with (ws := ws); auto.
Qed.

(** After the scan for a string pattern, every declaration of that string
    carries the new payload. *)
Lemma back_same_string L v :
  is_label L = true -> v <> [] -> ~ In quote v -> ~ In hash v ->
  forall t t', msub (string_occ L) v t t' ->
  forall G1 P G3, occurs (string_occ L) t' G1 P G3 -> erase P = v.
Proof.
  intros HL Hv Hvq Hvh.
  apply (back_scheme (string_occ L) (string_occ L) v (fun _ _ P _ => erase P = v)); auto.
  - apply string_occ_sound.
  - now apply string_occ_hash.
  - now apply string_tidy.
  - intros x t t' G1 P G3 r En H Et Eq. exfalso.
    destruct (string_copy_head L L v x t t' G1 P G3 r) as (b & Eb & Hb); auto.
    rewrite <- Eb in Hb. congruence.
  - intros A1 B A3 r r' G1 P G3 rq Em H Et Eq.
    apply string_occ_Some in Em as (E3 & ws & E1 & Hat).
    assert (Hnew : string_occ L (erase (A1 ++ fresh v ++ A3 ++ r'))
                   = Some (L ++ ws ++ [quote], v, [quote], erase r')).
    { apply string_occ_Some. split; [reflexivity|]. exists ws. split; [reflexivity|].
      destruct Hat as (_ & Hws & Hws' & _).
      repeat split; auto.
      - rewrite !erase_app, E1, E3, erase_fresh, <- !app_assoc. reflexivity.
      - unfold all_in. apply Forall_forall. intros c Hc. simpl.
        destruct (N.eqb_spec c quote); [subst; contradiction|reflexivity]. }
    rewrite Et, Eq in Hnew. now injection Hnew.
Qed.

(** *** Following occurrences forward through a scan *)

Lemma app_same_length (a b c d : mtext) :
  a ++ b = c ++ d -> List.length a = List.length c -> a = c /\ b = d.
Proof.
  revert c. induction a as [|x a IH]; intros [|y c] E Hl; try discriminate; auto.
  injection E as -> E. injection Hl as Hl. destruct (IH c E Hl) as [-> ->]. auto.
Qed.

Lemma fwd_scheme (m q : matcher) v (Phi : mtext -> mtext -> mtext -> mtext -> Prop) :
  sound m -> hash_headed q ->
  (forall a t G1 P G3, Phi t G1 P G3 -> Phi (a ++ t) G1 P G3) ->
  (forall G1 P G3 r,
      m (erase (G1 ++ P ++ G3 ++ r)) = Some (erase G1, erase P, erase G3, erase r) ->
      free hash P -> free hash (tl (G1 ++ P ++ G3))) ->
  (forall x t t' G1 P G3 r,
      m (erase (x :: t)) = None -> msub m v t t' ->
      x :: t = G1 ++ P ++ G3 ++ r ->
      q (erase (G1 ++ P ++ G3 ++ r)) = Some (erase G1, erase P, erase G3, erase r) ->
      Phi (x :: t') G1 P G3) ->
  (forall A1 B A3 r r' G1 P G3 rq,
      m (erase (A1 ++ B ++ A3 ++ r)) = Some (erase A1, erase B, erase A3, erase r) ->
      msub m v r r' ->
      A1 ++ B ++ A3 ++ r = G1 ++ P ++ G3 ++ rq ->
      q (erase (G1 ++ P ++ G3 ++ rq)) = Some (erase G1, erase P, erase G3, erase rq) ->
      Phi (A1 ++ fresh v ++ A3 ++ r') G1 P G3) ->
  forall t t', msub m v t t' -> clean m t ->
  forall G1 P G3, occurs q t G1 P G3 -> Phi t' G1 P G3.
Proof.
  intros Hm Hq Hmono Hreg Hcopy Hmatch t t' H.
  induction H as [|x t t' E H IH|A1 B A3 r r' E H IH];
    intros Hcl G1 P G3 (pre & rq & Et & Eq).
  - destruct (occ_stop q _ _ Hq Eq) as [_ Hne].
    destruct pre; [|discriminate]. simpl in Et. congruence.
  - destruct pre as [|y pre].
    + simpl in Et. eapply Hcopy; eauto.
    + injection Et as <- Et. apply (Hmono [x]). apply IH.
      * intros ? ? ? Ho. eapply Hcl, (occurs_suffix m [x]), Ho.
      * now exists pre, rq.
  - destruct (occ_stop q _ _ Hq Eq) as [Hs Hne].
    assert (Et' : pre ++ (G1 ++ P ++ G3 ++ rq) = (A1 ++ B ++ A3) ++ r)
      by (rewrite <- Et, <- !app_assoc; reflexivity).
    destruct (app_cases _ _ _ _ Et') as [(k & -> & Er)|(k & Hk & EA & ES)].
    + replace (A1 ++ fresh v ++ A3 ++ r') with ((A1 ++ fresh v ++ A3) ++ r')
        by (now rewrite <- !app_assoc).
      apply Hmono, IH.
      * intros ? ? ? Ho. eapply Hcl.
        replace (A1 ++ B ++ A3 ++ r) with ((A1 ++ B ++ A3) ++ r)
          by (now rewrite <- !app_assoc).
        eapply occurs_suffix, Ho.
      * now exists k, rq.
    + assert (pre = []).
      { eapply hash_suffix; eauto.
        - rewrite ES in Hs. destruct k; [congruence|exact Hs].
        - apply Hreg with (r := r); [assumption|].
          eapply Hcl, occurs_head, E. }
      subst pre. simpl in Et. eapply Hmatch; eauto.
Qed.

Lemma field_region L G1 P G3 r :
  is_label L = true ->
  field_occ L (erase (G1 ++ P ++ G3 ++ r)) = Some (erase G1, erase P, erase G3, erase r) ->
  free hash (tl (G1 ++ P ++ G3)).
Proof.
  intros HL E.
  destruct (field_anatomy _ _ _ _ _ HL E) as (-> & HG & _ & _ & Hfree & _).
  rewrite tl_app_nonempty by assumption. rewrite app_nil_r.
  apply free_app. apply Hfree. now left.
Qed.

Lemma field_clean L t : is_label L = true -> clean (field_occ L) t.
Proof.
  intros HL G1 P G3 (pre & r & _ & E).
  destruct (field_anatomy _ _ _ _ _ HL E) as (_ & _ & _ & _ & Hfree & _).
  apply Hfree. now left.
Qed.

Lemma string_region L G1 P G3 r :
  is_label L = true ->
  string_occ L (erase (G1 ++ P ++ G3 ++ r)) = Some (erase G1, erase P, erase G3, erase r) ->
  free hash P -> free hash (tl (G1 ++ P ++ G3)).
Proof.
  intros HL E HP.
  destruct (string_anatomy _ _ _ _ _ HL E)
    as (G & Q1 & Q3 & -> & -> & HQ1 & HQ3 & HG & _ & _ & Hfree & _).
  rewrite <- app_assoc, tl_app_nonempty by assumption.
  repeat (apply free_app; split); auto.
  - apply Hfree. now left.
  - apply free_cons. split; [rewrite HQ1; discriminate|apply free_nil].
  - apply free_cons. split; [rewrite HQ3; discriminate|apply free_nil].
Qed.

(** An integer declaration at a place the scan copies is there after the
    scan. *)
Lemma field_copy_head_fwd m v Lq x t t' G1 P G3 r :
  sound m -> hash_headed m -> is_label Lq = true ->
  msub m v t t' ->
  x :: t = G1 ++ P ++ G3 ++ r ->
  field_occ Lq (erase (G1 ++ P ++ G3 ++ r)) = Some (erase G1, erase P, erase G3, erase r) ->
  exists b, x :: t' = G1 ++ P ++ G3 ++ b /\
            field_occ Lq (erase (G1 ++ P ++ G3 ++ b))
            = Some (erase G1, erase P, erase G3, erase b).
Proof.
  intros Hm Hh HL H Et Eq.
  destruct (cut_at hash t) as (a & X & Ea & Ha & HX).
  destruct (msub_hash_prefix_fwd m v t t' a X Hm Hh H Ea Ha) as (X' & -> & HX').
  pose proof (msub_stop' m v hash X X' Hm HX' HX) as HXs.
  subst t.
  destruct (field_local Lq hash (x :: a) X X' G1 P G3 r HL) as (b & Eb & _ & Hb);
    auto; [now left|discriminate|].
  exists (b ++ X'). split; [|assumption].
  change (x :: a ++ X') with ((x :: a) ++ X'). rewrite Eb, <- !app_assoc. reflexivity.
Qed.

(** A scan for another pattern keeps the integer declarations. *)
Lemma fwd_field m v Lq :
  sound m -> hash_headed m -> is_label Lq = true ->
  apart m (field_occ Lq) ->
  (forall G1 P G3 r,
      m (erase (G1 ++ P ++ G3 ++ r)) = Some (erase G1, erase P, erase G3, erase r) ->
      free hash P -> free hash (tl (G1 ++ P ++ G3))) ->
  forall t t', msub m v t t' -> clean m t ->
  forall G1 P G3, occurs (field_occ Lq) t G1 P G3 -> occurs (field_occ Lq) t' G1 P G3.
Proof.
  intros Hm Hh HL Ha Hreg.
  apply (fwd_scheme m (field_occ Lq) v (occurs (field_occ Lq))); auto.
  - now apply field_occ_hash.
  - intros. now apply occurs_suffix.
  - intros x t t' G1 P G3 r _ H Et Eq.
    destruct (field_copy_head_fwd m v Lq x t t' G1 P G3 r) as (b & -> & Hb); auto.
    now apply occurs_head.
  - intros A1 B A3 r r' G1 P G3 rq Em _ Et Eq. exfalso.
    rewrite <- Et, erase_app in Eq. rewrite (Ha _ _ _ _ _ _ Em) in Eq. discriminate.
Qed.

(** The scan for an integer turns each of its declarations into one with
    the new digits. *)
Lemma fwd_same L v :
  is_label L = true -> v <> [] -> all_in ClsDigit v ->
  forall t t', msub (field_occ L) v t t' ->
  forall G1 P G3, occurs (field_occ L) t G1 P G3 ->
  occurs (field_occ L) t' G1 (fresh v) G3.
Proof.
  intros HL Hv Hd t t' H.
  assert (HLn : L <> []) by (intros ->; discriminate).
  pose proof (field_occ_sound L HLn) as Hm.
  apply (fwd_scheme (field_occ L) (field_occ L) v
           (fun t' G1 _ G3 => occurs (field_occ L) t' G1 (fresh v) G3)) with (t := t); auto.
  - now apply field_occ_hash.
  - intros. now apply occurs_suffix.
  - intros G1 P G3 r E _. now apply (field_region L G1 P G3 r).
  - intros x t0 t0' G1 P G3 r En _ Et Eq. exfalso.
    rewrite Et in En. congruence.
  - intros A1 B A3 r r0 G1 P G3 rq Em Hr Et Eq.
    rewrite <- Et, Em in Eq. injection Eq as E1 E2 E3 E4.
    destruct (app_same_length _ _ _ _ Et) as [-> Et2];
      [rewrite <- !erase_length; now rewrite E1|].
    destruct (app_same_length _ _ _ _ Et2) as [-> Et3];
      [rewrite <- !erase_length; now rewrite E2|].
    destruct (app_same_length _ _ _ _ Et3) as [-> ->];
      [rewrite <- !erase_length; now rewrite E3|].
    exists [], r0. split; [reflexivity|].
    destruct (field_anatomy _ _ _ _ _ HL Em) as (-> & _ & _ & _ & _ & _ & _ & Hrs).
    apply field_occ_Some in Em as (_ & ws & Eg & Hat).
    rewrite !erase_app, erase_fresh. cbn [erase map app].
    apply field_occ_Some. split; [reflexivity|]. exists ws. split; [assumption|].
    destruct Hat as (_ & Hws & Hws' & _).
    repeat split; auto.
    + rewrite Eg, <- !app_assoc. reflexivity.
    + pose proof (msub_head _ _ _ _ Hm Hr) as Hh.
      destruct rq as [|y rq], r0 as [|y' r0]; simpl in *; try discriminate; auto.
      now injection Hh as ->.
  - now apply field_clean.
Qed.

End Forward.

(** ** The six scans together *)

Section Trace.

Context {U : UnicodeTables}.

Lemma trace_exists versions t0 :
  exists t1 t2 t3 t4 t5 t6, trace versions t0 t1 t2 t3 t4 t5 t6.
Proof.
  destruct (msub_total (field_occ (label "FIRMWARE_VERSION_MAJOR"))
              (str (lookup versions "major"))
              (field_occ_sound _ (label_nonempty _)) t0) as (t1 & H1).
  destruct (msub_total (field_occ (label "FIRMWARE_VERSION_MINOR"))
              (str (lookup versions "minor"))
              (field_occ_sound _ (label_nonempty _)) t1) as (t2 & H2).
  destruct (msub_total (field_occ (label "FIRMWARE_VERSION_PATCH"))
              (str (lookup versions "patch"))
              (field_occ_sound _ (label_nonempty _)) t2) as (t3 & H3).
  destruct (msub_total (field_occ (label "FIRMWARE_BUILD_NUMBER"))
              (str (lookup versions "build"))
              (field_occ_sound _ (label_nonempty _)) t3) as (t4 & H4).
  destruct (msub_total (string_occ (label "FIRMWARE_VERSION_STRING"))
              (version_text versions) (string_occ_sound _) t4) as (t5 & H5).
  destruct (msub_total (string_occ (label "FIRMWARE_VERSION_FULL"))
              (full_text versions) (string_occ_sound _) t5) as (t6 & H6).
  exists t1, t2, t3, t4, t5, t6. repeat split; assumption.
Qed.

Lemma trace_erase versions t0 t1 t2 t3 t4 t5 t6 :
  trace versions t0 t1 t2 t3 t4 t5 t6 ->
  erase t6 = new_content versions (erase t0).
Proof.
  intros (H1 & H2 & H3 & H4 & H5 & H6). unfold new_content, update_fields.
  rewrite (string_sub_msub _ _ _ _ (label_nonempty _) H6).
  rewrite (string_sub_msub _ _ _ _ (label_nonempty _) H5).
  rewrite (field_sub_msub _ _ _ _ (label_nonempty _) H4).
  rewrite (field_sub_msub _ _ _ _ (label_nonempty _) H3).
  rewrite (field_sub_msub _ _ _ _ (label_nonempty _) H2).
  rewrite (field_sub_msub _ _ _ _ (label_nonempty _) H1).
  reflexivity.
Qed.

Lemma lift_occurs m t pre suf g1 P g3 r :
  sound m -> erase t = pre ++ suf -> m suf = Some (g1, P, g3, r) ->
  exists G1 P' G3,
    occurs m t G1 P' G3 /\ erase G1 = g1 /\ erase P' = P /\ erase G3 = g3.
Proof.
  intros Hm Et E. apply erase_split in Et as (PRE & SUF & -> & <- & <-).
  destruct (occ_split _ _ _ _ _ _ Hm E) as (G1 & P' & G3 & R & -> & <- & <- & <- & <-).
  exists G1, P', G3. repeat split; auto. now exists PRE, R.
Qed.

Lemma lower_occurs m t G1 P G3 :
  occurs m t G1 P G3 ->
  exists pre suf r, erase t = pre ++ suf /\ m suf = Some (erase G1, erase P, erase G3, r).
Proof.
  intros (pre & r & -> & E).
  exists (erase pre), (erase (G1 ++ P ++ G3 ++ r)), (erase r).
  split; [apply erase_app|assumption].
Qed.

Lemma full_text_no_hash vs : ~ In hash (full_text vs).
Proof.
  unfold full_text. rewrite in_app_iff. intros [H|H].
  - simpl in H. unfold hash in H. intuition discriminate.
  - now apply version_text_no_hash in H.
Qed.

Lemma version_text_no_quote vs : ~ In quote (version_text vs).
Proof.
  unfold version_text. rewrite !in_app_iff.
  pose proof (fun n => str_no_separator quote n (or_intror eq_refl)) as H.
  intros [?|[?|[?|[?|[?|[?|?]]]]]];
    try (eapply H; eassumption);
    match goal with X : In quote (lit _) |- _ => simpl in X; unfold quote in X; intuition discriminate end.
Qed.

Lemma full_text_no_quote vs : ~ In quote (full_text vs).
Proof.
  unfold full_text. rewrite in_app_iff. intros [H|H].
  - simpl in H. unfold quote in H. intuition discriminate.
  - now apply version_text_no_quote in H.
Qed.

(** Backwards through the scan for an integer, for another integer. *)
Lemma back_field_field p q v t t' G1 P G3 :
  In p (map snd fields) -> In q (map snd fields) -> p <> q ->
  v <> [] -> all_in ClsDigit v ->
  msub (field_occ (label p)) v t t' ->
  occurs (field_occ (label q)) t' G1 P G3 -> occurs (field_occ (label q)) t G1 P G3.
Proof.
  intros Hp Hq Hd Hv Hvd H.
  apply (back_field (field_occ (label p)) v (label q)); auto.
  - apply field_occ_sound. discriminate.
  - apply field_occ_hash.
    simpl in Hp; decompose [or] Hp; subst; try reflexivity; contradiction.
  - apply field_tidy.
    + simpl in Hp; decompose [or] Hp; subst; try reflexivity; contradiction.
    + apply all_in_digit_free; [now left|assumption].
  - simpl in Hq; decompose [or] Hq; subst; try reflexivity; contradiction.
  - apply field_apart_field.
    simpl in Hp, Hq; decompose [or] Hp; decompose [or] Hq; subst;
      try reflexivity; try contradiction; congruence.
Qed.

(** Backwards through the scan for a string, for an integer. *)
Lemma back_field_string p q v t t' G1 P G3 :
  In p ["FIRMWARE_VERSION_STRING"; "FIRMWARE_VERSION_FULL"]%string ->
  In q (map snd fields) -> ~ In hash v ->
  msub (string_occ (label p)) v t t' ->
  occurs (field_occ (label q)) t' G1 P G3 -> occurs (field_occ (label q)) t G1 P G3.
Proof.
  intros Hp Hq Hv H.
  apply (back_field (string_occ (label p)) v (label q)); auto.
  - apply string_occ_sound.
  - apply string_occ_hash.
    simpl in Hp; decompose [or] Hp; subst; try reflexivity; contradiction.
  - apply string_tidy; [|assumption].
    simpl in Hp; decompose [or] Hp; subst; try reflexivity; contradiction.
  - simpl in Hq; decompose [or] Hq; subst; try reflexivity; contradiction.
  - apply string_apart_field.
    simpl in Hp, Hq; decompose [or] Hp; decompose [or] Hq; subst;
      try reflexivity; contradiction.
Qed.

(** In the text that is written back, every declaration of an integer
    carries the digits of its new value. *)
Lemma new_content_fields versions content key name gs :
  In (key, name) fields ->
  occurs_in (field_pattern name) (new_content versions content) gs ->
  group 2 gs = str (lookup versions key).
Proof.
  intros Hf (pre & suf & r & Es & Em).
  destruct (trace_exists versions (mark content)) as (t1 & t2 & t3 & t4 & t5 & t6 & Ht).
  pose proof (trace_erase _ _ _ _ _ _ _ _ Ht) as E6. rewrite erase_mark in E6.
  destruct Ht as (H1 & H2 & H3 & H4 & H5 & H6).
  assert (Hn : In name (map snd fields)) by (apply in_map_iff; now exists (key, name)).
  assert (Eo : field_occ (label name) suf = Some (group 1 gs, group 2 gs, group 3 gs, r))
    by (rewrite field_occ_groups; now rewrite Em).
  rewrite <- E6 in Es.
  destruct (lift_occurs _ _ _ _ _ _ _ _
              (field_occ_sound _ (label_nonempty name)) Es Eo)
    as (G1 & P & G3 & Ho & _ & <- & _).
  assert (Ho5 : occurs (field_occ (label name)) t5 G1 P G3).
  { apply (back_field_string "FIRMWARE_VERSION_FULL" name (full_text versions) t5 t6);
      [simpl; tauto|assumption|apply full_text_no_hash|exact H6|exact Ho]. }
  assert (Ho4 : occurs (field_occ (label name)) t4 G1 P G3).
  { apply (back_field_string "FIRMWARE_VERSION_STRING" name (version_text versions) t4 t5);
      [simpl; tauto|assumption|apply version_text_no_hash|exact H5|exact Ho5]. }
  clear Ho Ho5.
  pose proof (fun n => str_nonempty n) as Hne.
  pose proof (fun n => str_all_digits n) as Hd.
  assert (B : forall p q t t' v,
             In p (map snd fields) -> In q (map snd fields) -> p <> q ->
             v <> [] -> all_in ClsDigit v ->
             msub (field_occ (label p)) v t t' ->
             occurs (field_occ (label q)) t' G1 P G3 ->
             occurs (field_occ (label q)) t G1 P G3).
  { intros p q t t' v Hp Hq Hpq Hv Hvd H Hoc.
    exact (back_field_field p q v t t' G1 P G3 Hp Hq Hpq Hv Hvd H Hoc). }
  simpl in Hf. destruct Hf as [E|[E|[E|[E|[]]]]]; injection E as <- <-.
  - apply (B "FIRMWARE_BUILD_NUMBER"%string "FIRMWARE_VERSION_MAJOR"%string _ _ _ ltac:(simpl; tauto) ltac:(simpl; tauto) ltac:(discriminate)
             (Hne _) (Hd _) H4) in Ho4.
    apply (B "FIRMWARE_VERSION_PATCH"%string "FIRMWARE_VERSION_MAJOR"%string _ _ _ ltac:(simpl; tauto) ltac:(simpl; tauto) ltac:(discriminate)
             (Hne _) (Hd _) H3) in Ho4.
    apply (B "FIRMWARE_VERSION_MINOR"%string "FIRMWARE_VERSION_MAJOR"%string _ _ _ ltac:(simpl; tauto) ltac:(simpl; tauto) ltac:(discriminate)
             (Hne _) (Hd _) H2) in Ho4.
    apply (back_same (label "FIRMWARE_VERSION_MAJOR") _ eq_refl (Hne _) (Hd _) _ _ H1 _ _ _ Ho4).
  - apply (B "FIRMWARE_BUILD_NUMBER"%string "FIRMWARE_VERSION_MINOR"%string _ _ _ ltac:(simpl; tauto) ltac:(simpl; tauto) ltac:(discriminate)
             (Hne _) (Hd _) H4) in Ho4.
    apply (B "FIRMWARE_VERSION_PATCH"%string "FIRMWARE_VERSION_MINOR"%string _ _ _ ltac:(simpl; tauto) ltac:(simpl; tauto) ltac:(discriminate)
             (Hne _) (Hd _) H3) in Ho4.
    apply (back_same (label "FIRMWARE_VERSION_MINOR") _ eq_refl (Hne _) (Hd _) _ _ H2 _ _ _ Ho4).
  - apply (B "FIRMWARE_BUILD_NUMBER"%string "FIRMWARE_VERSION_PATCH"%string _ _ _ ltac:(simpl; tauto) ltac:(simpl; tauto) ltac:(discriminate)
             (Hne _) (Hd _) H4) in Ho4.
    apply (back_same (label "FIRMWARE_VERSION_PATCH") _ eq_refl (Hne _) (Hd _) _ _ H3 _ _ _ Ho4).
  - apply (back_same (label "FIRMWARE_BUILD_NUMBER") _ eq_refl (Hne _) (Hd _) _ _ H4 _ _ _ Ho4).
Qed.

(** In the text that is written back, every declaration of the version
    string carries the computed string, and every declaration of the full
    version the computed full version. *)
Lemma new_content_strings versions content gs :
  (occurs_in (string_pattern "FIRMWARE_VERSION_STRING") (new_content versions content) gs ->
   group 2 gs = version_text versions) /\
  (occurs_in (string_pattern "FIRMWARE_VERSION_FULL") (new_content versions content) gs ->
   group 2 gs = full_text versions).
Proof.
  destruct (trace_exists versions (mark content)) as (t1 & t2 & t3 & t4 & t5 & t6 & Ht).
  pose proof (trace_erase _ _ _ _ _ _ _ _ Ht) as E6. rewrite erase_mark in E6.
  destruct Ht as (H1 & H2 & H3 & H4 & H5 & H6).
  split; intros (pre & suf & r & Es & Em); rewrite <- E6 in Es.
  - assert (Eo : string_occ (label "FIRMWARE_VERSION_STRING") suf
                 = Some (group 1 gs, group 2 gs, group 3 gs, r))
      by (rewrite string_occ_groups; now rewrite Em).
    destruct (lift_occurs _ _ _ _ _ _ _ _ (string_occ_sound _) Es Eo)
      as (G1 & P & G3 & Ho & _ & <- & _).
    apply (back_string_string (label "FIRMWARE_VERSION_FULL")
             (label "FIRMWARE_VERSION_STRING") (full_text versions)
             eq_refl eq_refl eq_refl (full_text_no_hash _) _ _ H6) in Ho.
    apply (back_same_string (label "FIRMWARE_VERSION_STRING") _ eq_refl
             (version_text_nonempty _) (version_text_no_quote _)
             (version_text_no_hash _) _ _ H5 _ _ _ Ho).
  - assert (Eo : string_occ (label "FIRMWARE_VERSION_FULL") suf
                 = Some (group 1 gs, group 2 gs, group 3 gs, r))
      by (rewrite string_occ_groups; now rewrite Em).
    destruct (lift_occurs _ _ _ _ _ _ _ _ (string_occ_sound _) Es Eo)
      as (G1 & P & G3 & Ho & _ & <- & _).
    apply (back_same_string (label "FIRMWARE_VERSION_FULL") _ eq_refl
             (full_text_nonempty _) (full_text_no_quote _)
             (full_text_no_hash _) _ _ H6 _ _ _ Ho).
Qed.

(** *** [re.search] *)

Lemma search_from_occurs p i s j gs :
  search_from p i s = Some (j, gs) -> occurs_in p s gs.
Proof.
  revert i. induction s as [|c s IH]; intros i; cbn [search_from].
  - destruct (match_groups p []) as [[gs' r]|] eqn:E; [|discriminate].
    intros [= _ <-]. now exists [], [], r.
  - destruct (match_groups p (c :: s)) as [[gs' r]|] eqn:E.
    + intros [= _ <-]. now exists [], (c :: s), r.
    + intros H. apply IH in H as (pre & suf & r & -> & Hm).
      now exists (c :: pre), suf, r.
Qed.

Lemma occurs_search_from p i s gs :
  occurs_in p s gs -> exists j gs', search_from p i s = Some (j, gs').
Proof.
  intros (pre & suf & r & -> & Hm). revert i.
  induction pre as [|c pre IH]; intros i.
  - destruct suf; cbn [search_from app]; rewrite Hm; eauto.
  - cbn [search_from app]. destruct (match_groups p (c :: pre ++ suf)) as [[gs' r']|]; eauto.
Qed.

(** The leftmost occurrence: nothing matches before the position
    [re.search] reports. *)
Lemma search_from_leftmost p i s j gs :
  search_from p i s = Some (j, gs) ->
  exists pre suf r,
    s = pre ++ suf /\ j = (i + List.length pre)%nat /\
    match_groups p suf = Some (gs, r) /\
    forall a b, pre = a ++ b -> b <> [] -> match_groups p (b ++ suf) = None.
Proof.
  revert i. induction s as [|c s IH]; intros i; cbn [search_from].
  - destruct (match_groups p []) as [[gs' r]|] eqn:E; [|discriminate].
    intros [= <- <-]. exists [], [], r. repeat split; auto.
    intros a b Hab Hb. destruct a, b; try discriminate. congruence.
  - destruct (match_groups p (c :: s)) as [[gs' r]|] eqn:E.
    + intros [= <- <-]. exists [], (c :: s), r. repeat split; auto.
      intros a b Hab Hb. destruct a, b; try discriminate. congruence.
    + intros H. apply IH in H as (pre & suf & r & -> & -> & Hm & Hl).
      exists (c :: pre), suf, r.
      split; [reflexivity|]. split; [simpl; lia|]. split; [assumption|].
      intros a b Hab Hb. destruct a as [|x a].
      * simpl in Hab. subst b. exact E.
      * injection Hab as _ Hab. now apply (Hl a b).
Qed.

(** *** Well-formed files *)

Lemma occurs_in_payloads p s gs :
  occurs_in p s gs -> In (group 2 gs) (payloads p s).
Proof.
  intros (pre & suf & r & -> & Hm). unfold payloads. apply in_flat_map.
  exists (List.length pre). split.
  - apply in_seq. rewrite length_app. lia.
  - rewrite skipn_app_exact, Hm. now left.
Qed.

Lemma existsb_hash P : existsb (N.eqb hash) P = false -> ~ In hash P.
Proof.
  intros H Hin. assert (existsb (N.eqb hash) P = true); [|congruence].
  apply existsb_exists. exists hash. split; [assumption|apply N.eqb_refl].
Qed.

Lemma well_formed_clean content name :
  In name ["FIRMWARE_VERSION_STRING"; "FIRMWARE_VERSION_FULL"]%string ->
  well_formed content = true ->
  clean (string_occ (label name)) (mark content).
Proof.
  intros Hn Hw G1 P G3 Ho. unfold well_formed in Hw.
  apply andb_prop in Hw as [_ Hw]. rewrite forallb_forall in Hw.
  apply lower_occurs in Ho as (pre & suf & r & Es & Em).
  rewrite erase_mark in Es. rewrite string_occ_groups in Em.
  destruct (match_groups (string_pattern name) suf) as [[gs r']|] eqn:E; [|discriminate].
  injection Em as _ E2 _ _.
  assert (Hin : In (group 2 gs) (payloads (string_pattern name) content))
    by (apply occurs_in_payloads; now exists pre, suf, r').
  unfold free. rewrite <- E2. apply existsb_hash, negb_true_iff, Hw.
  apply in_or_app. simpl in Hn. destruct Hn as [<-|[<-|[]]]; auto.
Qed.

Lemma well_formed_found content key name :
  In (key, name) fields -> well_formed content = true ->
  exists gs, occurs_in (field_pattern name) content gs.
Proof.
  intros Hf Hw. unfold well_formed in Hw. apply andb_prop in Hw as [Hw _].
  rewrite forallb_forall in Hw.
  specialize (Hw (lit key, (field_pattern name, lit name))).
  cbn [fst snd] in Hw.
  destruct (re_search (field_pattern name) content) as [[i gs]|] eqn:E.
  - exists gs. eapply search_from_occurs, E.
  - assert (false = true); [|discriminate]. apply Hw.
    simpl in Hf. destruct Hf as [H|[H|[H|[H|[]]]]]; injection H as <- <-; simpl; tauto.
Qed.

Lemma clean_string_field_step Lp Lq v t t' :
  is_label Lp = true -> is_label Lq = true -> clash Lq Lp = true ->
  v <> [] -> all_in ClsDigit v -> msub (field_occ Lp) v t t' ->
  clean (string_occ Lq) t -> clean (string_occ Lq) t'.
Proof.
  intros HLp HLq Hcl Hv Hd H Hc G1 P G3 Ho.
  destruct (back_string_field Lp Lq v HLp HLq Hcl Hv Hd t t' H G1 P G3 Ho) as (P0 & Ho0 & HP).
  eapply msub_free; [|exact HP|eapply Hc, Ho0].
  apply all_in_digit_free; [now left|assumption].
Qed.

Lemma clean_string_string_step Ls Lf v t t' :
  is_label Ls = true -> is_label Lf = true -> clash Lf Ls = true ->
  ~ In hash v -> msub (string_occ Ls) v t t' ->
  clean (string_occ Lf) t -> clean (string_occ Lf) t'.
Proof.
  intros HLs HLf Hcl Hv H Hc G1 P G3 Ho.
  eapply Hc, (back_string_string Ls Lf v); eassumption.
Qed.

(** Forwards through the scan for an integer, for another integer. *)
Lemma fwd_field_field p q v t t' G1 P G3 :
  In p (map snd fields) -> In q (map snd fields) -> p <> q ->
  msub (field_occ (label p)) v t t' ->
  occurs (field_occ (label q)) t G1 P G3 -> occurs (field_occ (label q)) t' G1 P G3.
Proof.
  intros Hp Hq Hd H.
  assert (HLp : is_label (label p) = true)
    by (simpl in Hp; decompose [or] Hp; subst; try reflexivity; contradiction).
  apply (fwd_field (field_occ (label p)) v (label q)); auto.
  - apply field_occ_sound. discriminate.
  - now apply field_occ_hash.
  - simpl in Hq; decompose [or] Hq; subst; try reflexivity; contradiction.
  - apply field_apart_field.
    simpl in Hp, Hq; decompose [or] Hp; decompose [or] Hq; subst;
      try reflexivity; try contradiction; congruence.
  - intros A1 B A3 r E _. now apply (field_region (label p) A1 B A3 r).
  - now apply field_clean.
Qed.

(** Forwards through the scan for a string, for an integer. *)
Lemma fwd_field_string p q v t t' G1 P G3 :
  In p ["FIRMWARE_VERSION_STRING"; "FIRMWARE_VERSION_FULL"]%string ->
  In q (map snd fields) ->
  msub (string_occ (label p)) v t t' -> clean (string_occ (label p)) t ->
  occurs (field_occ (label q)) t G1 P G3 -> occurs (field_occ (label q)) t' G1 P G3.
Proof.
  intros Hp Hq H Hc.
  assert (HLp : is_label (label p) = true)
    by (simpl in Hp; decompose [or] Hp; subst; try reflexivity; contradiction).
  apply (fwd_field (string_occ (label p)) v (label q)); auto.
  - apply string_occ_sound.
  - now apply string_occ_hash.
  - simpl in Hq; decompose [or] Hq; subst; try reflexivity; contradiction.
  - apply string_apart_field.
    simpl in Hp, Hq; decompose [or] Hp; decompose [or] Hq; subst;
      try reflexivity; contradiction.
  - intros A1 B A3 r E. now apply (string_region (label p) A1 B A3 r).
Qed.

(** In a well-formed file every integer is still declared after the
    rewriting. *)
Lemma new_content_keeps versions content key name :
  well_formed content = true -> In (key, name) fields ->
  exists gs, occurs_in (field_pattern name) (new_content versions content) gs.
Proof.
  intros Hw Hf.
  destruct (well_formed_found content key name Hf Hw) as (gs0 & pre0 & suf0 & r0 & Es0 & Em0).
  destruct (trace_exists versions (mark content)) as (t1 & t2 & t3 & t4 & t5 & t6 & Ht).
  pose proof (trace_erase _ _ _ _ _ _ _ _ Ht) as E6. rewrite erase_mark in E6.
  destruct Ht as (H1 & H2 & H3 & H4 & H5 & H6).
  assert (Hn : In name (map snd fields)) by (apply in_map_iff; now exists (key, name)).
  assert (Eo : field_occ (label name) suf0 = Some (group 1 gs0, group 2 gs0, group 3 gs0, r0))
    by (rewrite field_occ_groups; now rewrite Em0).
  rewrite <- (erase_mark content) in Es0.
  destruct (lift_occurs _ _ _ _ _ _ _ _
              (field_occ_sound _ (label_nonempty name)) Es0 Eo)
    as (G1 & P & G3 & Ho & _).
  pose proof (fun n => str_nonempty n) as Hne.
  pose proof (fun n => str_all_digits n) as Hd.
  (* the string payloads stay free of [#] *)
  assert (K : forall q, In q ["FIRMWARE_VERSION_STRING"; "FIRMWARE_VERSION_FULL"]%string ->
                        clean (string_occ (label q)) t4).
  { intros q Hq.
    assert (HLq : is_label (label q) = true)
      by (simpl in Hq; decompose [or] Hq; subst; try reflexivity; contradiction).
    apply (clean_string_field_step (label "FIRMWARE_BUILD_NUMBER") (label q)
             (str (lookup versions "build")) t3 t4 eq_refl HLq);
      [simpl in Hq; decompose [or] Hq; subst; try reflexivity; contradiction
      |apply Hne|apply Hd|exact H4|].
    apply (clean_string_field_step (label "FIRMWARE_VERSION_PATCH") (label q)
             (str (lookup versions "patch")) t2 t3 eq_refl HLq);
      [simpl in Hq; decompose [or] Hq; subst; try reflexivity; contradiction
      |apply Hne|apply Hd|exact H3|].
    apply (clean_string_field_step (label "FIRMWARE_VERSION_MINOR") (label q)
             (str (lookup versions "minor")) t1 t2 eq_refl HLq);
      [simpl in Hq; decompose [or] Hq; subst; try reflexivity; contradiction
      |apply Hne|apply Hd|exact H2|].
    apply (clean_string_field_step (label "FIRMWARE_VERSION_MAJOR") (label q)
             (str (lookup versions "major")) (mark content) t1 eq_refl HLq);
      [simpl in Hq; decompose [or] Hq; subst; try reflexivity; contradiction
      |apply Hne|apply Hd|exact H1|].
    now apply well_formed_clean. }
  assert (K5 : clean (string_occ (label "FIRMWARE_VERSION_STRING")) t4)
    by (apply K; simpl; tauto).
  assert (K6 : clean (string_occ (label "FIRMWARE_VERSION_FULL")) t5).
  { apply (clean_string_string_step (label "FIRMWARE_VERSION_STRING")
             (label "FIRMWARE_VERSION_FULL") (version_text versions) t4 t5);
      auto; [apply version_text_no_hash|]. apply K. simpl. tauto. }
  (* the declaration goes through the four scans for integers *)
  assert (Ho4 : exists P', occurs (field_occ (label name)) t4 G1 P' G3).
  { simpl in Hf. destruct Hf as [E|[E|[E|[E|[]]]]]; injection E as <- <-.
    - apply (fwd_same (label "FIRMWARE_VERSION_MAJOR") _ eq_refl (Hne _) (Hd _) _ _ H1) in Ho.
      apply (fwd_field_field "FIRMWARE_VERSION_MINOR" "FIRMWARE_VERSION_MAJOR" _ _ _ _ _ _
               ltac:(simpl; tauto) ltac:(simpl; tauto) ltac:(discriminate) H2) in Ho.
      apply (fwd_field_field "FIRMWARE_VERSION_PATCH" "FIRMWARE_VERSION_MAJOR" _ _ _ _ _ _
               ltac:(simpl; tauto) ltac:(simpl; tauto) ltac:(discriminate) H3) in Ho.
      apply (fwd_field_field "FIRMWARE_BUILD_NUMBER" "FIRMWARE_VERSION_MAJOR" _ _ _ _ _ _
               ltac:(simpl; tauto) ltac:(simpl; tauto) ltac:(discriminate) H4) in Ho.
      eauto.
    - apply (fwd_field_field "FIRMWARE_VERSION_MAJOR" "FIRMWARE_VERSION_MINOR" _ _ _ _ _ _
               ltac:(simpl; tauto) ltac:(simpl; tauto) ltac:(discriminate) H1) in Ho.
      apply (fwd_same (label "FIRMWARE_VERSION_MINOR") _ eq_refl (Hne _) (Hd _) _ _ H2) in Ho.
      apply (fwd_field_field "FIRMWARE_VERSION_PATCH" "FIRMWARE_VERSION_MINOR" _ _ _ _ _ _
               ltac:(simpl; tauto) ltac:(simpl; tauto) ltac:(discriminate) H3) in Ho.
      apply (fwd_field_field "FIRMWARE_BUILD_NUMBER" "FIRMWARE_VERSION_MINOR" _ _ _ _ _ _
               ltac:(simpl; tauto) ltac:(simpl; tauto) ltac:(discriminate) H4) in Ho.
      eauto.
    - apply (fwd_field_field "FIRMWARE_VERSION_MAJOR" "FIRMWARE_VERSION_PATCH" _ _ _ _ _ _
               ltac:(simpl; tauto) ltac:(simpl; tauto) ltac:(discriminate) H1) in Ho.
      apply (fwd_field_field "FIRMWARE_VERSION_MINOR" "FIRMWARE_VERSION_PATCH" _ _ _ _ _ _
               ltac:(simpl; tauto) ltac:(simpl; tauto) ltac:(discriminate) H2) in Ho.
      apply (fwd_same (label "FIRMWARE_VERSION_PATCH") _ eq_refl (Hne _) (Hd _) _ _ H3) in Ho.
      apply (fwd_field_field "FIRMWARE_BUILD_NUMBER" "FIRMWARE_VERSION_PATCH" _ _ _ _ _ _
               ltac:(simpl; tauto) ltac:(simpl; tauto) ltac:(discriminate) H4) in Ho.
      eauto.
    - apply (fwd_field_field "FIRMWARE_VERSION_MAJOR" "FIRMWARE_BUILD_NUMBER" _ _ _ _ _ _
               ltac:(simpl; tauto) ltac:(simpl; tauto) ltac:(discriminate) H1) in Ho.
      apply (fwd_field_field "FIRMWARE_VERSION_MINOR" "FIRMWARE_BUILD_NUMBER" _ _ _ _ _ _
               ltac:(simpl; tauto) ltac:(simpl; tauto) ltac:(discriminate) H2) in Ho.
      apply (fwd_field_field "FIRMWARE_VERSION_PATCH" "FIRMWARE_BUILD_NUMBER" _ _ _ _ _ _
               ltac:(simpl; tauto) ltac:(simpl; tauto) ltac:(discriminate) H3) in Ho.
      apply (fwd_same (label "FIRMWARE_BUILD_NUMBER") _ eq_refl (Hne _) (Hd _) _ _ H4) in Ho.
      eauto. }
  destruct Ho4 as (P' & Ho4).
  apply (fwd_field_string "FIRMWARE_VERSION_STRING" name _ _ _ _ _ _
           ltac:(simpl; tauto) Hn H5 K5) in Ho4.
  apply (fwd_field_string "FIRMWARE_VERSION_FULL" name _ _ _ _ _ _
           ltac:(simpl; tauto) Hn H6 K6) in Ho4.
  apply lower_occurs in Ho4 as (pre & suf & r & Es & Em).
  rewrite field_occ_groups in Em.
  destruct (match_groups (field_pattern name) suf) as [[gs r']|] eqn:E; [|discriminate].
  exists gs, pre, suf, r'. split; [congruence|assumption].
Qed.

(** Reading back what was written: in a well-formed file the extraction
    finds the values that the rewriting put there. *)
Lemma reparse versions content :
  well_formed content = true ->
  parse (new_content versions content)
  = record (lookup versions "major") (lookup versions "minor")
           (lookup versions "patch") (lookup versions "build").
Proof.
  intros Hw.
  assert (V : forall key name, In (key, name) fields ->
              field_value (new_content versions content) name = lookup versions key).
  { intros key name Hf. unfold field_value.
    destruct (new_content_keeps versions content key name Hw Hf) as (gs0 & Ho).
    destruct (occurs_search_from _ 0 _ _ Ho) as (j & gs & Es).
    unfold re_search. rewrite Es.
    apply search_from_occurs in Es.
    rewrite (new_content_fields versions content key name gs Hf Es).
    apply int_str. }
  unfold parse.
  rewrite (V "major" "FIRMWARE_VERSION_MAJOR")%string by (simpl; tauto).
  rewrite (V "minor" "FIRMWARE_VERSION_MINOR")%string by (simpl; tauto).
  rewrite (V "patch" "FIRMWARE_VERSION_PATCH")%string by (simpl; tauto).
  rewrite (V "build" "FIRMWARE_BUILD_NUMBER")%string by (simpl; tauto).
  reflexivity.
Qed.

End Trace.

(** ** Blocks of the frame, and single scans on plain text *)

Section Blocks.

Context {U : UnicodeTables}.

(** *** Pieces of the frame *)

Lemma frame_nil_inv s : frame [] s -> s = [].
Proof.
  intros H. remember [] as t eqn:E. destruct H as [| |o n t s Ho _ _]; auto.
  - discriminate.
  - destruct o; [congruence|discriminate].
Qed.

Lemma frame_split t s :
  frame t s -> forall A B,
  t = A ++ B -> match B with [] => True | x :: _ => snd x = false end ->
  exists A' B', s = A' ++ B' /\ frame A A' /\ frame B B'.
Proof.
  induction 1 as [|c b t s H IH|o n t s Ho Hm H IH]; intros A B E HB.
  - destruct A; [|discriminate]. destruct B; [|discriminate].
    exists [], []. repeat split; constructor.
  - destruct A as [|x A].
    + simpl in E. subst B. exists [], (c :: s). repeat split; constructor; assumption.
    + injection E as <- E.
      destruct (IH A B E HB) as (A' & B' & -> & HA & HB').
      exists (c :: A'), B'. repeat split; [constructor|]; assumption.
  - destruct (app_cases o t A B E) as [(k & Eo & Ek)|(k & Hk & EA & Et)].
    + subst o B. destruct k as [|x k].
      * rewrite app_nil_r in *. exists n, s. repeat split; [|assumption].
        rewrite <- (app_nil_r A), <- (app_nil_r n). constructor; [assumption..|constructor].
      * exfalso. simpl in HB. apply Forall_app in Hm as [_ Hm].
        inversion Hm; subst. congruence.
    + subst A t.
      destruct (IH k B eq_refl HB) as (A' & B' & -> & HA & HB').
      exists (n ++ A'), B'. rewrite <- app_assoc. repeat split; [|assumption].
      now constructor.
Qed.

(** A block of unmarked characters is copied. *)
Lemma frame_unmarked B : Forall (fun x => snd x = false) B ->
  forall C s, frame (B ++ C) s -> exists C', s = erase B ++ C' /\ frame C C'.
Proof.
  induction 1 as [|[c b] B Hb HB IH]; intros C s H.
  - exists s. auto.
  - simpl in Hb. subst b. remember (((c, false) :: B) ++ C) as t eqn:E.
    destruct H as [|c' b' t s H|o n t s Ho Hm H].
    + discriminate.
    + injection E as -> -> ->. destruct (IH _ _ H) as (C' & -> & HC).
      exists C'. auto.
    + exfalso. destruct o as [|x o]; [congruence|].
      injection E as -> _. inversion Hm; subst. discriminate.
Qed.

(** The frame around a block of unmarked characters: the block is copied,
    and what stands before it and after it is framed on its own. *)
Lemma frame_block A B C s :
  frame (A ++ B ++ C) s -> B <> [] -> Forall (fun x => snd x = false) B ->
  exists A' C', s = A' ++ erase B ++ C' /\ frame A A' /\ frame C C'.
Proof.
  intros H Hn HB.
  destruct (frame_split _ _ H A (B ++ C) eq_refl) as (A' & S' & -> & HA & HS).
  { destruct B as [|x B]; [congruence|]. now inversion HB. }
  destruct (frame_unmarked B HB C S' HS) as (C' & -> & HC).
  exists A', C'. auto.
Qed.

(** *** Declarations with an empty payload *)

Lemma match_string_empty L ws r :
  all_in ClsSpace ws -> match_string L (L ++ ws ++ quote :: quote :: r) = None.
Proof.
  intros Hws. unfold match_string. rewrite strip_prefix_app.
  assert (En : run ClsSpace (ws ++ quote :: quote :: r) = List.length ws).
  { apply run_app; [assumption|]. simpl. apply quote_not_space. }
  rewrite En, skipn_app_exact. cbn [strip_prefix].
  rewrite N.eqb_refl. cbn [run in_class].
  rewrite N.eqb_refl. cbn [negb skipn strip_prefix]. rewrite N.eqb_refl.
  destruct (List.length ws); reflexivity.
Qed.

Lemma empty_decl_no_match name ws r :
  all_in ClsSpace ws ->
  match_groups (string_pattern name) (empty_decl name ws ++ r) = None.
Proof.
  intros Hws. unfold string_pattern, empty_decl. fold (label name).
  rewrite match_string_eq. rewrite <- !app_assoc. cbn [app].
  now apply match_string_empty.
Qed.

Lemma is_infix_app d pre r : is_infix d (pre ++ d ++ r) = true.
Proof.
  induction pre as [|c pre IH]; cbn [app].
  - destruct (d ++ r) eqn:E; cbn [is_infix]; rewrite <- ?E, strip_prefix_app; reflexivity.
  - cbn [is_infix]. rewrite IH. now destruct (strip_prefix d (c :: pre ++ d ++ r)).
Qed.

(** *** Well-formed files stay well formed *)

Lemma payloads_occurs p s P :
  In P (payloads p s) -> exists gs, occurs_in p s gs /\ group 2 gs = P.
Proof.
  unfold payloads. rewrite in_flat_map. intros (i & _ & Hi).
  destruct (match_groups p (skipn i s)) as [[gs r]|] eqn:E; [|contradiction].
  destruct Hi as [<-|[]]. exists gs. split; [|reflexivity].
  exists (firstn i s), (skipn i s), r. split; [|assumption].
  symmetry. apply firstn_skipn.
Qed.

Lemma hash_existsb P : ~ In hash P -> existsb (N.eqb hash) P = false.
Proof.
  intros H. destruct (existsb (N.eqb hash) P) eqn:E; [|reflexivity].
  apply existsb_exists in E as (c & Hc & Ec). apply N.eqb_eq in Ec. now subst.
Qed.

Lemma well_formed_new_content versions content :
  well_formed content = true -> well_formed (new_content versions content) = true.
Proof.
  intros Hw. unfold well_formed. apply andb_true_intro. split.
  - apply forallb_forall. intros entry He.
    assert (F : forall key name, In (key, name) fields ->
              re_search (field_pattern name) (new_content versions content) <> None).
    { intros key name Hf.
      destruct (new_content_keeps versions content key name Hw Hf) as (gs & Ho).
      destruct (occurs_search_from _ 0 _ _ Ho) as (j & gs' & Es).
      unfold re_search. now rewrite Es. }
    simpl in He. destruct He as [<-|[<-|[<-|[<-|[]]]]]; cbn [fst snd].
    + specialize (F "major"%string "FIRMWARE_VERSION_MAJOR"%string ltac:(simpl; tauto)).
      now destruct (re_search _ _).
    + specialize (F "minor"%string "FIRMWARE_VERSION_MINOR"%string ltac:(simpl; tauto)).
      now destruct (re_search _ _).
    + specialize (F "patch"%string "FIRMWARE_VERSION_PATCH"%string ltac:(simpl; tauto)).
      now destruct (re_search _ _).
    + specialize (F "build"%string "FIRMWARE_BUILD_NUMBER"%string ltac:(simpl; tauto)).
      now destruct (re_search _ _).
  - apply forallb_forall. intros P HP. apply in_app_iff in HP.
    apply negb_true_iff, hash_existsb.
    destruct HP as [HP|HP]; apply payloads_occurs in HP as (gs & Ho & <-).
    + rewrite (proj1 (new_content_strings versions content gs) Ho).
      apply version_text_no_hash.
    + rewrite (proj2 (new_content_strings versions content gs) Ho).
      apply full_text_no_hash.
Qed.

(** *** One scan for an integer, on plain text *)

Lemma field_groups name suf gs r :
  match_groups (field_pattern name) suf = Some (gs, r) ->
  gs = [group 1 gs; group 2 gs].
Proof.
  unfold field_pattern. fold (label name). rewrite match_field_eq. intros E.
  apply match_field_at in E as (ws & d & -> & _). reflexivity.
Qed.

(** After the scan for an integer, each of its declarations carries the
    new digits. *)
Lemma field_sub_every name v content gs :
  In name (map snd fields) -> v <> [] -> all_in ClsDigit v ->
  occurs_in (field_pattern name) (field_sub (label name) v content) gs ->
  group 2 gs = v.
Proof.
  intros Hn Hv Hd (pre & suf & r & Es & Em).
  pose proof (field_occ_sound _ (label_nonempty name)) as Hs.
  destruct (msub_total _ v Hs (mark content)) as (t' & H).
  pose proof (field_sub_msub _ _ _ _ (label_nonempty name) H) as E.
  rewrite erase_mark in E. rewrite <- E in Es.
  assert (Eo : field_occ (label name) suf = Some (group 1 gs, group 2 gs, group 3 gs, r))
    by (rewrite field_occ_groups; now rewrite Em).
  destruct (lift_occurs _ _ _ _ _ _ _ _ Hs Es Eo) as (G1 & P & G3 & Ho & _ & <- & _).
  apply (back_same (label name) v) with (t := mark content) (t' := t') (G1 := G1) (G3 := G3);
    auto.
  simpl in Hn; decompose [or] Hn; subst; try reflexivity; contradiction.
Qed.

(** The scan turns every declaration of the integer into one with the same
    first group and the new digits. *)
Lemma field_sub_keeps name v content gs :
  In name (map snd fields) -> v <> [] -> all_in ClsDigit v ->
  occurs_in (field_pattern name) content gs ->
  occurs_in (field_pattern name) (field_sub (label name) v content) [group 1 gs; v].
Proof.
  intros Hn Hv Hd (pre & suf & r & Es & Em).
  pose proof (field_occ_sound _ (label_nonempty name)) as Hs.
  destruct (msub_total _ v Hs (mark content)) as (t' & H).
  pose proof (field_sub_msub _ _ _ _ (label_nonempty name) H) as E.
  rewrite erase_mark in E. rewrite <- E.
  assert (Eo : field_occ (label name) suf = Some (group 1 gs, group 2 gs, group 3 gs, r))
    by (rewrite field_occ_groups; now rewrite Em).
  rewrite <- (erase_mark content) in Es.
  destruct (lift_occurs _ _ _ _ _ _ _ _ Hs Es Eo) as (G1 & P & G3 & Ho & E1 & _ & _).
  assert (HL : is_label (label name) = true)
    by (simpl in Hn; decompose [or] Hn; subst; try reflexivity; contradiction).
  pose proof (fwd_same (label name) v HL Hv Hd _ _ H _ _ _ Ho) as Ho'.
  apply lower_occurs in Ho' as (pre' & suf' & r' & Es' & Em').
  rewrite field_occ_groups in Em'.
  destruct (match_groups (field_pattern name) suf') as [[gs' r'']|] eqn:Eg; [|discriminate].
  injection Em' as E1' E2' _ _.
  exists pre', suf', r''. split; [assumption|].
  rewrite Eg, (field_groups _ _ _ _ Eg), E1', E2', E1, erase_fresh. reflexivity.
Qed.

(** *** A declaration outside every payload span *)

Lemma mark_length s : List.length (mark s) = List.length s.
Proof.
  rewrite <- (erase_mark s) at 2. unfold erase. now rewrite length_map.
Qed.

Lemma outside_unmarked s i n :
  outside_payloads s i n = true -> (i + n <= List.length s)%nat ->
  Forall (fun x => snd x = false) (firstn n (skipn i (mark s))).
Proof.
  intros Ho Hl. apply Forall_forall. intros x Hx.
  apply In_nth with (d := (0%N, false)) in Hx as (j & Hj & <-).
  rewrite length_firstn, length_skipn, mark_length in Hj.
  rewrite nth_firstn. replace (j <? n)%nat with true by (symmetry; apply Nat.ltb_lt; lia).
  rewrite nth_skipn.
  unfold outside_payloads in Ho. rewrite forallb_forall in Ho.
  specialize (Ho (i + j)%nat). rewrite in_seq in Ho.
  rewrite nth_mark by lia. cbn [snd].
  apply negb_true_iff, Ho. lia.
Qed.

(** A block of the input that no payload span touches stands in the
    output as it is, between the images of what was before it and of
    what was after it. *)
Lemma new_content_block versions pre D r :
  D <> [] ->
  outside_payloads (pre ++ D ++ r) (List.length pre) (List.length D) = true ->
  exists pre' r',
    new_content versions (pre ++ D ++ r) = pre' ++ D ++ r' /\
    frame (firstn (List.length pre) (mark (pre ++ D ++ r))) pre' /\
    frame (skipn (List.length pre + List.length D) (mark (pre ++ D ++ r))) r'.
Proof.
  intros HD Ho. set (s := pre ++ D ++ r) in *.
  pose proof (new_content_frame versions s) as F.
  set (A := firstn (List.length pre) (mark s)).
  set (B := firstn (List.length D) (skipn (List.length pre) (mark s))).
  set (C := skipn (List.length pre + List.length D) (mark s)).
  assert (Em : mark s = A ++ B ++ C).
  { unfold A, B, C. rewrite (Nat.add_comm (List.length pre)), <- skipn_skipn.
    now rewrite !firstn_skipn. }
  assert (EB : erase B = D).
  { unfold B, erase. rewrite <- firstn_map, <- skipn_map. fold (erase (mark s)).
    rewrite erase_mark. unfold s. now rewrite skipn_app_exact, firstn_app_exact0. }
  rewrite Em in F.
  destruct (frame_block A B C _ F) as (A' & C' & E & HA & HC).
  - intros EBn. rewrite EBn in EB. simpl in EB. congruence.
  - apply outside_unmarked; [assumption|]. unfold s. rewrite !length_app. lia.
  - exists A', C'. rewrite E, EB. auto.
Qed.

End Blocks.

(** ** Line endings and the characters of the rewritten text *)

Section Lines.

Context {U : UnicodeTables} {P : Platform}.

(** *** Line endings *)

Lemma universal_newlines_cons c s :
  c <> cr -> universal_newlines (c :: s) = c :: universal_newlines s.
Proof. intros H. cbn [universal_newlines]. apply N.eqb_neq in H. now rewrite H. Qed.

Lemma universal_newlines_no_cr_upto n :
  forall s, (List.length s <= n)%nat -> ~ In cr (universal_newlines s).
Proof.
  induction n as [|n IH]; intros s Hl.
  - destruct s; [intros []|simpl in Hl; lia].
  - destruct s as [|c s]; [intros []|]. simpl in Hl. cbn [universal_newlines].
    destruct (c =? cr)%N eqn:E.
    + intros [H|H]; [discriminate|]. destruct s as [|c' s]; [contradiction|].
      simpl in Hl. destruct (c' =? newline)%N.
      * revert H. apply IH. lia.
      * revert H. apply IH. simpl. lia.
    + apply N.eqb_neq in E. intros [H|H]; [congruence|].
      revert H. apply IH. lia.
Qed.

(** What the script reads holds no carriage return. *)
Lemma universal_newlines_no_cr s : ~ In cr (universal_newlines s).
Proof. now apply (universal_newlines_no_cr_upto (List.length s)). Qed.

Lemma universal_newlines_id s : ~ In cr s -> universal_newlines s = s.
Proof.
  induction s as [|c s IH]; intros H; [reflexivity|].
  rewrite universal_newlines_cons by (intros ->; apply H; now left).
  f_equal. apply IH. intros Hc. apply H. now right.
Qed.

Lemma to_linesep_posix s : linesep = [newline] -> to_linesep s = s.
Proof.
  intros E. unfold to_linesep. rewrite E.
  induction s as [|c s IH]; [reflexivity|]. cbn [flat_map].
  rewrite IH. destruct (c =? newline)%N eqn:Ec; [|reflexivity].
  apply N.eqb_eq in Ec. now subst.
Qed.

(** Reading back what was written gives the text that was written, when
    it holds no carriage return. *)
Lemma reread s : ~ In cr s -> universal_newlines (to_linesep s) = s.
Proof.
  induction s as [|c s IH]; intros H; [reflexivity|].
  assert (Hs : ~ In cr s) by (intros Hc; apply H; now right).
  assert (Hc : c <> cr) by (intros ->; apply H; now left).
  unfold to_linesep. cbn [flat_map]. fold (to_linesep s).
  destruct (c =? newline)%N eqn:E.
  - apply N.eqb_eq in E. subst c.
    destruct linesep_known as [-> | ->].
    + cbn [app]. rewrite universal_newlines_cons by discriminate. now rewrite IH.
    + cbn [app universal_newlines]. rewrite !N.eqb_refl. now rewrite IH.
  - cbn [app]. rewrite universal_newlines_cons by assumption. now rewrite IH.
Qed.

(** *** The characters of the rewritten text *)

Lemma msub_chars m v t t' :
  msub m v t t' -> forall c, In c (erase t') -> In c (erase t) \/ In c v.
Proof.
  induction 1 as [|x t t' _ _ IH|G1 Pl G3 r r' _ _ IH]; intros c Hc.
  - now left.
  - cbn [erase map] in *. destruct Hc as [Hc|Hc]; [left; now left|].
    destruct (IH c Hc); [left; now right|now right].
  - rewrite !erase_app, erase_fresh, !in_app_iff in Hc. rewrite !erase_app, !in_app_iff.
    destruct Hc as [Hc|[Hc|[Hc|Hc]]]; auto.
    destruct (IH c Hc); auto.
Qed.

Lemma str_no_cr n : ~ In cr (str n).
Proof.
  intros H. pose proof (str_digits n) as Hd. rewrite Forall_forall in Hd.
  specialize (Hd _ H). discriminate.
Qed.

Lemma version_text_no_cr vs : ~ In cr (version_text vs).
Proof.
  unfold version_text. rewrite !in_app_iff.
  intros [H|[H|[H|[H|[H|[H|H]]]]]];
    try (now apply str_no_cr in H);
    simpl in H; unfold cr in H; intuition discriminate.
Qed.

Lemma full_text_no_cr vs : ~ In cr (full_text vs).
Proof.
  unfold full_text. rewrite in_app_iff. intros [H|H].
  - simpl in H. unfold cr in H. intuition discriminate.
  - now apply version_text_no_cr in H.
Qed.

(** The rewriting brings in no carriage return. *)
Lemma new_content_no_cr versions content :
  ~ In cr content -> ~ In cr (new_content versions content).
Proof.
  intros Hc.
  destruct (trace_exists versions (mark content)) as (t1 & t2 & t3 & t4 & t5 & t6 & Ht).
  pose proof (trace_erase _ _ _ _ _ _ _ _ Ht) as E6. rewrite erase_mark in E6.
  destruct Ht as (H1 & H2 & H3 & H4 & H5 & H6). rewrite <- E6.
  intros H.
  apply (msub_chars _ _ _ _ H6) in H as [H|H]; [|now apply full_text_no_cr in H].
  apply (msub_chars _ _ _ _ H5) in H as [H|H]; [|now apply version_text_no_cr in H].
  apply (msub_chars _ _ _ _ H4) in H as [H|H]; [|now apply str_no_cr in H].
  apply (msub_chars _ _ _ _ H3) in H as [H|H]; [|now apply str_no_cr in H].
  apply (msub_chars _ _ _ _ H2) in H as [H|H]; [|now apply str_no_cr in H].
  apply (msub_chars _ _ _ _ H1) in H as [H|H]; [|now apply str_no_cr in H].
  rewrite erase_mark in H. contradiction.
Qed.

End Lines.

(** * The properties of the specification *)

Section Claims.

Context {U : UnicodeTables} {P : Platform}.

(** ** The runs of the script *)

Lemma increment_version_unknown path k w raw :
  files w path = Some raw -> ~ In k kinds ->
  increment_version path k w =
  (Ok false,
   to_stderr (fold_left to_stderr (warnings (universal_newlines raw)) w)
             (unknown_type_line k)).
Proof.
  intros Hf Hk. apply files_Some in Hf. unfold increment_version.
  rewrite (bind_ok (path_exists path) _ w true w)
    by (unfold path_exists; now rewrite Hf).
  cbn [negb].
  rewrite (bind_ok (read_text path) _ w (universal_newlines raw) w)
    by (unfold read_text; now rewrite Hf).
  rewrite (bind_ok _ _ _ _ _ (extract_run (universal_newlines raw) w)).
  assert (Hm : dict_mem (parse (universal_newlines raw)) k = false).
  { unfold parse. rewrite dict_mem_record.
    destruct (existsb (text_eqb k) kinds) eqn:E; [|reflexivity].
    apply kinds_mem in E. contradiction. }
  rewrite Hm. reflexivity.
Qed.

Lemma increment_version_missing path k w :
  nodes w path = Absent ->
  increment_version path k w = (Ok false, to_stderr w (not_found_line path)).
Proof.
  intros Hf. unfold increment_version.
  rewrite (bind_ok (path_exists path) _ w false w)
    by (unfold path_exists; now rewrite Hf).
  reflexivity.
Qed.

(** What is at the path is not a file that can be read: the run ends in
    the exception of the call that finds it out. *)
Lemma increment_version_raises path k w :
  (nodes w path = Unreachable ->
   increment_version path k w = (Raise (OSError path), w)) /\
  (nodes w path = Directory ->
   increment_version path k w = (Raise (IsADirectoryError path), w)) /\
  (nodes w path = Undecodable ->
   increment_version path k w = (Raise (UnicodeDecodeError path), w)).
Proof.
  repeat split; intros Hf; unfold increment_version, bind, path_exists, read_text;
    rewrite Hf; cbn [negb]; rewrite ?Hf; reflexivity.
Qed.

Lemma files_store w path c : files (store w path c) path = Some c.
Proof. unfold files. cbn [store nodes]. now rewrite text_eqb_refl. Qed.

Lemma files_store_other w path c q :
  q <> path -> files (store w path c) q = files w q.
Proof.
  intros Hq. unfold files. cbn [store nodes].
  destruct (text_eqb q path) eqn:E; [|reflexivity].
  apply text_eqb_eq in E. contradiction.
Qed.

(** The file that a successful run leaves behind. *)
Lemma increment_version_written path k w raw :
  files w path = Some raw -> In k kinds ->
  files (snd (increment_version path k w)) path
  = Some (to_linesep (new_content (bump k (parse (universal_newlines raw)))
                                  (universal_newlines raw))).
Proof.
  intros Hf Hk. rewrite (increment_version_run _ _ _ _ Hf Hk).
  cbn [snd]. unfold files. cbn [to_stdout nodes]. apply files_store.
Qed.

Lemma lookup_parse content key name :
  In (key, name) fields -> lookup (parse content) key = field_value content name.
Proof.
  intros H. simpl in H. destruct H as [E|[E|[E|[E|[]]]]]; injection E as <- <-; reflexivity.
Qed.

Lemma record_lookup versions a b c d :
  versions = record a b c d ->
  record (lookup versions "major") (lookup versions "minor")
         (lookup versions "patch") (lookup versions "build") = versions.
Proof. now intros ->. Qed.

Lemma version_text_record a b c d :
  version_text (record a b c d)
  = str a ++ lit "." ++ str b ++ lit "." ++ str c ++ lit "-" ++ str d.
Proof.
  unfold version_text.
  change (lookup (record a b c d) "major") with a.
  change (lookup (record a b c d) "minor") with b.
  change (lookup (record a b c d) "patch") with c.
  change (lookup (record a b c d) "build") with d.
  reflexivity.
Qed.

Lemma bump_parse k content :
  In k kinds -> exists a b c d, bump k (parse content) = record a b c d.
Proof. intros Hk. unfold parse. now apply bump_record. Qed.

(** An unmarked character of the input is a character of every text the
    frame allows. *)
Lemma frame_keeps t s c : frame t s -> In (c, false) t -> In c s.
Proof.
  induction 1 as [|c' b t s _ IH|o n t s _ Hm _ IH]; intros Hin.
  - contradiction.
  - destruct Hin as [E|Hin]; [injection E as -> _; now left|right; auto].
  - apply in_app_iff in Hin as [Hin|Hin].
    + unfold marked in Hm. rewrite Forall_forall in Hm.
      specialize (Hm _ Hin). discriminate.
    + apply in_app_iff. right. auto.
Qed.

(** The values that the rewriting puts into the declarations. *)
Lemma new_content_declares a b c d content :
  declares (new_content (record a b c d) content) a b c d.
Proof.
  repeat split; intros gs Ho.
  - exact (new_content_fields (record a b c d) content "major" _ gs
             ltac:(left; reflexivity) Ho).
  - exact (new_content_fields (record a b c d) content "minor" _ gs
             ltac:(right; left; reflexivity) Ho).
  - exact (new_content_fields (record a b c d) content "patch" _ gs
             ltac:(right; right; left; reflexivity) Ho).
  - exact (new_content_fields (record a b c d) content "build" _ gs
             ltac:(right; right; right; left; reflexivity) Ho).
Qed.

(** The run with a valid increment type, in terms of [written]. *)
Lemma increment_version_ok path k w raw :
  files w path = Some raw -> In k kinds ->
  increment_version path k w =
  (Ok true, written w path (universal_newlines raw) k
                    (bump k (parse (universal_newlines raw)))).
Proof. intros Hf Hk. exact (increment_version_run _ _ _ _ Hf Hk). Qed.

Lemma reparse_record a b c d content :
  well_formed content = true ->
  parse (new_content (record a b c d) content) = record a b c d.
Proof. intros Hw. now rewrite (reparse _ _ Hw). Qed.

(** ** The claims *)

(** C1. Cascading resets.  Let the script read from the file the record
    [a.b.c-d].  Run with [major], it computes [a+1.0.0-d]: major is
    increased by exactly 1, minor and patch are set to 0, build is kept.
    Run with [minor], it computes [a.b+1.0-d].  In both cases the run
    returns [True], writes the text rewritten with exactly those values
    and reports them; every declaration of an integer in the text written
    holds the value computed for it, and a well-formed header read back
    gives the computed record. *)
Theorem cascading_reset path w raw a b c d :
  files w path = Some raw ->
  parse (universal_newlines raw) = record a b c d ->
  let content := universal_newlines raw in
  let major := record (a + 1) 0 0 d in
  let minor := record a (b + 1) 0 d in
  increment (record a b c d) (lit "major") w = (Ok major, w) /\
  increment (record a b c d) (lit "minor") w = (Ok minor, w) /\
  increment_version path (lit "major") w
    = (Ok true, written w path content (lit "major") major) /\
  increment_version path (lit "minor") w
    = (Ok true, written w path content (lit "minor") minor) /\
  declares (new_content major content) (a + 1) 0 0 d /\
  declares (new_content minor content) a (b + 1) 0 d /\
  (well_formed content = true ->
   parse (new_content major content) = major /\
   parse (new_content minor content) = minor).
Proof.
  intros Hf Hp content major minor.
  split; [reflexivity|]. split; [reflexivity|].
  split.
  { rewrite (increment_version_ok _ _ _ _ Hf ltac:(left; reflexivity)).
    now rewrite Hp. }
  split.
  { rewrite (increment_version_ok _ _ _ _ Hf ltac:(right; left; reflexivity)).
    now rewrite Hp. }
  split; [apply new_content_declares|]. split; [apply new_content_declares|].
  intros Hw. split; now apply reparse_record.
Qed.

(** C2. Plain increments.  Let the script read from the file the record
    [a.b.c-d].  Run with [build], it computes [a.b.c-d+1]: build is
    increased by exactly 1 and major, minor and patch are kept.  Run with
    [patch], it computes [a.b.c+1-d].  In both cases the run returns
    [True], writes the text rewritten with exactly those values and
    reports them; every declaration of an integer in the text written
    holds the value computed for it, and a well-formed header read back
    gives the computed record. *)
Theorem plain_increment path w raw a b c d :
  files w path = Some raw ->
  parse (universal_newlines raw) = record a b c d ->
  let content := universal_newlines raw in
  let build := record a b c (d + 1) in
  let patch := record a b (c + 1) d in
  increment (record a b c d) (lit "build") w = (Ok build, w) /\
  increment (record a b c d) (lit "patch") w = (Ok patch, w) /\
  increment_version path (lit "build") w
    = (Ok true, written w path content (lit "build") build) /\
  increment_version path (lit "patch") w
    = (Ok true, written w path content (lit "patch") patch) /\
  declares (new_content build content) a b c (d + 1) /\
  declares (new_content patch content) a b (c + 1) d /\
  (well_formed content = true ->
   parse (new_content build content) = build /\
   parse (new_content patch content) = patch).
Proof.
  intros Hf Hp content build patch.
  split; [reflexivity|]. split; [reflexivity|].
  split.
  { rewrite (increment_version_ok _ _ _ _ Hf
               ltac:(right; right; right; left; reflexivity)).
    now rewrite Hp. }
  split.
  { rewrite (increment_version_ok _ _ _ _ Hf ltac:(right; right; left; reflexivity)).
    now rewrite Hp. }
  split; [apply new_content_declares|]. split; [apply new_content_declares|].
  intros Hw. split; now apply reparse_record.
Qed.

(** C3. The frame property of the rewriting, on the text as the script
    reads and writes it.  [content] is the text that [read_text] returns
    (the file with every line ending read as a line feed) and [content']
    the text given to [write_text] (which writes every line feed as the
    line separator of the platform).  For every input and every valid
    increment type, [content'] is [content] in which only runs of
    characters inside payload spans (the digits of a match of one of the
    four integer patterns, the quoted payload of a match of one of the two
    string patterns, wherever in [content] the match begins) have been
    replaced: every character outside those spans is kept, in order, and
    nothing is inserted between two of them.  Every block of [content]
    that no span touches (keywords, labels, white space, quotes) stands in
    [content'] as it is, and no other file changes.  When the file holds
    no carriage return and the line separator is a line feed, [content]
    is the file that was there and [content'] the file that is written. *)
Theorem rewrite_frame path k w raw :
  files w path = Some raw -> In k kinds ->
  let content := universal_newlines raw in
  exists content',
    files (snd (increment_version path k w)) path = Some (to_linesep content') /\
    frame (mark content) content' /\
    (forall pre D r,
        content = pre ++ D ++ r -> D <> [] ->
        outside_payloads content (List.length pre) (List.length D) = true ->
        exists pre' r',
          content' = pre' ++ D ++ r' /\
          frame (firstn (List.length pre) (mark content)) pre' /\
          frame (skipn (List.length pre + List.length D) (mark content)) r') /\
    (forall q, q <> path -> files (snd (increment_version path k w)) q = files w q) /\
    (~ In cr raw -> content = raw) /\
    (linesep = [newline] -> to_linesep content' = content').
Proof.
  intros Hf Hk content. exists (new_content (bump k (parse content)) content).
  split; [now apply increment_version_written|].
  split; [apply new_content_frame|]. split; [|split; [|split]].
  - intros pre D r E HD Ho. rewrite E in *. now apply new_content_block.
  - intros q Hq. rewrite (increment_version_run _ _ _ _ Hf Hk).
    cbn [snd]. unfold files at 1. cbn [to_stdout nodes].
    change (files (store (fold_left to_stderr (warnings content) w) path
                         (to_linesep (new_content (bump k (parse content)) content))) q
            = files w q).
    rewrite files_store_other by assumption.
    now rewrite files_log.
  - apply universal_newlines_id.
  - apply to_linesep_posix.
Qed.

(** C4. With an increment type outside the four keys and an existing file,
    [increment_version] returns [False] after printing the error on the
    error stream, the process exits with status 1, and no file is written:
    the files and the standard output are as before. *)
Theorem unknown_increment_kind prog path k w raw :
  files w path = Some raw -> ~ In k kinds ->
  exists w',
    increment_version path k w = (Ok false, w') /\
    main [prog; path; k] w = (1%N, w') /\
    files w' = files w /\
    stdout w' = stdout w /\
    stderr w' = stderr w ++ warnings (universal_newlines raw) ++ [unknown_type_line k].
Proof.
  intros Hf Hk. eexists. split; [now apply increment_version_unknown with (raw := raw)|].
  split.
  { unfold main. cbn [List.length Nat.ltb Nat.leb nth].
    now rewrite (increment_version_unknown _ _ _ _ Hf Hk). }
  split; [unfold files; cbn [to_stderr nodes]; now rewrite nodes_log|].
  cbn [to_stderr stdout stderr].
  rewrite stdout_log, stderr_log, <- app_assoc. auto.
Qed.

(** C5. When nothing exists at the path ([Path.exists()] is false),
    [increment_version] prints the not-found error on the error stream
    and returns [False], the process exits with status 1, nothing is
    written and still nothing exists at the path. *)
Theorem file_not_found prog path rest k w :
  nodes w path = Absent ->
  increment_version path k w = (Ok false, to_stderr w (not_found_line path)) /\
  main (prog :: path :: rest) w = (1%N, to_stderr w (not_found_line path)) /\
  nodes (to_stderr w (not_found_line path)) = nodes w /\
  files (to_stderr w (not_found_line path)) = files w /\
  stdout (to_stderr w (not_found_line path)) = stdout w /\
  nodes (to_stderr w (not_found_line path)) path = Absent /\
  files (to_stderr w (not_found_line path)) path = None.
Proof.
  intros Hf. split; [now apply increment_version_missing|]. split.
  - unfold main. cbn [List.length nth].
    replace (1 <? S (S (List.length rest)))%nat with true by reflexivity.
    now rewrite increment_version_missing.
  - repeat split; [exact Hf|]. unfold files. cbn [to_stderr nodes]. now rewrite Hf.
Qed.

(** C6. After the increment the script computes the version string
    [major.minor.patch-build] from the four updated values and the full
    version [ESP32 RTP Transciever v] followed by the version string; the
    text it writes is the result of the two string substitutions on the
    text with the rewritten integers.  A substitution replaces the payload
    between the quotes and copies the label, the white space and the two
    quotes; in the text written, every declaration of the version string
    holds the computed string and every declaration of the full version
    holds the computed full version. *)
Theorem version_strings_rewritten path k w raw :
  files w path = Some raw -> In k kinds ->
  let content := universal_newlines raw in
  let versions := bump k (parse content) in
  exists a b c d content',
    versions = record a b c d /\
    version_string_of versions w
      = (Ok (str a ++ lit "." ++ str b ++ lit "." ++ str c ++ lit "-" ++ str d), w) /\
    version_text versions
      = str a ++ lit "." ++ str b ++ lit "." ++ str c ++ lit "-" ++ str d /\
    full_text versions = lit "ESP32 RTP Transciever v" ++ version_text versions /\
    files (snd (increment_version path k w)) path = Some (to_linesep content') /\
    content' =
      re_sub (string_pattern "FIRMWARE_VERSION_FULL")
             [TGroup 1; TText (full_text versions); TGroup 3]
        (re_sub (string_pattern "FIRMWARE_VERSION_STRING")
                [TGroup 1; TText (version_text versions); TGroup 3]
           (update_fields versions content)) /\
    (forall name v s ws Pl r,
        string_at (label name) s ws Pl r ->
        re_sub (string_pattern name) [TGroup 1; TText v; TGroup 3] s
        = label name ++ ws ++ quote :: v ++
          quote :: re_sub (string_pattern name) [TGroup 1; TText v; TGroup 3] r) /\
    (forall gs,
        occurs_in (string_pattern "FIRMWARE_VERSION_STRING") content' gs ->
        group 2 gs = version_text versions) /\
    (forall gs,
        occurs_in (string_pattern "FIRMWARE_VERSION_FULL") content' gs ->
        group 2 gs = full_text versions).
Proof.
  intros Hf Hk content versions.
  destruct (bump_parse k content Hk) as (a & b & c & d & E). fold versions in E.
  exists a, b, c, d, (new_content versions content).
  split; [assumption|]. rewrite E.
  split; [apply version_string_run|].
  split; [apply version_text_record|].
  rewrite <- E. split; [reflexivity|].
  split; [now apply increment_version_written|].
  split; [unfold new_content, string_sub, string_pattern, label; reflexivity|].
  split; [|split].
  - intros name v s ws Pl r H. apply (string_sub_match (label name) v s ws Pl r) in H.
    unfold string_sub in H. unfold string_pattern. fold (label name). exact H.
  - intros gs. exact (proj1 (new_content_strings versions content gs)).
  - intros gs. exact (proj2 (new_content_strings versions content gs)).
Qed.

(** C7. Missing fields are not fatal.  On the text [content] that the
    script reads, the extraction loop returns a dictionary that holds all
    four keys, and for every key whose pattern is found nowhere in the
    text it stores 0 and prints a warning on the error stream.  The run
    goes on: with a valid increment type it returns [True], its error
    stream holds exactly the warnings, that of the missing key among
    them, and the record it increments, writes and reports has the
    default in it: after the increment the missing key holds 0, or 1 when
    it is the key that was incremented. *)
Theorem missing_fields_default path w raw :
  let content := universal_newlines raw in
  for_each patterns (extract_step content) [] w
    = (Ok (parse content), fold_left to_stderr (warnings content) w) /\
  (forall key, In key kinds -> dict_mem (parse content) key = true) /\
  (forall key pat name,
      In (key, (pat, name)) patterns -> re_search pat content = None ->
      dict_get (parse content) key = Some 0%N /\
      In (warning_line key) (stderr (fold_left to_stderr (warnings content) w))) /\
  (forall k,
      files w path = Some raw -> In k kinds ->
      fst (increment_version path k w) = Ok true /\
      increment_version path k w
        = (Ok true, written w path content k (bump k (parse content))) /\
      stderr (snd (increment_version path k w)) = stderr w ++ warnings content /\
      forall key pat name,
        In (key, (pat, name)) patterns -> re_search pat content = None ->
        In (warning_line key) (stderr (snd (increment_version path k w))) /\
        (key <> k -> dict_get (bump k (parse content)) key = Some 0%N) /\
        (key = k -> dict_get (bump k (parse content)) key = Some 1%N)).
Proof.
  intros content.
  assert (Hmiss : forall key pat name,
             In (key, (pat, name)) patterns -> re_search pat content = None ->
             dict_get (parse content) key = Some 0%N /\
             In (warning_line key) (warnings content)).
  { intros key pat name Hin Hnone. split.
    - unfold parse, field_value.
      destruct Hin as [E|[E|[E|[E|[]]]]]; injection E as <- <- <-;
        rewrite Hnone; reflexivity.
    - unfold warnings. apply in_flat_map.
      exists (key, (pat, name)). split; [assumption|].
      cbn [fst snd]. rewrite Hnone. now left. }
  split; [apply extract_run|]. split; [|split].
  - intros key Hk. unfold parse. rewrite dict_mem_record. now apply kinds_mem.
  - intros key pat name Hin Hnone. destruct (Hmiss _ _ _ Hin Hnone) as [Hz Hw].
    split; [exact Hz|]. rewrite stderr_log. apply in_or_app. now right.
  - intros k Hf Hk.
    pose proof (increment_version_ok _ _ _ _ Hf Hk) as R. fold content in R.
    rewrite R. cbn [fst snd]. split; [reflexivity|]. split; [reflexivity|].
    assert (He : stderr (written w path content k (bump k (parse content)))
                 = stderr w ++ warnings content)
      by (unfold written; cbn [to_stdout store stderr]; apply stderr_log).
    split; [exact He|].
    intros key pat name Hin Hnone. destruct (Hmiss _ _ _ Hin Hnone) as [Hz Hw].
    split; [rewrite He; apply in_or_app; now right|].
    revert Hz. unfold parse.
    generalize (field_value content "FIRMWARE_VERSION_MAJOR"),
               (field_value content "FIRMWARE_VERSION_MINOR"),
               (field_value content "FIRMWARE_VERSION_PATCH"),
               (field_value content "FIRMWARE_BUILD_NUMBER").
    intros x y z t Hz.
    destruct Hin as [E|[E|[E|[E|[]]]]]; injection E as <- _ _;
      injection Hz as ->;
      destruct Hk as [<-|[<-|[<-|[<-|[]]]]];
      (split; [intros Hne; try reflexivity; exfalso; apply Hne; reflexivity
              |intros Heq; try reflexivity; vm_compute in Heq; discriminate]).
Qed.

(** C8. Running the script twice.  On a header that is well formed as the
    script reads it (each of the four integers is declared and no version
    string holds a [#]) and with a valid increment type [k], both runs
    succeed; the second run reads the text [c1] that the first run wrote
    and parses from it exactly the record that the first run computed;
    what the second run computes, writes and prints is the original record
    with two increments of kind [k] applied in a row, and reading the
    final file gives that record again. *)
Theorem rerun_composes path k w raw :
  files w path = Some raw -> In k kinds ->
  let content := universal_newlines raw in
  well_formed content = true ->
  let twice := bump k (bump k (parse content)) in
  exists w1 w2 c1 c2,
    increment_version path k w = (Ok true, w1) /\
    files w1 path = Some (to_linesep c1) /\
    universal_newlines (to_linesep c1) = c1 /\
    increment_version path k w1 = (Ok true, w2) /\
    files w2 path = Some (to_linesep c2) /\
    universal_newlines (to_linesep c2) = c2 /\
    parse c1 = bump k (parse content) /\
    (v <- increment (parse content) k ;; increment v k)%py w = (Ok twice, w) /\
    c2 = new_content twice c1 /\
    parse c2 = twice /\
    last (stdout w2) [] = success_line k (version_text twice).
Proof.
  intros Hf Hk content Hw twice.
  destruct (bump_parse k content Hk) as (a & b & c & d & E).
  pose proof (reparse (bump k (parse content)) content Hw) as E1.
  rewrite (record_lookup _ _ _ _ _ E) in E1.
  set (c1 := new_content (bump k (parse content)) content) in *.
  pose proof (well_formed_new_content (bump k (parse content)) content Hw) as Hw1.
  fold c1 in Hw1.
  assert (Hc1 : ~ In cr c1)
    by (apply new_content_no_cr, universal_newlines_no_cr).
  pose proof (reread c1 Hc1) as Hr1.
  destruct (bump_parse k c1 Hk) as (a' & b' & c' & d' & E').
  pose proof (reparse (bump k (parse c1)) c1 Hw1) as E2.
  rewrite (record_lookup _ _ _ _ _ E') in E2. rewrite E1 in E2. fold twice in E2.
  pose proof (increment_version_run path k w raw Hf Hk) as R1.
  cbv zeta in R1. fold content in R1. fold c1 in R1.
  set (w1 := to_stdout (store (fold_left to_stderr (warnings content) w) path
                              (to_linesep c1))
                       (lit "Version incremented: " ++ k ++ lit " -> "
                        ++ version_text (bump k (parse content)))) in *.
  assert (Hf1 : files w1 path = Some (to_linesep c1)) by apply files_store.
  pose proof (increment_version_run path k w1 (to_linesep c1) Hf1 Hk) as R2.
  cbv zeta in R2. rewrite Hr1, E1 in R2. fold twice in R2.
  eexists w1, _, c1, (new_content twice c1).
  split; [exact R1|]. split; [exact Hf1|]. split; [exact Hr1|]. split; [exact R2|].
  split; [apply files_store|].
  split; [apply reread, new_content_no_cr, Hc1|]. split; [exact E1|]. split.
  - assert (Hm : forall vs, (exists a b c d, vs = record a b c d) -> dict_mem vs k = true).
    { intros vs (x & y & z & t & ->). rewrite dict_mem_record. now apply kinds_mem. }
    rewrite (bind_ok _ _ _ _ _ (increment_run (parse content) k w
               (Hm _ (ex_intro _ _ (ex_intro _ _ (ex_intro _ _ (ex_intro _ _ eq_refl))))))).
    apply increment_run, Hm. eauto.
  - split; [reflexivity|]. split; [exact E2|].
    cbn [to_stdout stdout]. apply last_last.
Qed.

(** C9. Several declarations of one integer.  The value the script parses
    for a field is the integer of the leftmost match of its pattern: no
    match begins before the position [re.search] reports.  The scan that
    rewrites the field turns every match of the pattern into one with the
    same first group and the new digits, and after it every match of the
    pattern holds the new digits.  In the text that the run writes, every
    declaration of the field holds the updated value, which comes from the
    leftmost declaration of the input. *)
Theorem every_occurrence_rewritten path k w raw key name :
  files w path = Some raw -> In k kinds -> In (key, name) fields ->
  let content := universal_newlines raw in
  (forall i gs,
      re_search (field_pattern name) content = Some (i, gs) ->
      lookup (parse content) key = int (group 2 gs) /\
      exists pre suf r,
        content = pre ++ suf /\ i = List.length pre /\
        match_groups (field_pattern name) suf = Some (gs, r) /\
        forall a b, pre = a ++ b -> b <> [] ->
                    match_groups (field_pattern name) (b ++ suf) = None) /\
  (forall v s gs,
      occurs_in (field_pattern name) s gs ->
      occurs_in (field_pattern name)
                (re_sub (field_pattern name) [TGroup 1; TText (str v)] s)
                [group 1 gs; str v]) /\
  (forall v s gs,
      occurs_in (field_pattern name)
                (re_sub (field_pattern name) [TGroup 1; TText (str v)] s) gs ->
      group 2 gs = str v) /\
  exists content',
    files (snd (increment_version path k w)) path = Some (to_linesep content') /\
    forall gs, occurs_in (field_pattern name) content' gs ->
               group 2 gs = str (lookup (bump k (parse content)) key).
Proof.
  intros Hf Hk Hn content.
  assert (Hn' : In name (map snd fields)) by (apply in_map_iff; now exists (key, name)).
  split; [|split; [|split]].
  - intros i gs Es. split.
    + rewrite (lookup_parse content key name Hn). unfold field_value. now rewrite Es.
    + destruct (search_from_leftmost _ _ _ _ _ Es) as (pre & suf & r & E & Ei & Em & Hl).
      exists pre, suf, r. auto.
  - intros v s gs Ho.
    exact (field_sub_keeps name (str v) s gs Hn' (str_nonempty v) (str_all_digits v) Ho).
  - intros v s gs Ho.
    exact (field_sub_every name (str v) s gs Hn' (str_nonempty v) (str_all_digits v) Ho).
  - exists (new_content (bump k (parse content)) content).
    split; [now apply increment_version_written|].
    intros gs Ho. exact (new_content_fields _ _ _ _ _ Hn Ho).
Qed.

(** C10. Empty payloads.  The two string patterns need at least one
    character between the quotes, so neither matches at a declaration
    whose payload is empty.  When the text that the script reads holds
    such a declaration and no character of it lies in a payload span (the
    declaration does not stand inside the quoted payload of another
    declaration), the text that the run writes holds the declaration as it
    was, between the rewritten texts of what stood before it and after
    it. *)
Theorem empty_payload_unchanged path k w raw pre name ws r :
  In name ["FIRMWARE_VERSION_STRING"; "FIRMWARE_VERSION_FULL"]%string ->
  all_in ClsSpace ws ->
  files w path = Some raw -> In k kinds ->
  let content := pre ++ empty_decl name ws ++ r in
  universal_newlines raw = content ->
  outside_payloads content (List.length pre) (List.length (empty_decl name ws)) = true ->
  match_groups (string_pattern name) (empty_decl name ws ++ r) = None /\
  exists pre' r',
    files (snd (increment_version path k w)) path
      = Some (to_linesep (pre' ++ empty_decl name ws ++ r')) /\
    frame (firstn (List.length pre) (mark content)) pre' /\
    frame (skipn (List.length pre + List.length (empty_decl name ws)) (mark content)) r'.
Proof.
  intros _ Hws Hf Hk content Hr Ho. split; [now apply empty_decl_no_match|].
  destruct (new_content_block (bump k (parse content)) pre (empty_decl name ws) r)
    as (pre' & r' & E & HA & HC); [discriminate|exact Ho|].
  exists pre', r'. split; [|split; assumption].
  rewrite <- E. rewrite (increment_version_written _ _ _ _ Hf Hk). now rewrite Hr.
Qed.

End Claims.

(** * The properties on concrete headers *)

(** The runs below use the ASCII tables and the line separator of POSIX. *)

Lemma cascading_reset_witness :
  let content := universal_newlines example_header in
  files example_world (lit "version.h") = Some example_header /\
  parse (U := ascii_tables) content = record 1 2 3 9 /\
  well_formed (U := ascii_tables) content = true /\
  increment_version (U := ascii_tables) (P := posix)
                    (lit "version.h") (lit "major") example_world
    = (Ok true, written (U := ascii_tables) (P := posix) example_world
                        (lit "version.h") content (lit "major") (record 2 0 0 9)) /\
  increment_version (U := ascii_tables) (P := posix)
                    (lit "version.h") (lit "minor") example_world
    = (Ok true, written (U := ascii_tables) (P := posix) example_world
                        (lit "version.h") content (lit "minor") (record 1 3 0 9)) /\
  parse (U := ascii_tables) (new_content (U := ascii_tables) (record 2 0 0 9) content)
    = record 2 0 0 9 /\
  parse (U := ascii_tables) (new_content (U := ascii_tables) (record 1 3 0 9) content)
    = record 1 3 0 9 /\
  stdout (written (U := ascii_tables) (P := posix) example_world
                  (lit "version.h") content (lit "major") (record 2 0 0 9))
    = [lit "Version incremented: major -> 2.0.0-9"].
Proof.
  intros content.
  assert (Hf : files example_world (lit "version.h") = Some example_header)
    by reflexivity.
  assert (Hp : parse (U := ascii_tables) (universal_newlines example_header)
               = record 1 2 3 9) by (vm_compute; reflexivity).
  assert (Hw : well_formed (U := ascii_tables) content = true)
    by (vm_compute; reflexivity).
  split; [exact Hf|]. split; [exact Hp|]. split; [exact Hw|].
  destruct (cascading_reset (U := ascii_tables) (P := posix) _ _ _ _ _ _ _ Hf Hp)
    as (_ & _ & R1 & R2 & _ & _ & Hr).
  destruct (Hr Hw) as [P1 P2].
  split; [exact R1|]. split; [exact R2|]. split; [exact P1|]. split; [exact P2|].
  vm_compute. reflexivity.
Defined.

Lemma plain_increment_witness :
  let content := universal_newlines example_header in
  files example_world (lit "version.h") = Some example_header /\
  parse (U := ascii_tables) content = record 1 2 3 9 /\
  well_formed (U := ascii_tables) content = true /\
  increment_version (U := ascii_tables) (P := posix)
                    (lit "version.h") (lit "build") example_world
    = (Ok true, written (U := ascii_tables) (P := posix) example_world
                        (lit "version.h") content (lit "build") (record 1 2 3 10)) /\
  increment_version (U := ascii_tables) (P := posix)
                    (lit "version.h") (lit "patch") example_world
    = (Ok true, written (U := ascii_tables) (P := posix) example_world
                        (lit "version.h") content (lit "patch") (record 1 2 4 9)) /\
  parse (U := ascii_tables) (new_content (U := ascii_tables) (record 1 2 3 10) content)
    = record 1 2 3 10 /\
  parse (U := ascii_tables) (new_content (U := ascii_tables) (record 1 2 4 9) content)
    = record 1 2 4 9 /\
  stdout (written (U := ascii_tables) (P := posix) example_world
                  (lit "version.h") content (lit "patch") (record 1 2 4 9))
    = [lit "Version incremented: patch -> 1.2.4-9"].
Proof.
  intros content.
  assert (Hf : files example_world (lit "version.h") = Some example_header)
    by reflexivity.
  assert (Hp : parse (U := ascii_tables) (universal_newlines example_header)
               = record 1 2 3 9) by (vm_compute; reflexivity).
  assert (Hw : well_formed (U := ascii_tables) content = true)
    by (vm_compute; reflexivity).
  split; [exact Hf|]. split; [exact Hp|]. split; [exact Hw|].
  destruct (plain_increment (U := ascii_tables) (P := posix) _ _ _ _ _ _ _ Hf Hp)
    as (_ & _ & R1 & R2 & _ & _ & Hr).
  destruct (Hr Hw) as [P1 P2].
  split; [exact R1|]. split; [exact R2|]. split; [exact P1|]. split; [exact P2|].
  vm_compute. reflexivity.
Defined.

Lemma rewrite_frame_witness :
  let pre := firstn 79 example_header in
  let D := lit "#define FIRMWARE_VERSION_PATCH " in
  files example_world (lit "version.h") = Some example_header /\
  In (lit "patch") kinds /\
  exists content',
    files (snd (increment_version (U := ascii_tables) (P := posix)
                  (lit "version.h") (lit "patch") example_world))
          (lit "version.h") = Some content' /\
    frame (mark (U := ascii_tables) example_header) content' /\
    exists pre' r', content' = pre' ++ D ++ r'.
Proof.
  intros pre D.
  assert (Hf : files example_world (lit "version.h") = Some example_header)
    by reflexivity.
  assert (Hk : In (lit "patch") kinds) by (right; right; left; reflexivity).
  split; [exact Hf|]. split; [exact Hk|].
  destruct (rewrite_frame (U := ascii_tables) (P := posix) _ _ _ _ Hf Hk)
    as (c' & H1 & H2 & H3 & _ & _ & H6).
  assert (En : universal_newlines example_header = example_header)
    by (vm_compute; reflexivity).
  rewrite En in H2, H3. rewrite (H6 eq_refl) in H1.
  exists c'. split; [exact H1|]. split; [exact H2|].
  destruct (H3 pre D (skipn (79 + List.length D) example_header))
    as (pre' & r' & E & _).
  - vm_compute. reflexivity.
  - discriminate.
  - vm_compute. reflexivity.
  - exists pre', r'. exact E.
Defined.

(** On POSIX the run turns the line ending [\r\n] of [crlf_header] into
    [\n]: the carriage return lies in no payload span, and it is not in
    the file that is written. *)
Lemma rewrite_frame_counterexample :
  let w := holding (lit "version.h") crlf_header in
  let written := lit "#define FIRMWARE_BUILD_NUMBER 10" ++ [newline] in
  In (cr, false) (mark (U := ascii_tables) crlf_header) /\
  files (snd (increment_version (U := ascii_tables) (P := posix)
                (lit "version.h") (lit "build") w))
        (lit "version.h") = Some written /\
  ~ frame (mark (U := ascii_tables) crlf_header) written.
Proof.
  intros w written.
  assert (Hin : In (cr, false) (mark (U := ascii_tables) crlf_header)).
  { vm_compute. do 31 right. left. reflexivity. }
  split; [exact Hin|]. split; [vm_compute; reflexivity|].
  intros F. apply (frame_keeps _ _ cr F) in Hin.
  vm_compute in Hin.
  repeat (destruct Hin as [Hin|Hin]; [discriminate|]). exact Hin.
Qed.

Lemma unknown_increment_kind_witness :
  files example_world (lit "version.h") = Some example_header /\
  ~ In (lit "bogus") kinds /\
  exists w',
    increment_version (U := ascii_tables) (P := posix)
                      (lit "version.h") (lit "bogus") example_world
      = (Ok false, w') /\
    main (U := ascii_tables) (P := posix)
         [lit "increment_version.py"; lit "version.h"; lit "bogus"] example_world
      = (1%N, w') /\
    files w' = files example_world /\
    stdout w' = stdout example_world /\
    stderr w' = stderr example_world
                ++ warnings (U := ascii_tables) (universal_newlines example_header)
                ++ [unknown_type_line (lit "bogus")].
Proof.
  assert (Hf : files example_world (lit "version.h") = Some example_header)
    by reflexivity.
  assert (Hk : ~ In (lit "bogus") kinds).
  { intros [H|[H|[H|[H|[]]]]]; vm_compute in H; discriminate. }
  split; [exact Hf|]. split; [exact Hk|].
  exact (unknown_increment_kind (U := ascii_tables) (P := posix) _ _ _ _ _ Hf Hk).
Defined.

Lemma file_not_found_witness :
  nodes example_world (lit "missing.h") = Absent /\
  increment_version (U := ascii_tables) (P := posix)
                    (lit "missing.h") (lit "build") example_world
    = (Ok false, to_stderr example_world (not_found_line (lit "missing.h"))) /\
  main (U := ascii_tables) (P := posix)
       [lit "increment_version.py"; lit "missing.h"] example_world
    = (1%N, to_stderr example_world (not_found_line (lit "missing.h"))) /\
  nodes (to_stderr example_world (not_found_line (lit "missing.h")))
    = nodes example_world /\
  nodes (to_stderr example_world (not_found_line (lit "missing.h"))) (lit "missing.h")
    = Absent.
Proof.
  assert (Hf : nodes example_world (lit "missing.h") = Absent) by reflexivity.
  split; [exact Hf|].
  destruct (file_not_found (U := ascii_tables) (P := posix)
              (lit "increment_version.py") (lit "missing.h")
              [] (lit "build") example_world Hf)
    as (R & M & Hn & _ & _ & Ha & _).
  split; [exact R|]. split; [exact M|]. split; [exact Hn|]. exact Ha.
Defined.

(** Two paths that name no file for which the run prints no not-found
    error and returns nothing.  [include] is a directory: it exists, and
    reading it raises.  Looking up [locked/version.h] fails, and
    [Path.exists()] raises that failure.  In both cases the process ends
    with status 1 and a traceback. *)
Lemma file_not_found_counterexample :
  let run path :=
    increment_version (U := ascii_tables) (P := posix) path (lit "build")
                      cluttered_world in
  let process path :=
    main (U := ascii_tables) (P := posix) [lit "increment_version.py"; path]
         cluttered_world in
  (files cluttered_world (lit "include") = None /\
   run (lit "include") = (Raise (IsADirectoryError (lit "include")), cluttered_world) /\
   run (lit "include")
     <> (Ok false, to_stderr cluttered_world (not_found_line (lit "include"))) /\
   process (lit "include") = (1%N, to_stderr cluttered_world traceback_line) /\
   ~ In (not_found_line (lit "include")) (stderr (snd (process (lit "include"))))) /\
  (files cluttered_world (lit "locked/version.h") = None /\
   run (lit "locked/version.h")
     = (Raise (OSError (lit "locked/version.h")), cluttered_world) /\
   run (lit "locked/version.h")
     <> (Ok false,
         to_stderr cluttered_world (not_found_line (lit "locked/version.h"))) /\
   process (lit "locked/version.h") = (1%N, to_stderr cluttered_world traceback_line) /\
   ~ In (not_found_line (lit "locked/version.h"))
        (stderr (snd (process (lit "locked/version.h"))))).
Proof.
  intros run process.
  assert (R1 : run (lit "include")
               = (Raise (IsADirectoryError (lit "include")), cluttered_world))
    by (vm_compute; reflexivity).
  assert (R2 : run (lit "locked/version.h")
               = (Raise (OSError (lit "locked/version.h")), cluttered_world))
    by (vm_compute; reflexivity).
  split.
  - split; [reflexivity|]. split; [exact R1|]. split; [rewrite R1; discriminate|].
    split; [vm_compute; reflexivity|].
    vm_compute. intros [H|[]]. discriminate.
  - split; [reflexivity|]. split; [exact R2|]. split; [rewrite R2; discriminate|].
    split; [vm_compute; reflexivity|].
    vm_compute. intros [H|[]]. discriminate.
Qed.

Lemma version_strings_rewritten_witness :
  files example_world (lit "version.h") = Some example_header /\
  In (lit "patch") kinds /\
  exists content',
    files (snd (increment_version (U := ascii_tables) (P := posix)
                  (lit "version.h") (lit "patch") example_world))
          (lit "version.h") = Some content' /\
    (forall gs,
        occurs_in (U := ascii_tables)
                  (string_pattern "FIRMWARE_VERSION_STRING") content' gs ->
        group 2 gs = lit "1.2.4-9") /\
    (forall gs,
        occurs_in (U := ascii_tables)
                  (string_pattern "FIRMWARE_VERSION_FULL") content' gs ->
        group 2 gs = lit "ESP32 RTP Transciever v1.2.4-9").
Proof.
  assert (Hf : files example_world (lit "version.h") = Some example_header)
    by reflexivity.
  assert (Hk : In (lit "patch") kinds) by (right; right; left; reflexivity).
  split; [exact Hf|]. split; [exact Hk|].
  destruct (version_strings_rewritten (U := ascii_tables) (P := posix) _ _ _ _ Hf Hk)
    as (a & b & c & d & c' & _ & _ & _ & _ & Hw & _ & _ & HS & HF).
  rewrite (to_linesep_posix (P := posix) c' eq_refl) in Hw.
  assert (Ev : version_text
                 (bump (lit "patch")
                       (parse (U := ascii_tables) (universal_newlines example_header)))
               = lit "1.2.4-9") by (vm_compute; reflexivity).
  assert (Ef : full_text
                 (bump (lit "patch")
                       (parse (U := ascii_tables) (universal_newlines example_header)))
               = lit "ESP32 RTP Transciever v1.2.4-9") by (vm_compute; reflexivity).
  exists c'. split; [exact Hw|]. split.
  - intros gs Ho. rewrite <- Ev. exact (HS gs Ho).
  - intros gs Ho. rewrite <- Ef. exact (HF gs Ho).
Defined.

Lemma missing_fields_default_witness :
  let w := holding (lit "version.h") partial_header in
  let content := universal_newlines partial_header in
  In (lit "patch", (field_pattern "FIRMWARE_VERSION_PATCH", lit "FIRMWARE_VERSION_PATCH"))
     patterns /\
  re_search (U := ascii_tables) (field_pattern "FIRMWARE_VERSION_PATCH") content = None /\
  files w (lit "version.h") = Some partial_header /\
  In (lit "build") kinds /\
  dict_get (parse (U := ascii_tables) content) (lit "patch") = Some 0%N /\
  increment_version (U := ascii_tables) (P := posix) (lit "version.h") (lit "build") w
    = (Ok true, written (U := ascii_tables) (P := posix) w (lit "version.h") content
                        (lit "build") (record 4 0 0 18)) /\
  stderr (snd (increment_version (U := ascii_tables) (P := posix)
                 (lit "version.h") (lit "build") w))
    = [warning_line (lit "patch")] /\
  stdout (snd (increment_version (U := ascii_tables) (P := posix)
                 (lit "version.h") (lit "build") w))
    = [lit "Version incremented: build -> 4.0.0-18"].
Proof.
  intros w content.
  assert (Hp : In (lit "patch", (field_pattern "FIRMWARE_VERSION_PATCH",
                                 lit "FIRMWARE_VERSION_PATCH")) patterns)
    by (right; right; left; reflexivity).
  assert (Hs : re_search (U := ascii_tables) (field_pattern "FIRMWARE_VERSION_PATCH")
                 (universal_newlines partial_header) = None) by (vm_compute; reflexivity).
  assert (Hf : files w (lit "version.h") = Some partial_header) by reflexivity.
  assert (Hk : In (lit "build") kinds) by (right; right; right; left; reflexivity).
  split; [exact Hp|]. split; [exact Hs|]. split; [exact Hf|]. split; [exact Hk|].
  destruct (missing_fields_default (U := ascii_tables) (P := posix)
              (lit "version.h") w partial_header) as (_ & _ & H3 & H4).
  destruct (H3 _ _ _ Hp Hs) as [Hz _].
  destruct (H4 _ Hf Hk) as (_ & R & He & _).
  assert (Eb : bump (lit "build") (parse (U := ascii_tables) content) = record 4 0 0 18)
    by (vm_compute; reflexivity).
  split; [exact Hz|]. split; [rewrite <- Eb; exact R|].
  split; [rewrite He; vm_compute; reflexivity|].
  rewrite R. vm_compute. reflexivity.
Defined.

Lemma rerun_composes_witness :
  files example_world (lit "version.h") = Some example_header /\
  In (lit "minor") kinds /\
  well_formed (U := ascii_tables) (universal_newlines example_header) = true /\
  exists w1 w2 c1 c2,
    increment_version (U := ascii_tables) (P := posix)
                      (lit "version.h") (lit "minor") example_world
      = (Ok true, w1) /\
    files w1 (lit "version.h") = Some c1 /\
    increment_version (U := ascii_tables) (P := posix)
                      (lit "version.h") (lit "minor") w1
      = (Ok true, w2) /\
    files w2 (lit "version.h") = Some c2 /\
    parse (U := ascii_tables) c1 = record 1 3 0 9 /\
    parse (U := ascii_tables) c2 = record 1 4 0 9 /\
    last (stdout w2) [] = lit "Version incremented: minor -> 1.4.0-9".
Proof.
  assert (Hf : files example_world (lit "version.h") = Some example_header)
    by reflexivity.
  assert (Hk : In (lit "minor") kinds) by (right; left; reflexivity).
  assert (Hw : well_formed (U := ascii_tables) (universal_newlines example_header) = true)
    by (vm_compute; reflexivity).
  split; [exact Hf|]. split; [exact Hk|]. split; [exact Hw|].
  destruct (rerun_composes (U := ascii_tables) (P := posix) _ _ _ _ Hf Hk Hw)
    as (w1 & w2 & c1 & c2 & R1 & F1 & _ & R2 & F2 & _ & P1 & _ & _ & P2 & L).
  rewrite (to_linesep_posix (P := posix) c1 eq_refl) in F1.
  rewrite (to_linesep_posix (P := posix) c2 eq_refl) in F2.
  assert (E1 : bump (lit "minor")
                 (parse (U := ascii_tables) (universal_newlines example_header))
               = record 1 3 0 9) by (vm_compute; reflexivity).
  assert (E2 : bump (lit "minor")
                 (bump (lit "minor")
                    (parse (U := ascii_tables) (universal_newlines example_header)))
               = record 1 4 0 9) by (vm_compute; reflexivity).
  assert (E3 : success_line (lit "minor") (version_text (record 1 4 0 9))
               = lit "Version incremented: minor -> 1.4.0-9")
    by (vm_compute; reflexivity).
  exists w1, w2, c1, c2.
  split; [exact R1|]. split; [exact F1|]. split; [exact R2|]. split; [exact F2|].
  split; [now rewrite <- E1|]. split; [now rewrite <- E2|].
  rewrite <- E3, <- E2. exact L.
Defined.

Lemma every_occurrence_rewritten_witness :
  let w := holding (lit "version.h") double_header in
  files w (lit "version.h") = Some double_header /\
  In (lit "major") kinds /\
  In ("major", "FIRMWARE_VERSION_MAJOR")%string fields /\
  lookup (parse (U := ascii_tables) (universal_newlines double_header)) "major" = 1%N /\
  exists content',
    files (snd (increment_version (U := ascii_tables) (P := posix)
                  (lit "version.h") (lit "major") w))
          (lit "version.h") = Some content' /\
    content' = lit "#define FIRMWARE_VERSION_MAJOR 2" ++ [newline] ++
               lit "#define FIRMWARE_VERSION_MAJOR 2" ++ [newline] /\
    forall gs,
      occurs_in (U := ascii_tables) (field_pattern "FIRMWARE_VERSION_MAJOR") content' gs ->
      group 2 gs = lit "2".
Proof.
  intros w.
  assert (Hf : files w (lit "version.h") = Some double_header) by reflexivity.
  assert (Hk : In (lit "major") kinds) by (left; reflexivity).
  assert (Hn : In ("major", "FIRMWARE_VERSION_MAJOR")%string fields)
    by (left; reflexivity).
  split; [exact Hf|]. split; [exact Hk|]. split; [exact Hn|].
  destruct (every_occurrence_rewritten (U := ascii_tables) (P := posix)
              _ _ _ _ _ _ Hf Hk Hn)
    as (H1 & _ & _ & c' & Hw & Hc).
  rewrite (to_linesep_posix (P := posix) c' eq_refl) in Hw.
  assert (Es : re_search (U := ascii_tables) (field_pattern "FIRMWARE_VERSION_MAJOR")
                 (universal_newlines double_header)
               = Some (0%nat, [lit "#define FIRMWARE_VERSION_MAJOR "; lit "1"]))
    by (vm_compute; reflexivity).
  destruct (H1 _ _ Es) as [Hv _].
  split; [rewrite Hv; vm_compute; reflexivity|].
  exists c'. split; [exact Hw|]. split.
  - assert (Hw' : files (snd (increment_version (U := ascii_tables) (P := posix)
                                (lit "version.h") (lit "major") w))
                        (lit "version.h")
                  = Some (lit "#define FIRMWARE_VERSION_MAJOR 2" ++ [newline] ++
                          lit "#define FIRMWARE_VERSION_MAJOR 2" ++ [newline]))
      by (vm_compute; reflexivity).
    rewrite Hw in Hw'. now injection Hw'.
  - intros gs Ho. rewrite (Hc gs Ho). vm_compute. reflexivity.
Defined.

Lemma empty_payload_unchanged_witness :
  let pre := lit "#define FIRMWARE_BUILD_NUMBER 9" ++ [newline] in
  let decl := empty_decl "FIRMWARE_VERSION_STRING" (lit " ") in
  let w := holding (lit "version.h") empty_string_header in
  all_in (U := ascii_tables) ClsSpace (lit " ") /\
  universal_newlines empty_string_header = pre ++ decl ++ [newline] /\
  outside_payloads (U := ascii_tables) (pre ++ decl ++ [newline])
                   (List.length pre) (List.length decl) = true /\
  match_groups (U := ascii_tables) (string_pattern "FIRMWARE_VERSION_STRING")
               (decl ++ [newline]) = None /\
  exists pre' r',
    files (snd (increment_version (U := ascii_tables) (P := posix)
                  (lit "version.h") (lit "build") w))
          (lit "version.h") = Some (pre' ++ decl ++ r').
Proof.
  intros pre decl w.
  assert (Hs : all_in (U := ascii_tables) ClsSpace (lit " "))
    by (repeat constructor).
  assert (Hr : universal_newlines empty_string_header = pre ++ decl ++ [newline])
    by (vm_compute; reflexivity).
  assert (Ho : outside_payloads (U := ascii_tables) (pre ++ decl ++ [newline])
                 (List.length pre) (List.length decl) = true)
    by (vm_compute; reflexivity).
  split; [exact Hs|]. split; [exact Hr|]. split; [exact Ho|].
  destruct (empty_payload_unchanged (U := ascii_tables) (P := posix)
              (lit "version.h") (lit "build") w empty_string_header
              pre "FIRMWARE_VERSION_STRING"%string (lit " ") [newline])
    as (Hm & pre' & r' & Hw & _).
  - left; reflexivity.
  - exact Hs.
  - reflexivity.
  - right; right; right; left; reflexivity.
  - exact Hr.
  - exact Ho.
  - split; [exact Hm|]. exists pre', r'.
    rewrite (to_linesep_posix (P := posix) _ eq_refl) in Hw. exact Hw.
Defined.

(** Two declarations of the version string with an empty payload that the
    run does not leave as they are.  In [nested_header] the scan for the
    full version takes the label of the declaration for a part of the
    payload it replaces.  In [cr_header] the white space of the
    declaration is a carriage return, which is read as a line feed and
    written as one. *)
Lemma empty_payload_counterexample :
  let decl := empty_decl "FIRMWARE_VERSION_STRING" (lit " ") in
  let decl' := empty_decl "FIRMWARE_VERSION_STRING" [cr] in
  let run raw :=
    files (snd (increment_version (U := ascii_tables) (P := posix)
                  (lit "version.h") (lit "build") (holding (lit "version.h") raw)))
          (lit "version.h") in
  let written :=
    lit "#define FIRMWARE_VERSION_FULL " ++ [quote] ++
    lit "ESP32 RTP Transciever v0.0.0-1" ++ [quote; quote] in
  let written' := lit "#define FIRMWARE_VERSION_STRING" ++ [newline; quote; quote] in
  (nested_header
     = (lit "#define FIRMWARE_VERSION_FULL " ++ [quote] ++ lit "a ") ++ decl ++ [] /\
   run nested_header = Some written /\
   ~ exists pre' r', written = pre' ++ decl ++ r') /\
  (cr_header = [] ++ decl' ++ [] /\
   all_in (U := ascii_tables) ClsSpace [cr] /\
   run cr_header = Some written' /\
   ~ exists pre' r', written' = pre' ++ decl' ++ r').
Proof.
  intros decl decl' run written written'. split.
  - split; [vm_compute; reflexivity|]. split; [vm_compute; reflexivity|].
    intros (pre' & r' & E).
    pose proof (is_infix_app decl pre' r') as H. rewrite <- E in H.
    vm_compute in H. discriminate.
  - split; [vm_compute; reflexivity|]. split; [repeat constructor|].
    split; [vm_compute; reflexivity|].
    intros (pre' & r' & E).
    pose proof (is_infix_app decl' pre' r') as H. rewrite <- E in H.
    vm_compute in H. discriminate.
Qed.

(** Why a well-formed header must keep [#] out of its version strings:
    all four integers of [hidden_header] are found, but the run replaces
    the version string and with it the only declaration of the major
    version, so that the next run reads 0 for it. *)
Lemma hidden_declaration_lost :
  let versions := bump (lit "build") (parse (U := ascii_tables) hidden_header) in
  well_formed (U := ascii_tables) hidden_header = false /\
  parse (U := ascii_tables) hidden_header = record 5 0 0 0 /\
  versions = record 5 0 0 1 /\
  parse (U := ascii_tables) (new_content (U := ascii_tables) versions hidden_header)
    = record 0 0 0 1.
Proof. repeat split; vm_compute; reflexivity. Qed.


(** * Further properties of the script *)

(** ** Fixed points of the scans, and the digits of [str] *)

Section Fixed.

Context {U : UnicodeTables} {P : Platform}.

(** *** Scans that change nothing *)

Lemma msub_fixed m v t t' :
  msub m v t t' ->
  (forall G1 Pl G3, occurs m t G1 Pl G3 -> erase Pl = v) ->
  erase t' = erase t.
Proof.
  induction 1 as [|x t t' _ _ IH|G1 Pl G3 r r' Em _ IH]; intros Hv.
  - reflexivity.
  - cbn [erase map]. f_equal. apply IH.
    intros G1 Pl G3 Ho. apply (Hv G1 Pl G3).
    now apply (occurs_suffix m [x]).
  - rewrite !erase_app, erase_fresh.
    rewrite (Hv G1 Pl G3 (occurs_head _ _ _ _ _ Em)).
    f_equal. f_equal. f_equal. apply IH.
    intros A1 B A3 Ho. apply (Hv A1 B A3).
    replace (G1 ++ Pl ++ G3 ++ r) with ((G1 ++ Pl ++ G3) ++ r)
      by now rewrite <- !app_assoc.
    now apply occurs_suffix.
Qed.

(** When every declaration of the integer already holds the digits [v],
    the scan for it is the identity. *)
Lemma field_sub_fixed name v s :
  (forall gs, occurs_in (field_pattern name) s gs -> group 2 gs = v) ->
  field_sub (label name) v s = s.
Proof.
  intros Hv.
  pose proof (field_occ_sound _ (label_nonempty name)) as Hs.
  destruct (msub_total _ v Hs (mark s)) as (t' & H).
  rewrite <- (erase_mark s) at 1.
  rewrite <- (field_sub_msub _ _ _ _ (label_nonempty name) H).
  rewrite (msub_fixed _ _ _ _ H); [apply erase_mark|].
  intros G1 Pl G3 Ho.
  apply lower_occurs in Ho as (pre & suf & r & Es & Em).
  rewrite erase_mark in Es. rewrite field_occ_groups in Em.
  destruct (match_groups (field_pattern name) suf) as [[gs r']|] eqn:Eg; [|discriminate].
  injection Em as _ <- _ _. apply Hv. now exists pre, suf, r'.
Qed.

Lemma string_sub_fixed name v s :
  (forall gs, occurs_in (string_pattern name) s gs -> group 2 gs = v) ->
  string_sub (label name) v s = s.
Proof.
  intros Hv.
  pose proof (string_occ_sound (label name)) as Hs.
  destruct (msub_total _ v Hs (mark s)) as (t' & H).
  rewrite <- (erase_mark s) at 1.
  rewrite <- (string_sub_msub _ _ _ _ (label_nonempty name) H).
  rewrite (msub_fixed _ _ _ _ H); [apply erase_mark|].
  intros G1 Pl G3 Ho.
  apply lower_occurs in Ho as (pre & suf & r & Es & Em).
  rewrite erase_mark in Es. rewrite string_occ_groups in Em.
  destruct (match_groups (string_pattern name) suf) as [[gs r']|] eqn:Eg; [|discriminate].
  injection Em as _ <- _ _. apply Hv. now exists pre, suf, r'.
Qed.

(** A text in which every declaration already holds the value that the
    rewriting would put there is a fixed point of the rewriting. *)
Lemma new_content_fixed versions s :
  (forall key name gs,
      In (key, name) fields -> occurs_in (field_pattern name) s gs ->
      group 2 gs = str (lookup versions key)) ->
  (forall gs, occurs_in (string_pattern "FIRMWARE_VERSION_STRING") s gs ->
              group 2 gs = version_text versions) ->
  (forall gs, occurs_in (string_pattern "FIRMWARE_VERSION_FULL") s gs ->
              group 2 gs = full_text versions) ->
  new_content versions s = s.
Proof.
  intros Hf Hs Hfull. unfold new_content, update_fields.
  rewrite (field_sub_fixed "FIRMWARE_VERSION_MAJOR")
    by (intros gs; apply (Hf "major"%string); left; reflexivity).
  rewrite (field_sub_fixed "FIRMWARE_VERSION_MINOR")
    by (intros gs; apply (Hf "minor"%string); right; left; reflexivity).
  rewrite (field_sub_fixed "FIRMWARE_VERSION_PATCH")
    by (intros gs; apply (Hf "patch"%string); right; right; left; reflexivity).
  rewrite (field_sub_fixed "FIRMWARE_BUILD_NUMBER")
    by (intros gs; apply (Hf "build"%string); right; right; right; left; reflexivity).
  rewrite (string_sub_fixed "FIRMWARE_VERSION_STRING") by assumption.
  now apply string_sub_fixed.
Qed.

(** *** The digits that [str] writes *)

Lemma digits_of_head fuel n acc :
  (N.log2 n < N.of_nat fuel)%N -> n <> 0%N ->
  exists c ds, digits_of fuel n acc = c :: ds ++ acc /\ c <> 48%N.
Proof.
  revert n acc; induction fuel as [|f IH]; intros n acc Hf Hn; [lia|].
  cbn [digits_of].
  pose proof (N.div_mod n 10%N) as Hdm.
  assert (Hm : (n mod 10 < 10)%N) by (apply N.mod_lt; discriminate).
  remember (n / 10)%N as q eqn:Eq. remember (n mod 10)%N as m eqn:Em.
  destruct (N.eqb_spec q 0%N) as [E|E].
  - exists (48 + m)%N, []. split; [reflexivity|]. lia.
  - destruct (IH q ((48 + m)%N :: acc)) as (c & ds & Ed & Hc); [|assumption|].
    + assert (H : (N.log2 (2 * q) <= N.log2 n)%N)
        by (apply N.log2_le_mono; lia).
      rewrite N.log2_double in H by lia. lia.
    + exists c, (ds ++ [(48 + m)%N]). split; [|assumption].
      rewrite Ed. cbn [app]. now rewrite <- app_assoc.
Qed.

(** [str] writes no leading zero: the only text it writes that begins with
    the digit zero is the single digit zero. *)
Lemma str_leading_zero n rest : str n = 48%N :: rest -> rest = [].
Proof.
  destruct (N.eq_dec n 0) as [->|Hn].
  - now intros [= <-].
  - unfold str.
    destruct (digits_of_head (S (N.to_nat (N.log2 n))) n []) as (c & ds & E & Hc);
      [lia|assumption|].
    rewrite E. intros [= Ec _]. contradiction.
Qed.

Lemma str_injective a b : str a = str b -> a = b.
Proof. intros E. rewrite <- (int_str a), <- (int_str b). now rewrite E. Qed.

(** Two texts that agree up to and after their first [c] agree on both
    sides of it. *)
Lemma split_at_first (c : char) x y r r' :
  ~ In c x -> ~ In c y -> x ++ c :: r = y ++ c :: r' -> x = y /\ r = r'.
Proof.
  revert y. induction x as [|a x IH]; intros [|b y] Hx Hy E; cbn [app] in E.
  - injection E as ->. auto.
  - injection E as <- _. exfalso. apply Hy. now left.
  - injection E as -> _. exfalso. apply Hx. now left.
  - injection E as -> E.
    destruct (IH y) as [-> ->]; auto.
    + intros H. apply Hx. now right.
    + intros H. apply Hy. now right.
Qed.

Lemma str_no_char c n : ascii_isdecimal c = false -> ~ In c (str n).
Proof.
  intros Hc H. pose proof (str_digits n) as Hd. rewrite Forall_forall in Hd.
  specialize (Hd _ H). congruence.
Qed.

End Fixed.

(** ** The runs *)

Section Extras.

Context {U : UnicodeTables} {P : Platform}.

Lemma re_search_none p s gs :
  re_search p s = None -> ~ occurs_in p s gs.
Proof.
  intros E Ho. destruct (occurs_search_from p 0 s gs Ho) as (j & gs' & Es).
  unfold re_search in E. congruence.
Qed.

Lemma none_found_spec content p gs :
  none_found content = true -> In p rewritten_patterns -> ~ occurs_in p content gs.
Proof.
  unfold none_found. rewrite forallb_forall. intros H Hp.
  specialize (H p Hp). apply re_search_none.
  now destruct (re_search p content).
Qed.

Lemma none_found_parse content :
  none_found content = true ->
  parse content = record 0 0 0 0 /\ warnings content = map warning_line kinds.
Proof.
  unfold none_found. rewrite forallb_forall. intros H.
  assert (F : forall key name, In (key, (field_pattern name, lit name)) patterns ->
                               re_search (field_pattern name) content = None).
  { intros key name Hin. specialize (H (field_pattern name)).
    destruct (re_search (field_pattern name) content); [|reflexivity].
    assert (false = true); [|discriminate]. apply H.
    unfold rewritten_patterns. apply in_or_app. left.
    apply in_map_iff. now exists (key, (field_pattern name, lit name)). }
  pose proof (F (lit "major") "FIRMWARE_VERSION_MAJOR"%string ltac:(left; reflexivity)) as E1.
  pose proof (F (lit "minor") "FIRMWARE_VERSION_MINOR"%string
                ltac:(right; left; reflexivity)) as E2.
  pose proof (F (lit "patch") "FIRMWARE_VERSION_PATCH"%string
                ltac:(right; right; left; reflexivity)) as E3.
  pose proof (F (lit "build") "FIRMWARE_BUILD_NUMBER"%string
                ltac:(right; right; right; left; reflexivity)) as E4.
  unfold parse, field_value, warnings, patterns. cbn [flat_map fst snd].
  rewrite E1, E2, E3, E4. split; reflexivity.
Qed.

Lemma all_found_warnings content : all_found content = true -> warnings content = [].
Proof.
  unfold all_found, warnings, patterns. cbn [forallb flat_map fst snd].
  destruct (re_search (field_pattern "FIRMWARE_VERSION_MAJOR") content); [|discriminate].
  destruct (re_search (field_pattern "FIRMWARE_VERSION_MINOR") content); [|discriminate].
  destruct (re_search (field_pattern "FIRMWARE_VERSION_PATCH") content); [|discriminate].
  destruct (re_search (field_pattern "FIRMWARE_BUILD_NUMBER") content); [|discriminate].
  reflexivity.
Qed.

Lemma kinds_dec k : {In k kinds} + {~ In k kinds}.
Proof.
  destruct (existsb (text_eqb k) kinds) eqn:E.
  - left. now apply kinds_mem.
  - right. intros H. apply kinds_mem in H. congruence.
Qed.

(** ** Properties of the whole run *)

(** What the run returns and leaves, by what is at the path. *)
Lemma run_cases path k w :
  (exists raw, files w path = Some raw /\ In k kinds /\
     increment_version path k w
     = (Ok true, written w path (universal_newlines raw) k
                         (bump k (parse (universal_newlines raw))))) \/
  (exists o w', increment_version path k w = (o, w') /\ o <> Ok true /\
     nodes w' = nodes w /\ stdout w' = stdout w).
Proof.
  destruct (nodes w path) as [|raw| | |] eqn:Hn.
  - right. eexists _, _. split; [exact (increment_version_missing _ k _ Hn)|].
    split; [discriminate|]. split; reflexivity.
  - assert (Hf : files w path = Some raw) by now apply files_Some.
    destruct (kinds_dec k) as [Hk|Hk].
    + left. exists raw. split; [assumption|]. split; [assumption|].
      now apply increment_version_ok.
    + right. eexists _, _. split; [exact (increment_version_unknown _ _ _ _ Hf Hk)|].
      split; [discriminate|]. cbn [to_stderr nodes stdout].
      now rewrite nodes_log, stdout_log.
  - right. eexists _, _.
    split; [exact (proj2 (proj2 (increment_version_raises path k w)) Hn)|].
    split; [discriminate|]. split; reflexivity.
  - right. eexists _, _.
    split; [exact (proj1 (proj2 (increment_version_raises path k w)) Hn)|].
    split; [discriminate|]. split; reflexivity.
  - right. eexists _, _.
    split; [exact (proj1 (increment_version_raises path k w) Hn)|].
    split; [discriminate|]. split; reflexivity.
Qed.

(** X1. What the result of [increment_version] tells.  When it returns
    [True], the path named a regular file that could be read, the
    increment type is one of the four keys, and the run has left the file
    rewritten with the incremented record and reported it.  In every other
    case, whether it returns [False] or raises, it has written nothing: the
    file system and the standard output are as before. *)
Theorem increment_version_outcomes path k w o w' :
  increment_version path k w = (o, w') ->
  (o = Ok true ->
   exists raw,
     files w path = Some raw /\ In k kinds /\
     w' = written w path (universal_newlines raw) k
                  (bump k (parse (universal_newlines raw)))) /\
  (o <> Ok true -> nodes w' = nodes w /\ stdout w' = stdout w).
Proof.
  intros R.
  destruct (run_cases path k w) as [(raw & Hf & Hk & R')|(o' & w'' & R' & Ho & Hn & Hs)];
    rewrite R' in R; injection R as <- <-.
  - split; [|congruence]. intros _. exists raw. auto.
  - split; [contradiction|]. auto.
Qed.

(** X2. The command line.  An exit status of 0 means that the file named
    by the first argument has been rewritten with the record incremented
    at the key given by the second argument; any other exit status is 1,
    and then nothing has been written.  Arguments after the second are
    ignored; without a second argument the increment type is [build],
    without a first the file is [version.h]. *)
Theorem main_exit_status prog path k rest w :
  (fst (main (prog :: path :: k :: rest) w) = 0%N ->
   exists raw,
     files w path = Some raw /\ In k kinds /\
     snd (main (prog :: path :: k :: rest) w)
     = written w path (universal_newlines raw) k
               (bump k (parse (universal_newlines raw)))) /\
  (fst (main (prog :: path :: k :: rest) w) <> 0%N ->
   fst (main (prog :: path :: k :: rest) w) = 1%N /\
   nodes (snd (main (prog :: path :: k :: rest) w)) = nodes w /\
   stdout (snd (main (prog :: path :: k :: rest) w)) = stdout w) /\
  main (prog :: path :: k :: rest) w = main [prog; path; k] w /\
  main [prog; path] w = main [prog; path; lit "build"] w /\
  main [prog] w = main [prog; lit "version.h"; lit "build"] w /\
  main [] w = main [prog; lit "version.h"; lit "build"] w.
Proof.
  assert (E : main (prog :: path :: k :: rest) w = main [prog; path; k] w)
    by reflexivity.
  rewrite E. split; [|split; [|repeat split]].
  - unfold main. cbn [List.length Nat.ltb Nat.leb nth].
    destruct (run_cases path k w) as [(raw & Hf & Hk & R)|(o & w' & R & Ho & Hn & Hs)];
      rewrite R.
    + intros _. exists raw. auto.
    + destruct o as [[|]|e]; cbn [fst]; [congruence|discriminate|discriminate].
  - unfold main. cbn [List.length Nat.ltb Nat.leb nth].
    destruct (run_cases path k w) as [(raw & Hf & Hk & R)|(o & w' & R & Ho & Hn & Hs)];
      rewrite R.
    + cbn [fst]. congruence.
    + destruct o as [[|]|e]; cbn [fst snd]; [congruence|auto|].
      intros _. cbn [to_stderr nodes stdout]. auto.
Qed.

(** X4. A file in which none of the six patterns matches: the run still
    succeeds.  It prints the four warnings in the order major, minor,
    patch, build, takes every integer for 0, writes the text back as it
    read it, and reports the version it computed from the zeros. *)
Theorem nothing_to_rewrite path k w raw :
  files w path = Some raw -> In k kinds ->
  none_found (universal_newlines raw) = true ->
  increment_version path k w =
  (Ok true,
   to_stdout
     (store (fold_left to_stderr (map warning_line kinds) w) path
            (to_linesep (universal_newlines raw)))
     (success_line k (version_text (bump k (record 0 0 0 0))))).
Proof.
  intros Hf Hk Hn. rewrite (increment_version_run _ _ _ _ Hf Hk). cbv zeta.
  destruct (none_found_parse _ Hn) as [-> ->].
  rewrite new_content_fixed; [reflexivity| | |].
  - intros key name gs Hin Ho. exfalso. revert Ho. apply none_found_spec; [assumption|].
    unfold rewritten_patterns. apply in_or_app. left.
    simpl in Hin. destruct Hin as [E|[E|[E|[E|[]]]]]; injection E as <- <-; simpl; tauto.
  - intros gs Ho. exfalso. revert Ho. apply none_found_spec; [assumption|].
    unfold rewritten_patterns. apply in_or_app. right. now left.
  - intros gs Ho. exfalso. revert Ho. apply none_found_spec; [assumption|].
    unfold rewritten_patterns. apply in_or_app. right. right. now left.
Qed.

(** X5. The rewriting of lines 61-78 is idempotent: applied with the same
    values to its own output, it changes nothing. *)
Theorem rewrite_idempotent versions content :
  new_content versions (new_content versions content) = new_content versions content.
Proof.
  apply new_content_fixed.
  - intros key name gs Hin Ho. exact (new_content_fields _ _ _ _ _ Hin Ho).
  - intros gs. exact (proj1 (new_content_strings versions content gs)).
  - intros gs. exact (proj2 (new_content_strings versions content gs)).
Qed.

(** X6. After a run on a well-formed header the file agrees with itself:
    every declaration of the version string holds the rendering of the
    four integers that the file declares, and every declaration of the
    full version holds the product name followed by that rendering. *)
Theorem header_consistent_after_run path k w raw :
  files w path = Some raw -> In k kinds ->
  well_formed (universal_newlines raw) = true ->
  exists content',
    files (snd (increment_version path k w)) path = Some (to_linesep content') /\
    (forall gs,
        occurs_in (string_pattern "FIRMWARE_VERSION_STRING") content' gs ->
        group 2 gs = version_text (parse content')) /\
    (forall gs,
        occurs_in (string_pattern "FIRMWARE_VERSION_FULL") content' gs ->
        group 2 gs = lit "ESP32 RTP Transciever v" ++ version_text (parse content')).
Proof.
  intros Hf Hk Hw. set (content := universal_newlines raw) in *.
  exists (new_content (bump k (parse content)) content).
  split; [now apply increment_version_written|].
  destruct (bump_parse k content Hk) as (a & b & c & d & E).
  rewrite (reparse _ _ Hw), (record_lookup _ _ _ _ _ E).
  split; intros gs.
  - exact (proj1 (new_content_strings _ content gs)).
  - exact (proj2 (new_content_strings _ content gs)).
Qed.

(** X7. A run keeps a well-formed header well formed: each of the four
    integers is still declared in the text it writes, and no version
    string of that text holds a [#]. *)
Theorem well_formed_kept path k w raw :
  files w path = Some raw -> In k kinds ->
  well_formed (universal_newlines raw) = true ->
  exists content',
    files (snd (increment_version path k w)) path = Some (to_linesep content') /\
    well_formed content' = true /\
    well_formed (universal_newlines (to_linesep content')) = true.
Proof.
  intros Hf Hk Hw. set (content := universal_newlines raw) in *.
  exists (new_content (bump k (parse content)) content).
  split; [now apply increment_version_written|].
  assert (H : well_formed (new_content (bump k (parse content)) content) = true)
    by now apply well_formed_new_content.
  split; [exact H|].
  rewrite reread; [exact H|].
  apply new_content_no_cr, universal_newlines_no_cr.
Qed.

(** X8. The integers of the written text are in canonical form: the digits
    of every declaration of an integer are ASCII digits, and they begin
    with a zero only when they are the single digit zero, whatever digits
    and padding the input had. *)
Theorem integers_normalised path k w raw key name :
  files w path = Some raw -> In k kinds -> In (key, name) fields ->
  exists content',
    files (snd (increment_version path k w)) path = Some (to_linesep content') /\
    forall gs,
      occurs_in (field_pattern name) content' gs ->
      Forall (fun c => ascii_isdecimal c = true) (group 2 gs) /\
      (forall rest, group 2 gs = 48%N :: rest -> rest = []).
Proof.
  intros Hf Hk Hn. set (content := universal_newlines raw).
  exists (new_content (bump k (parse content)) content).
  split; [now apply increment_version_written|].
  intros gs Ho. rewrite (new_content_fields _ _ _ _ _ Hn Ho).
  split; [apply str_digits|]. intros rest. apply str_leading_zero.
Qed.

(** X9. The version string of line 66 determines the four integers: two
    records with the same rendering are the same record. *)
Theorem version_string_injective a b c d a' b' c' d' :
  version_text (record a b c d) = version_text (record a' b' c' d') ->
  a = a' /\ b = b' /\ c = c' /\ d = d'.
Proof.
  rewrite !version_text_record. intros E.
  assert (Hdot : forall n, ~ In 46%N (str n)) by (intros n; now apply str_no_char).
  assert (Hdash : forall n, ~ In 45%N (str n)) by (intros n; now apply str_no_char).
  change (lit ".") with [46%N] in E. change (lit "-") with [45%N] in E. cbn [app] in E.
  apply split_at_first in E as [Ea E]; [|apply Hdot..].
  apply split_at_first in E as [Eb E]; [|apply Hdot..].
  apply split_at_first in E as [Ec Ed]; [|apply Hdash..].
  repeat split; now apply str_injective.
Qed.

(** X10. A quiet success: when the file declares all four integers and the
    increment type is valid, the run prints nothing on the error stream
    and exactly one line, the report of the new version, on the standard
    output. *)
Theorem quiet_success path k w raw :
  files w path = Some raw -> In k kinds ->
  all_found (universal_newlines raw) = true ->
  stderr (snd (increment_version path k w)) = stderr w /\
  stdout (snd (increment_version path k w))
  = stdout w ++ [success_line k (version_text (bump k (parse (universal_newlines raw))))].
Proof.
  intros Hf Hk Ha. rewrite (increment_version_run _ _ _ _ Hf Hk).
  cbn [snd to_stdout store stderr stdout].
  rewrite stderr_log, stdout_log, (all_found_warnings _ Ha), app_nil_r. auto.
Qed.

(** X11. Every valid increment makes the version strictly greater in the
    order by major, minor, patch and build. *)
Theorem increment_increases_version k a b c d :
  In k kinds ->
  exists a' b' c' d',
    bump k (record a b c d) = record a' b' c' d' /\
    increment (record a b c d) k = ret (record a' b' c' d') /\
    version_before (a, b, c, d) (a', b', c', d').
Proof.
  intros [<-|[<-|[<-|[<-|[]]]]]; do 4 eexists;
    (split; [reflexivity|]; split; [reflexivity|]); cbn [version_before]; lia.
Qed.

(** X12. A successful run on a well-formed header always changes the text
    of the file: what it writes differs from what it read. *)
Theorem run_changes_file path k w raw :
  files w path = Some raw -> In k kinds ->
  well_formed (universal_newlines raw) = true ->
  exists content',
    files (snd (increment_version path k w)) path = Some (to_linesep content') /\
    content' <> universal_newlines raw.
Proof.
  intros Hf Hk Hw. set (content := universal_newlines raw) in *.
  exists (new_content (bump k (parse content)) content).
  split; [now apply increment_version_written|].
  intros E.
  pose proof (reparse (bump k (parse content)) content Hw) as R.
  destruct (bump_parse k content Hk) as (a & b & c & d & Eb).
  rewrite (record_lookup _ _ _ _ _ Eb), E in R.
  unfold parse in R.
  set (x := field_value content "FIRMWARE_VERSION_MAJOR") in *.
  set (y := field_value content "FIRMWARE_VERSION_MINOR") in *.
  set (z := field_value content "FIRMWARE_VERSION_PATCH") in *.
  set (t := field_value content "FIRMWARE_BUILD_NUMBER") in *.
  clearbody x y z t.
  destruct Hk as [<-|[<-|[<-|[<-|[]]]]];
    change (record x y z t = record (x + 1) 0 0 t) in R
    || change (record x y z t = record x (y + 1) 0 t) in R
    || change (record x y z t = record x y (z + 1) t) in R
    || change (record x y z t = record x y z (t + 1)) in R;
    unfold record in R; injection R; intros; lia.
Qed.

(** X13. Runs compose: on a well-formed header, any sequence of runs with
    valid increment types leaves a well-formed file whose four integers
    are those of the original file with the increments applied in
    order. *)
Theorem runs_compose path ks w raw :
  files w path = Some raw ->
  Forall (fun k => In k kinds) ks ->
  well_formed (universal_newlines raw) = true ->
  exists raw',
    files (run_all path ks w) path = Some raw' /\
    well_formed (universal_newlines raw') = true /\
    parse (universal_newlines raw')
    = fold_left (fun versions k => bump k versions) ks (parse (universal_newlines raw)).
Proof.
  revert w raw. induction ks as [|k ks IH]; intros w raw Hf Hks Hw.
  - exists raw. auto.
  - inversion Hks as [|? ? Hk Hks']; subst. cbn [run_all fold_left].
    set (content := universal_newlines raw) in *.
    set (c1 := new_content (bump k (parse content)) content).
    assert (Hr : universal_newlines (to_linesep c1) = c1)
      by (apply reread, new_content_no_cr, universal_newlines_no_cr).
    destruct (IH (snd (increment_version path k w)) (to_linesep c1))
      as (raw' & Hf' & Hw' & Hp').
    + now apply increment_version_written.
    + assumption.
    + rewrite Hr. now apply well_formed_new_content.
    + exists raw'. split; [assumption|]. split; [assumption|].
      rewrite Hp', Hr. f_equal. unfold c1.
      destruct (bump_parse k content Hk) as (a & b & c & d & E).
      now rewrite (reparse _ _ Hw), (record_lookup _ _ _ _ _ E).
Qed.

End Extras.

(** ** The properties of the run on concrete headers *)

Lemma increment_version_outcomes_witness :
  let content := universal_newlines example_header in
  let w' := written (U := ascii_tables) (P := posix) cluttered_world (lit "version.h")
                    content (lit "patch") (record 1 2 4 9) in
  increment_version (U := ascii_tables) (P := posix)
                    (lit "version.h") (lit "patch") cluttered_world = (Ok true, w') /\
  (exists raw,
      files cluttered_world (lit "version.h") = Some raw /\
      In (lit "patch") kinds /\
      w' = written (U := ascii_tables) (P := posix) cluttered_world (lit "version.h")
                   (universal_newlines raw) (lit "patch")
                   (bump (lit "patch") (parse (U := ascii_tables) (universal_newlines raw)))) /\
  increment_version (U := ascii_tables) (P := posix)
                    (lit "logo.png") (lit "patch") cluttered_world
    = (Raise (UnicodeDecodeError (lit "logo.png")), cluttered_world) /\
  nodes cluttered_world = nodes cluttered_world /\
  stdout cluttered_world = stdout cluttered_world.
Proof.
  intros content w'.
  assert (R : increment_version (U := ascii_tables) (P := posix)
                (lit "version.h") (lit "patch") cluttered_world = (Ok true, w'))
    by (vm_compute; reflexivity).
  assert (R' : increment_version (U := ascii_tables) (P := posix)
                 (lit "logo.png") (lit "patch") cluttered_world
               = (Raise (UnicodeDecodeError (lit "logo.png")), cluttered_world))
    by (vm_compute; reflexivity).
  split; [exact R|].
  split; [exact (proj1 (increment_version_outcomes (U := ascii_tables) (P := posix)
                          _ _ _ _ _ R) eq_refl)|].
  split; [exact R'|].
  apply (proj2 (increment_version_outcomes (U := ascii_tables) (P := posix)
                  _ _ _ _ _ R')).
  discriminate.
Defined.

Lemma main_exit_status_witness :
  let argv := [lit "increment_version.py"; lit "version.h"; lit "patch"; lit "extra"] in
  let argv' := [lit "increment_version.py"; lit "include"; lit "patch"] in
  fst (main (U := ascii_tables) (P := posix) argv cluttered_world) = 0%N /\
  (exists raw,
      files cluttered_world (lit "version.h") = Some raw /\
      In (lit "patch") kinds /\
      snd (main (U := ascii_tables) (P := posix) argv cluttered_world)
      = written (U := ascii_tables) (P := posix) cluttered_world (lit "version.h")
                (universal_newlines raw) (lit "patch")
                (bump (lit "patch") (parse (U := ascii_tables) (universal_newlines raw)))) /\
  fst (main (U := ascii_tables) (P := posix) argv' cluttered_world) <> 0%N /\
  fst (main (U := ascii_tables) (P := posix) argv' cluttered_world) = 1%N /\
  nodes (snd (main (U := ascii_tables) (P := posix) argv' cluttered_world))
    = nodes cluttered_world.
Proof.
  intros argv argv'.
  assert (E0 : fst (main (U := ascii_tables) (P := posix) argv cluttered_world) = 0%N)
    by (vm_compute; reflexivity).
  assert (E1 : fst (main (U := ascii_tables) (P := posix) argv' cluttered_world) <> 0%N)
    by (vm_compute; discriminate).
  split; [exact E0|].
  split.
  - exact (proj1 (main_exit_status (U := ascii_tables) (P := posix)
                    (lit "increment_version.py") (lit "version.h") (lit "patch")
                    [lit "extra"] cluttered_world) E0).
  - split; [exact E1|].
    destruct (proj1 (proj2 (main_exit_status (U := ascii_tables) (P := posix)
                (lit "increment_version.py") (lit "include") (lit "patch")
                [] cluttered_world)) E1) as (H1 & Hn & _).
    split; [exact H1|exact Hn].
Defined.

Lemma nothing_to_rewrite_witness :
  let w := holding (lit "version.h") plain_header in
  files w (lit "version.h") = Some plain_header /\
  In (lit "build") kinds /\
  none_found (U := ascii_tables) (universal_newlines plain_header) = true /\
  increment_version (U := ascii_tables) (P := posix) (lit "version.h") (lit "build") w
  = (Ok true,
     to_stdout
       (store (fold_left to_stderr (map warning_line kinds) w) (lit "version.h")
              plain_header)
       (lit "Version incremented: build -> 0.0.0-1")).
Proof.
  intros w.
  assert (Hf : files w (lit "version.h") = Some plain_header) by reflexivity.
  assert (Hk : In (lit "build") kinds) by (right; right; right; left; reflexivity).
  assert (Hn : none_found (U := ascii_tables) (universal_newlines plain_header) = true)
    by (vm_compute; reflexivity).
  split; [exact Hf|]. split; [exact Hk|]. split; [exact Hn|].
  rewrite (nothing_to_rewrite (U := ascii_tables) (P := posix) _ _ _ _ Hf Hk Hn).
  vm_compute. reflexivity.
Defined.

Lemma header_consistent_after_run_witness :
  files example_world (lit "version.h") = Some example_header /\
  In (lit "major") kinds /\
  well_formed (U := ascii_tables) (universal_newlines example_header) = true /\
  exists content',
    files (snd (increment_version (U := ascii_tables) (P := posix)
                  (lit "version.h") (lit "major") example_world))
          (lit "version.h") = Some (to_linesep (P := posix) content') /\
    (forall gs,
        occurs_in (U := ascii_tables)
                  (string_pattern "FIRMWARE_VERSION_STRING") content' gs ->
        group 2 gs = version_text (parse (U := ascii_tables) content')) /\
    (forall gs,
        occurs_in (U := ascii_tables)
                  (string_pattern "FIRMWARE_VERSION_FULL") content' gs ->
        group 2 gs
        = lit "ESP32 RTP Transciever v" ++ version_text (parse (U := ascii_tables) content')).
Proof.
  assert (Hf : files example_world (lit "version.h") = Some example_header)
    by reflexivity.
  assert (Hk : In (lit "major") kinds) by (left; reflexivity).
  assert (Hw : well_formed (U := ascii_tables) (universal_newlines example_header) = true)
    by (vm_compute; reflexivity).
  split; [exact Hf|]. split; [exact Hk|]. split; [exact Hw|].
  exact (header_consistent_after_run (U := ascii_tables) (P := posix) _ _ _ _ Hf Hk Hw).
Defined.

Lemma well_formed_kept_witness :
  files example_world (lit "version.h") = Some example_header /\
  In (lit "build") kinds /\
  well_formed (U := ascii_tables) (universal_newlines example_header) = true /\
  exists content',
    files (snd (increment_version (U := ascii_tables) (P := posix)
                  (lit "version.h") (lit "build") example_world))
          (lit "version.h") = Some (to_linesep (P := posix) content') /\
    well_formed (U := ascii_tables) content' = true /\
    well_formed (U := ascii_tables) (universal_newlines (to_linesep (P := posix) content'))
    = true.
Proof.
  assert (Hf : files example_world (lit "version.h") = Some example_header)
    by reflexivity.
  assert (Hk : In (lit "build") kinds) by (right; right; right; left; reflexivity).
  assert (Hw : well_formed (U := ascii_tables) (universal_newlines example_header) = true)
    by (vm_compute; reflexivity).
  split; [exact Hf|]. split; [exact Hk|]. split; [exact Hw|].
  exact (well_formed_kept (U := ascii_tables) (P := posix) _ _ _ _ Hf Hk Hw).
Defined.

Lemma integers_normalised_witness :
  let w := holding (lit "version.h") padded_header in
  files w (lit "version.h") = Some padded_header /\
  In (lit "build") kinds /\
  In ("build", "FIRMWARE_BUILD_NUMBER")%string fields /\
  files (snd (increment_version (U := ascii_tables) (P := posix)
                (lit "version.h") (lit "build") w)) (lit "version.h")
  = Some (lit "#define FIRMWARE_BUILD_NUMBER 42" ++ [newline]) /\
  exists content',
    files (snd (increment_version (U := ascii_tables) (P := posix)
                  (lit "version.h") (lit "build") w))
          (lit "version.h") = Some (to_linesep (P := posix) content') /\
    forall gs,
      occurs_in (U := ascii_tables) (field_pattern "FIRMWARE_BUILD_NUMBER") content' gs ->
      Forall (fun c => ascii_isdecimal c = true) (group 2 gs) /\
      (forall rest, group 2 gs = 48%N :: rest -> rest = []).
Proof.
  intros w.
  assert (Hf : files w (lit "version.h") = Some padded_header) by reflexivity.
  assert (Hk : In (lit "build") kinds) by (right; right; right; left; reflexivity).
  assert (Hn : In ("build", "FIRMWARE_BUILD_NUMBER")%string fields)
    by (right; right; right; left; reflexivity).
  split; [exact Hf|]. split; [exact Hk|]. split; [exact Hn|].
  split; [vm_compute; reflexivity|].
  exact (integers_normalised (U := ascii_tables) (P := posix) _ _ _ _ _ _ Hf Hk Hn).
Defined.

Lemma version_string_injective_witness :
  version_text (record 1 2 3 9) = version_text (record 1 (1 + 1) 3 (10 - 1)) /\
  (1 = 1 /\ 2 = 1 + 1 /\ 3 = 3 /\ 9 = 10 - 1)%N.
Proof.
  assert (E : version_text (record 1 2 3 9) = version_text (record 1 (1 + 1) 3 (10 - 1)))
    by reflexivity.
  split; [exact E|].
  exact (version_string_injective (U := ascii_tables) _ _ _ _ _ _ _ _ E).
Defined.

Lemma quiet_success_witness :
  files example_world (lit "version.h") = Some example_header /\
  In (lit "build") kinds /\
  all_found (U := ascii_tables) (universal_newlines example_header) = true /\
  stderr (snd (increment_version (U := ascii_tables) (P := posix)
                 (lit "version.h") (lit "build") example_world)) = [] /\
  stdout (snd (increment_version (U := ascii_tables) (P := posix)
                 (lit "version.h") (lit "build") example_world))
  = [lit "Version incremented: build -> 1.2.3-10"].
Proof.
  assert (Hf : files example_world (lit "version.h") = Some example_header)
    by reflexivity.
  assert (Hk : In (lit "build") kinds) by (right; right; right; left; reflexivity).
  assert (Ha : all_found (U := ascii_tables) (universal_newlines example_header) = true)
    by (vm_compute; reflexivity).
  split; [exact Hf|]. split; [exact Hk|]. split; [exact Ha|].
  destruct (quiet_success (U := ascii_tables) (P := posix) _ _ _ _ Hf Hk Ha) as [He Ho].
  split; [exact He|]. rewrite Ho. vm_compute. reflexivity.
Defined.

Lemma increment_increases_version_witness :
  In (lit "minor") kinds /\
  bump (lit "minor") (record 1 2 3 9) = record 1 3 0 9 /\
  version_before (1, 2, 3, 9)%N (1, 3, 0, 9)%N.
Proof.
  assert (Hk : In (lit "minor") kinds) by (right; left; reflexivity).
  split; [exact Hk|].
  destruct (increment_increases_version (lit "minor") 1 2 3 9 Hk)
    as (a & b & c & d & E & _ & Hlt).
  assert (E' : bump (lit "minor") (record 1 2 3 9) = record 1 3 0 9) by reflexivity.
  split; [exact E'|].
  rewrite E' in E. injection E as <- <- <- <-. exact Hlt.
Defined.

Lemma run_changes_file_witness :
  files example_world (lit "version.h") = Some example_header /\
  In (lit "build") kinds /\
  well_formed (U := ascii_tables) (universal_newlines example_header) = true /\
  exists content',
    files (snd (increment_version (U := ascii_tables) (P := posix)
                  (lit "version.h") (lit "build") example_world))
          (lit "version.h") = Some (to_linesep (P := posix) content') /\
    content' <> universal_newlines example_header.
Proof.
  assert (Hf : files example_world (lit "version.h") = Some example_header)
    by reflexivity.
  assert (Hk : In (lit "build") kinds) by (right; right; right; left; reflexivity).
  assert (Hw : well_formed (U := ascii_tables) (universal_newlines example_header) = true)
    by (vm_compute; reflexivity).
  split; [exact Hf|]. split; [exact Hk|]. split; [exact Hw|].
  exact (run_changes_file (U := ascii_tables) (P := posix) _ _ _ _ Hf Hk Hw).
Defined.

Lemma runs_compose_witness :
  let ks := [lit "build"; lit "build"; lit "minor"] in
  files example_world (lit "version.h") = Some example_header /\
  Forall (fun k => In k kinds) ks /\
  well_formed (U := ascii_tables) (universal_newlines example_header) = true /\
  exists raw',
    files (run_all (U := ascii_tables) (P := posix) (lit "version.h") ks example_world)
          (lit "version.h") = Some raw' /\
    parse (U := ascii_tables) (universal_newlines raw') = record 1 3 0 11.
Proof.
  intros ks.
  assert (Hf : files example_world (lit "version.h") = Some example_header)
    by reflexivity.
  assert (Hks : Forall (fun k => In k kinds) ks).
  { apply Forall_cons; [right; right; right; left; reflexivity|].
    apply Forall_cons; [right; right; right; left; reflexivity|].
    apply Forall_cons; [right; left; reflexivity|]. apply Forall_nil. }
  assert (Hw : well_formed (U := ascii_tables) (universal_newlines example_header) = true)
    by (vm_compute; reflexivity).
  split; [exact Hf|]. split; [exact Hks|]. split; [exact Hw|].
  destruct (runs_compose (U := ascii_tables) (P := posix) _ _ _ _ Hf Hks Hw)
    as (raw' & Hf' & _ & Hp).
  exists raw'. split; [exact Hf'|]. rewrite Hp. vm_compute. reflexivity.
Defined.
